(** * Suffix-array and inverse-suffix-array sampling strategies

    A shallow embedding of [include/sdsl/csa_sampling_strategy.hpp]:
    the four SA sampling classes ([_sa_order_sampling],
    [_text_order_sampling], [_bwt_sampling], [_fuzzy_sa_sampling]) and the
    three ISA sampling classes ([_isa_sampling],
    [_text_order_isa_sampling_support], [_fuzzy_isa_sampling_support]).

    Conventions.  [size_type] and [value_type] are 64-bit unsigned.  The
    buffers are held in memory with 64-bit entries, so their length [n] is
    below [2^61], and [sample_dens] is a 32-bit template constant of the
    enclosing CSA; every expression of the source over them ([n +
    sample_dens - 1], [i + sample_dens], [ci * sample_dens], [x *
    sample_dens] for a stored [x < n], ...) stays below [2^64].  Indices
    and values are therefore written as [nat] with the arithmetic of [nat].
    The one place where the source truncates values, the store into an
    [int_vector] of a chosen bit width, is written out ([iv_set]).  Cache
    files read through [int_vector_buffer] are lists; reading index [i] is
    [buf !!! i].  [sample_dens] is an explicit argument. *)

From stdpp Require Import base numbers list gmap.
From Stdlib.Init Require Import Byte.

Set Default Proof Using "Type".

(** ** Primitives consumed by the sampling classes *)

(** Modelled from the spec: [bits::hi] ([bits.hpp] is not part of the
    sources): position of the most significant set bit, 0 for 0, so that
    [hi n + 1] bits hold every value up to [n]. *)
Definition hi (x : nat) : nat := Nat.log2 x.

Abbreviation bit_vector := (list bool).

(** Modelled from the spec: the bit-packed integer vector [int_vector<0>]
    ([int_vector.hpp] is not part of the sources): a width in bits and the
    stored values; a store keeps the low [width] bits of the value. *)
Record int_vector := IntVector { iv_width : nat; iv_data : list nat }.

Global Instance int_vector_eq_dec : EqDecision int_vector.
Proof. solve_decision. Defined.

(** Modelled from the spec: the operations of [int_vector] used by the
    sampling classes: the default constructor (width 64, no element),
    [width(w)], [resize(k)] (new elements are 0), the constructor
    [int_vector(k, x, w)], the store [v[k] = x], the read [v[k]] and
    [size()].  An index outside the vector is undefined in the source; here
    a store there leaves the vector as it is and a read yields 0, and the
    invariants of the constructors show that neither happens. *)
Definition iv_empty : int_vector := IntVector 64 [].
Definition iv_set_width (w : nat) (v : int_vector) : int_vector :=
  IntVector w (iv_data v).
Definition iv_resize (k : nat) (v : int_vector) : int_vector :=
  IntVector (iv_width v) (resize k 0 (iv_data v)).
Definition iv_make (k x w : nat) : int_vector := IntVector w (replicate k x).
Definition iv_set (k x : nat) (v : int_vector) : int_vector :=
  IntVector (iv_width v) (<[k := x mod 2 ^ iv_width v]> (iv_data v)).
Definition iv_get (v : int_vector) (k : nat) : nat := iv_data v !!! k.
Definition iv_size (v : int_vector) : nat := length (iv_data v).

Global Arguments iv_set : simpl never.
Global Arguments iv_get : simpl never.
Global Arguments iv_resize : simpl never.

(** Modelled from the spec: [util::bit_compress]: the width becomes the
    least one that holds the largest element; the values are unchanged. *)
Definition bit_compress (v : int_vector) : int_vector :=
  IntVector (hi (max_list (iv_data v)) + 1) (iv_data v).

(** Modelled from the spec: [rank1(i)] is the number of ones in [[0, i)] and
    [select1(k)] the position of the [k]-th one, [k] counted from 1
    (the rank and select supports are not part of the sources). *)
Definition popcount (bv : bit_vector) : nat := length (filter (eq true) bv).
Definition rank1 (bv : bit_vector) (i : nat) : nat := popcount (take i bv).

Fixpoint select1 (bv : bit_vector) (k : nat) : nat :=
  match bv with
  | [] => 0
  | true :: bv' =>
      match k with
      | 0 | 1 => 0
      | S k' => S (select1 bv' k')
      end
  | false :: bv' => S (select1 bv' k)
  end.

(** Modelled from the spec: the rank and select supports ([rank_support_v],
    [select_support], ... are not part of the sources).  A support holds a
    non-owning pointer to the bit vector it answers for; [init_support]
    binds it and [set_vector] re-binds it.  The structures below never
    change a vector once a support is bound to it, so the pointer is written
    as the value it points to, [None] being [nullptr]. *)
Record rank_support := RankSupport { rs_v : option bit_vector }.
Record select_support := SelectSupport { ss_v : option bit_vector }.

Global Instance rank_support_eq_dec : EqDecision rank_support.
Proof. solve_decision. Defined.
Global Instance select_support_eq_dec : EqDecision select_support.
Proof. solve_decision. Defined.

Definition rank_init (bv : bit_vector) : rank_support := RankSupport (Some bv).
Definition rank_set_vector (bv : bit_vector) (rs : rank_support) : rank_support :=
  RankSupport (Some bv).
Definition rank_query (rs : rank_support) (i : nat) : nat :=
  rank1 (default [] (rs_v rs)) i.

Definition select_init (bv : bit_vector) : select_support := SelectSupport (Some bv).
Definition select_set_vector (bv : bit_vector) (ss : select_support) : select_support :=
  SelectSupport (Some bv).
Definition select_query (ss : select_support) (k : nat) : nat :=
  select1 (default [] (ss_v ss)) k.

(** Modelled from the spec: the wavelet tree [wt_int] over an integer
    sequence ([wt_int.hpp] is not part of the sources): [access] and
    [select(k, c)], the position of the [k]-th occurrence of [c]. *)
Definition wt_access (wt : list nat) (i : nat) : nat := wt !!! i.
Definition wt_select (wt : list nat) (k c : nat) : nat :=
  select1 ((λ x, bool_decide (x = c)) <$> wt) k.
Definition wt_size (wt : list nat) : nat := length wt.

(** Modelled from the spec: [inv_perm_support] over an integer vector that
    holds a permutation ([inv_perm_support.hpp] is not part of the
    sources): [operator[](i)] is the index at which the vector holds [i].
    The support points to the vector, as the rank and select supports do. *)
Record inv_perm_support := InvPermSupport { ip_v : option int_vector }.

Global Instance inv_perm_support_eq_dec : EqDecision inv_perm_support.
Proof. solve_decision. Defined.

Definition inv_perm_init (perm : int_vector) : inv_perm_support :=
  InvPermSupport (Some perm).
Definition inv_perm_set_vector (perm : int_vector) (ip : inv_perm_support) :
    inv_perm_support :=
  InvPermSupport (Some perm).
Definition inv_perm_get (ip : inv_perm_support) (i : nat) : nat :=
  select1 ((λ x, bool_decide (x = i)) <$> iv_data (default iv_empty (ip_v ip))) 1.
Definition inv_perm_size (ip : inv_perm_support) : nat :=
  iv_size (default iv_empty (ip_v ip)).

(** Counted loops: [for (i = lo; i < lo + cnt; ++i) body]. *)
Definition for_loop {St : Type} (lo cnt : nat) (body : nat → St → St) (s : St) : St :=
  foldl (λ s i, body i s) s (seq lo cnt).

(** Strided loops: [for (i = i0; i < n; i += d) body].  At most [fuel]
    iterations are run; [fuel = n] suffices whenever [d >= 1]. *)
Fixpoint stride_loop {St : Type} (fuel i n d : nat) (body : nat → St → St)
    (s : St) : St :=
  match fuel with
  | 0 => s
  | S fuel' =>
      if decide (i < n) then stride_loop fuel' (i + d) n d body (body i s) else s
  end.

(** ** [_sa_order_sampling] *)

(** The class derives from [int_vector]: the structure is its vector of
    samples.  The loop state is [(cnt_mod, cnt_sum, samples)]. *)

Definition sa_order_body (sample_dens : nat) (sa_buf : list nat) (i : nat)
    (st : nat * nat * int_vector) : nat * nat * int_vector :=
  let '(cnt_mod, cnt_sum, v) := st in
  let sa := sa_buf !!! i in
  let '(cnt_mod, cnt_sum, v) :=
    if decide (sample_dens = cnt_mod) then (0, S cnt_sum, iv_set cnt_sum sa v)
    else (cnt_mod, cnt_sum, v) in
  (S cnt_mod, cnt_sum, v).

Definition sa_order_sampling_build (sample_dens : nat) (sa_buf : list nat) : int_vector :=
  let n := length sa_buf in
  let v := iv_resize ((n + sample_dens - 1) / sample_dens)
             (iv_set_width (hi n + 1) iv_empty) in
  (for_loop 0 n (sa_order_body sample_dens sa_buf) (sample_dens, 0, v)).2.

Definition sa_order_is_sampled (sample_dens : nat) (i : nat) : bool :=
  bool_decide (0 = i mod sample_dens).

Definition sa_order_get (sample_dens : nat) (v : int_vector) (i : nat) : nat :=
  iv_get v (i / sample_dens).

(** ** [_isa_sampling] *)

(** The class derives from [int_vector] as well.  A first loop clears the
    vector, a second one stores [i] at [SA[i] / sample_dens] for every
    [SA[i]] that is a multiple of [sample_dens]. *)

Definition isa_zero_body (i : nat) (v : int_vector) : int_vector := iv_set i 0 v.

Definition isa_body (sample_dens : nat) (sa_buf : list nat) (i : nat)
    (v : int_vector) : int_vector :=
  let sa := sa_buf !!! i in
  if decide (sa mod sample_dens = 0) then iv_set (sa / sample_dens) i v else v.

Definition isa_sampling_build (sample_dens : nat) (sa_buf : list nat) : int_vector :=
  let n := length sa_buf in
  let v :=
    if decide (1 ≤ n) then
      iv_resize ((n - 1) / sample_dens + 1) (iv_set_width (hi n + 1) iv_empty)
    else iv_empty in
  let v := for_loop 0 (iv_size v) isa_zero_body v in
  for_loop 0 n (isa_body sample_dens sa_buf) v.

Definition isa_get (sample_dens : nat) (v : int_vector) (i : nat) : nat :=
  iv_get v (i / sample_dens).

Definition isa_sample_leq (sample_dens : nat) (v : int_vector) (i : nat) : nat * nat :=
  let ci := i / sample_dens in
  (iv_get v ci, ci * sample_dens).

Definition isa_sample_qeq (sample_dens : nat) (v : int_vector) (i : nat) : nat * nat :=
  let ci := (i / sample_dens + 1) mod iv_size v in
  (iv_get v ci, ci * sample_dens).

(** ** [_text_order_sampling] *)

(** The class derives from [int_vector] (the samples) and owns the mark
    vector and its rank support. *)
Record text_order_sampling := TextOrderSampling {
  to_samples : int_vector;
  to_marked : bit_vector;
  to_rank_marked : rank_support
}.

Global Instance text_order_sampling_eq_dec : EqDecision text_order_sampling.
Proof. solve_decision. Defined.

Definition text_order_body (sample_dens : nat) (sa_buf : list nat) (i : nat)
    (st : nat * bit_vector * int_vector) : nat * bit_vector * int_vector :=
  let '(sa_cnt, marked, v) := st in
  let sa := sa_buf !!! i in
  if decide (0 = sa mod sample_dens) then
    (S sa_cnt, <[i := true]> marked, iv_set sa_cnt (sa / sample_dens) v)
  else st.

Definition text_order_sampling_build (sample_dens : nat) (sa_buf : list nat) :
    text_order_sampling :=
  let n := length sa_buf in
  let marked := replicate n false in
  let v := iv_resize ((n + sample_dens - 1) / sample_dens)
             (iv_set_width (hi (n / sample_dens) + 1) iv_empty) in
  let '(_, marked, v) :=
    for_loop 0 n (text_order_body sample_dens sa_buf) (0, marked, v) in
  TextOrderSampling v marked (rank_init marked).

Definition text_order_is_sampled (X : text_order_sampling) (i : nat) : bool :=
  to_marked X !!! i.

Definition text_order_get (sample_dens : nat) (X : text_order_sampling) (i : nat) : nat :=
  iv_get (to_samples X) (rank_query (to_rank_marked X) i) * sample_dens.

Definition text_order_condensed_sa (X : text_order_sampling) (i : nat) : nat :=
  iv_get (to_samples X) i.

(** ** [_bwt_sampling] *)

(** A first pass marks and counts, [resize] makes room for the samples, a
    second pass stores [SA[i]] for the marked [i]. *)

Record bwt_sampling := BwtSampling {
  bw_samples : int_vector;
  bw_marked : bit_vector;
  bw_rank_marked : rank_support
}.

Global Instance bwt_sampling_eq_dec : EqDecision bwt_sampling.
Proof. solve_decision. Defined.

Section bwt_sampling.
(** [t_csa::char_type] and the conversion [(char_type)x] from the integers
    held in the cache files. *)
Context {char_type : Type} `{Countable char_type}.
Variable to_char : nat → char_type.

(** [sample_char] is what [load_from_cache] found: [None] when the file
    [KEY_SAMPLE_CHAR] is absent. *)
Definition bwt_char_map (sample_char : option (list nat)) : gset char_type :=
  match sample_char with
  | Some sc => for_loop 0 (length sc) (λ i m, {[ to_char (sc !!! i) ]} ∪ m) ∅
  | None => ∅
  end.

Definition bwt_mark_body (sample_dens : nat) (sa_buf bwt_buf : list nat)
    (char_map : gset char_type) (i : nat) (st : nat * bit_vector) : nat * bit_vector :=
  let '(sa_cnt, marked) := st in
  let sa := sa_buf !!! i in
  let bwt := to_char (bwt_buf !!! i) in
  if decide (0 = sa mod sample_dens) then (S sa_cnt, <[i := true]> marked)
  else if decide (bwt ∈ char_map) then (S sa_cnt, <[i := true]> marked)
  else st.

Definition bwt_fill_body (sa_buf : list nat) (marked : bit_vector) (i : nat)
    (st : nat * int_vector) : nat * int_vector :=
  let '(sa_cnt, v) := st in
  let sa := sa_buf !!! i in
  if (marked !!! i : bool) then (S sa_cnt, iv_set sa_cnt sa v) else st.

Definition bwt_sampling_build (sample_dens : nat) (sa_buf bwt_buf : list nat)
    (sample_char : option (list nat)) : bwt_sampling :=
  let n := length sa_buf in
  let marked : bit_vector := replicate n false in
  let v := iv_set_width (hi n + 1) iv_empty in
  let char_map := bwt_char_map sample_char in
  let '(sa_cnt, marked) :=
    for_loop 0 n (bwt_mark_body sample_dens sa_buf bwt_buf char_map) (0, marked) in
  let v := iv_resize sa_cnt v in
  let sa_cnt := 0 in
  let '(_, v) := for_loop 0 n (bwt_fill_body sa_buf marked) (sa_cnt, v) in
  BwtSampling v marked (rank_init marked).
End bwt_sampling.

Definition bwt_is_sampled (X : bwt_sampling) (i : nat) : bool :=
  bw_marked X !!! i.

Definition bwt_get (sample_dens : nat) (X : bwt_sampling) (i : nat) : nat :=
  iv_get (bw_samples X) (rank_query (bw_rank_marked X) i) * sample_dens.

(** ** [_fuzzy_sa_sampling] *)

(** The constructor reads the ISA (built first when it is not cached).
    [m_inv_perm] is a wavelet tree, held as the sequence it represents. *)

Record fuzzy_sa_sampling := FuzzySaSampling {
  fz_marked_sa : bit_vector;
  fz_rank_marked_sa : rank_support;
  fz_marked_isa : bit_vector;
  fz_select_marked_isa : select_support;
  fz_inv_perm : list nat
}.

Global Instance fuzzy_sa_sampling_eq_dec : EqDecision fuzzy_sa_sampling.
Proof. solve_decision. Defined.

(** The local variables of the constructor that live across the block loop. *)
Record fuzzy_state := FuzzyState {
  fs_marked_isa : bit_vector;
  fs_marked_sa : bit_vector;
  fs_inv_perm : int_vector;
  fs_cnt : nat;
  fs_runs : nat;
  fs_min_prev_val : nat
}.

Definition fuzzy_init (sample_dens n : nat) : fuzzy_state :=
  FuzzyState (replicate n false) (replicate n false)
    (iv_make ((n + sample_dens - 1) / sample_dens) 0 (hi n + 1)) 0 1 0.

Definition fuzzy_inner_body (isa_buf : list nat) (n min_prev_val : nat) (j : nat)
    (st : nat * nat) : nat * nat :=
  let '(pos_min, pos_cnd) := st in
  let pos_min := if decide (isa_buf !!! j < isa_buf !!! pos_min) then j else pos_min in
  let pos_cnd :=
    if decide (min_prev_val ≤ isa_buf !!! j) then
      if decide (pos_cnd = n) then j
      else if decide (isa_buf !!! j < isa_buf !!! pos_cnd) then j
      else pos_cnd
    else pos_cnd in
  (pos_min, pos_cnd).

(** The two candidates of the block that starts at [i], before the test
    [pos_cnd == n]: [j] runs from [i + 1] while [j < i + sample_dens] and
    [j < n]. *)
Definition fuzzy_candidates (sample_dens : nat) (isa_buf : list nat)
    (min_prev_val i : nat) : nat * nat :=
  let n := length isa_buf in
  let pos_min := i in
  let pos_cnd := if decide (min_prev_val ≤ isa_buf !!! i) then i else n in
  for_loop (i + 1) (Nat.min (i + sample_dens) n - (i + 1))
    (fuzzy_inner_body isa_buf n min_prev_val) (pos_min, pos_cnd).

(** The position marked for the block that starts at [i], and the run
    counter after it: [if (pos_cnd == n) { pos_cnd = pos_min; ++runs; }]. *)
Definition fuzzy_select (sample_dens : nat) (isa_buf : list nat) (i : nat)
    (st : fuzzy_state) : nat * nat :=
  let n := length isa_buf in
  let '(pos_min, pos_cnd) :=
    fuzzy_candidates sample_dens isa_buf (fs_min_prev_val st) i in
  if decide (pos_cnd = n) then (pos_min, S (fs_runs st)) else (pos_cnd, fs_runs st).

Definition fuzzy_body (sample_dens : nat) (isa_buf : list nat) (i : nat)
    (st : fuzzy_state) : fuzzy_state :=
  let '(pos_cnd, runs) := fuzzy_select sample_dens isa_buf i st in
  let min_prev_val := isa_buf !!! pos_cnd in
  FuzzyState (<[pos_cnd := true]> (fs_marked_isa st))
    (<[min_prev_val := true]> (fs_marked_sa st))
    (iv_set (fs_cnt st) min_prev_val (fs_inv_perm st))
    (S (fs_cnt st)) runs min_prev_val.

(** The block loop, stopped after at most [fuel] blocks. *)
Definition fuzzy_scan (fuel sample_dens : nat) (isa_buf : list nat) : fuzzy_state :=
  let n := length isa_buf in
  stride_loop fuel 0 n sample_dens (fuzzy_body sample_dens isa_buf)
    (fuzzy_init sample_dens n).

Definition fuzzy_rank_body (marked_sa : bit_vector) (i : nat) (v : int_vector) :
    int_vector :=
  iv_set i (rank_query (rank_init marked_sa) (iv_get v i)) v.

Definition fuzzy_sa_sampling_build (sample_dens : nat) (isa_buf : list nat) :
    fuzzy_sa_sampling :=
  let n := length isa_buf in
  let st := fuzzy_scan n sample_dens isa_buf in
  let marked_isa := fs_marked_isa st in
  let marked_sa := fs_marked_sa st in
  let inv_perm :=
    for_loop 0 (iv_size (fs_inv_perm st)) (fuzzy_rank_body marked_sa) (fs_inv_perm st) in
  let inv_perm := bit_compress inv_perm in
  FuzzySaSampling marked_sa (rank_init marked_sa) marked_isa (select_init marked_isa)
    (iv_data inv_perm).

Definition fuzzy_is_sampled (X : fuzzy_sa_sampling) (i : nat) : bool :=
  fz_marked_sa X !!! i.

Definition fuzzy_get (X : fuzzy_sa_sampling) (i : nat) : nat :=
  select_query (fz_select_marked_isa X)
    (wt_select (fz_inv_perm X) 1 (rank_query (fz_rank_marked_sa X) i) + 1).

Definition fuzzy_inv (X : fuzzy_sa_sampling) (i : nat) : nat :=
  wt_access (fz_inv_perm X) i.

Definition fuzzy_size (X : fuzzy_sa_sampling) : nat := wt_size (fz_inv_perm X).

(** [operator==] of [_fuzzy_sa_sampling]. *)
Definition fuzzy_eqb (X Y : fuzzy_sa_sampling) : bool :=
  bool_decide (fz_marked_sa X = fz_marked_sa Y)
  && bool_decide (fz_rank_marked_sa X = fz_rank_marked_sa Y)
  && bool_decide (fz_marked_isa X = fz_marked_isa Y)
  && bool_decide (fz_select_marked_isa X = fz_select_marked_isa Y)
  && bool_decide (fz_inv_perm X = fz_inv_perm Y).

Definition fuzzy_empty : fuzzy_sa_sampling :=
  FuzzySaSampling [] (RankSupport None) [] (SelectSupport None) [].

(** ** [_text_order_isa_sampling_support] *)

(** The class requires [sa_sample_dens == isa_sample_dens] (a
    [static_assert]) and a companion with [text_order = true] (an
    [enable_if] on the constructor): there is one [sample_dens], and the
    companion has type [text_order_sampling]. *)
Record text_order_isa_sampling_support := TextOrderIsaSupport {
  tis_select_marked : select_support;
  tis_inv_perm : inv_perm_support
}.

Definition text_order_isa_build (sa_sample : text_order_sampling) :
    text_order_isa_sampling_support :=
  let perm := to_samples sa_sample in
  TextOrderIsaSupport (select_init (to_marked sa_sample))
    (inv_perm_set_vector perm (inv_perm_init perm)).

Definition text_order_isa_get (sample_dens : nat)
    (D : text_order_isa_sampling_support) (i : nat) : nat :=
  select_query (tis_select_marked D) (inv_perm_get (tis_inv_perm D) (i / sample_dens) + 1).

Definition text_order_isa_sample_leq (sample_dens : nat)
    (D : text_order_isa_sampling_support) (i : nat) : nat * nat :=
  let ci := i / sample_dens in
  (select_query (tis_select_marked D) (inv_perm_get (tis_inv_perm D) ci + 1),
   ci * sample_dens).

Definition text_order_isa_sample_qeq (sample_dens : nat)
    (D : text_order_isa_sampling_support) (i : nat) : nat * nat :=
  let ci := (i / sample_dens + 1) mod inv_perm_size (tis_inv_perm D) in
  (select_query (tis_select_marked D) (inv_perm_get (tis_inv_perm D) ci + 1),
   ci * sample_dens).

(** ** [_fuzzy_isa_sampling_support] *)

Record fuzzy_isa_sampling_support := FuzzyIsaSupport {
  fis_sa_p : option fuzzy_sa_sampling;
  fis_select_marked_sa : select_support
}.

Definition fuzzy_isa_build (sa_sample : fuzzy_sa_sampling) : fuzzy_isa_sampling_support :=
  FuzzyIsaSupport (Some sa_sample) (select_init (fz_marked_sa sa_sample)).

Definition fuzzy_isa_get (D : fuzzy_isa_sampling_support) (i : nat) : nat :=
  fuzzy_inv (default fuzzy_empty (fis_sa_p D)) i.

Definition fuzzy_isa_sample_leq (sample_dens : nat)
    (D : fuzzy_isa_sampling_support) (i : nat) : nat * nat :=
  let sa := default fuzzy_empty (fis_sa_p D) in
  let ci := i / sample_dens in
  let j := select_query (fz_select_marked_isa sa) (ci + 1) in
  let '(ci, j) :=
    if decide (i < j) then
      let ci := if decide (0 < ci) then ci - 1 else fuzzy_size sa - 1 in
      (ci, select_query (fz_select_marked_isa sa) (ci + 1))
    else (ci, j) in
  (select_query (fis_select_marked_sa D) (fuzzy_inv sa ci + 1), j).

Definition fuzzy_isa_sample_qeq (sample_dens : nat)
    (D : fuzzy_isa_sampling_support) (i : nat) : nat * nat :=
  let sa := default fuzzy_empty (fis_sa_p D) in
  let ci := i / sample_dens in
  let j := select_query (fz_select_marked_isa sa) (ci + 1) in
  let '(ci, j) :=
    if decide (j < i) then
      let ci := if decide (ci < fuzzy_size sa - 1) then ci + 1 else 0 in
      (ci, select_query (fz_select_marked_isa sa) (ci + 1))
    else (ci, j) in
  (select_query (fis_select_marked_sa D) (fuzzy_inv sa ci + 1), j).

(** ** Serialization of the SA sampling classes *)

(** Modelled from the spec: [serialize] and [load] of the members
    ([int_vector], the bit vectors, the supports and the wavelet tree; their
    headers are not part of the sources).  [serialize] appends the bytes of
    an object to the output stream and [load] consumes them from the front
    of the input stream.  The formats belong to the members; the sampling
    classes only fix the order in which the members are written and read
    back. *)
Class Codec (A : Type) := {
  serialize : A → list byte;
  load : list byte → option (A * list byte)
}.

(** Modelled from the spec: a member that owns its data is read back as it
    was written. *)
Class CodecOk (A : Type) `{Codec A} : Prop :=
  load_serialize : ∀ (x : A) (rest : list byte),
    load (serialize x ++ rest) = Some (x, rest).

(** Modelled from the spec: a support is read back with a null pointer
    ([load(in)] is called without a vector); [set_vector] then binds it. *)
Class SupportCodecOk (A : Type) `{Codec A} (unbound : A) : Prop :=
  load_serialize_support : ∀ (x : A) (rest : list byte),
    load (serialize x ++ rest) = Some (unbound, rest).

Section serialization.
Context `{Codec int_vector, Codec bit_vector, Codec (list nat)}.
Context `{Codec rank_support, Codec select_support}.

(** [_sa_order_sampling] inherits both functions from [int_vector]. *)
Definition sa_order_serialize (X : int_vector) : list byte := serialize X.
Definition sa_order_load (inp : list byte) : option (int_vector * list byte) :=
  load inp.
(** [operator==] is inherited from [int_vector] as well. *)
Definition sa_order_eqb (X Y : int_vector) : bool := bool_decide (X = Y).

Definition text_order_serialize (X : text_order_sampling) : list byte :=
  serialize (to_samples X) ++ serialize (to_marked X)
  ++ serialize (to_rank_marked X).

Definition text_order_load (inp : list byte) :
    option (text_order_sampling * list byte) :=
  '(samples, inp) ← load inp;
  '(m_marked, inp) ← load inp;
  '(m_rank_marked, inp) ← load inp;
  let m_rank_marked := rank_set_vector m_marked m_rank_marked in
  Some (TextOrderSampling samples m_marked m_rank_marked, inp).

(** No [operator==] is declared in the class: the comparison is the one
    of the base class and sees the samples only. *)
Definition text_order_eqb (X Y : text_order_sampling) : bool :=
  bool_decide (to_samples X = to_samples Y).

Definition bwt_serialize (X : bwt_sampling) : list byte :=
  serialize (bw_samples X) ++ serialize (bw_marked X)
  ++ serialize (bw_rank_marked X).

Definition bwt_load (inp : list byte) : option (bwt_sampling * list byte) :=
  '(samples, inp) ← load inp;
  '(m_marked, inp) ← load inp;
  '(m_rank_marked, inp) ← load inp;
  let m_rank_marked := rank_set_vector m_marked m_rank_marked in
  Some (BwtSampling samples m_marked m_rank_marked, inp).

Definition bwt_eqb (X Y : bwt_sampling) : bool :=
  bool_decide (bw_samples X = bw_samples Y).

Definition fuzzy_serialize (X : fuzzy_sa_sampling) : list byte :=
  serialize (fz_marked_sa X) ++ serialize (fz_rank_marked_sa X)
  ++ serialize (fz_marked_isa X) ++ serialize (fz_select_marked_isa X)
  ++ serialize (fz_inv_perm X).

Definition fuzzy_load (inp : list byte) : option (fuzzy_sa_sampling * list byte) :=
  '(m_marked_sa, inp) ← load inp;
  '(m_rank_marked_sa, inp) ← load inp;
  let m_rank_marked_sa := rank_set_vector m_marked_sa m_rank_marked_sa in
  '(m_marked_isa, inp) ← load inp;
  '(m_select_marked_isa, inp) ← load inp;
  let m_select_marked_isa := select_set_vector m_marked_isa m_select_marked_isa in
  '(m_inv_perm, inp) ← load inp;
  Some (FuzzySaSampling m_marked_sa m_rank_marked_sa m_marked_isa
          m_select_marked_isa m_inv_perm, inp).
End serialization.

(** A byte format for the members, used to run the functions above on
    concrete data: a number is a run of [x01] closed by [x00], a sequence is
    its length followed by its elements, a support writes no data of its
    own. *)
Module ByteFormat.
Definition put_nat (n : nat) : list byte := replicate n x01 ++ [x00].

Fixpoint get_nat (inp : list byte) : option (nat * list byte) :=
  match inp with
  | [] => None
  | x00 :: inp => Some (0, inp)
  | _ :: inp => '(n, inp) ← get_nat inp; Some (S n, inp)
  end.

Definition put_list {A} (put : A → list byte) (xs : list A) : list byte :=
  put_nat (length xs) ++ concat (put <$> xs).

Fixpoint get_items {A} (get : list byte → option (A * list byte)) (k : nat)
    (inp : list byte) : option (list A * list byte) :=
  match k with
  | 0 => Some ([], inp)
  | S k => '(x, inp) ← get inp; '(xs, inp) ← get_items get k inp; Some (x :: xs, inp)
  end.

Definition get_list {A} (get : list byte → option (A * list byte))
    (inp : list byte) : option (list A * list byte) :=
  '(k, inp) ← get_nat inp; get_items get k inp.

Definition put_bool (b : bool) : list byte := [if b then x01 else x00].
Definition get_bool (inp : list byte) : option (bool * list byte) :=
  match inp with
  | [] => None
  | x00 :: inp => Some (false, inp)
  | _ :: inp => Some (true, inp)
  end.

Definition put_iv (v : int_vector) : list byte :=
  put_nat (iv_width v) ++ put_list put_nat (iv_data v).
Definition get_iv (inp : list byte) : option (int_vector * list byte) :=
  '(w, inp) ← get_nat inp; '(d, inp) ← get_list get_nat inp; Some (IntVector w d, inp).

Definition codec_iv : Codec int_vector := Build_Codec _ put_iv get_iv.
Definition codec_bv : Codec bit_vector :=
  Build_Codec _ (put_list put_bool) (get_list get_bool).
Definition codec_wt : Codec (list nat) :=
  Build_Codec _ (put_list put_nat) (get_list get_nat).
Definition codec_rank : Codec rank_support :=
  Build_Codec _ (λ _, []) (λ inp, Some (RankSupport None, inp)).
Definition codec_select : Codec select_support :=
  Build_Codec _ (λ _, []) (λ inp, Some (SelectSupport None, inp)).
End ByteFormat.

(** ** [set_vector], [serialize] and [load] of the ISA classes *)

(** [_text_order_isa_sampling_support::set_vector]: [None] is [nullptr]. *)
Definition text_order_isa_set_vector (sa_sample : option text_order_sampling)
    (D : text_order_isa_sampling_support) : text_order_isa_sampling_support :=
  match sa_sample with
  | None => TextOrderIsaSupport (SelectSupport None) (InvPermSupport None)
  | Some sa_sample =>
      TextOrderIsaSupport
        (select_set_vector (to_marked sa_sample) (tis_select_marked D))
        (inv_perm_set_vector (to_samples sa_sample) (tis_inv_perm D))
  end.

(** [_fuzzy_isa_sampling_support::set_vector]: the companion pointer is
    always replaced, the select support is re-bound only to a companion
    that is not null. *)
Definition fuzzy_isa_set_vector (sa_sample : option fuzzy_sa_sampling)
    (D : fuzzy_isa_sampling_support) : fuzzy_isa_sampling_support :=
  match sa_sample with
  | None => FuzzyIsaSupport None (fis_select_marked_sa D)
  | Some sa =>
      FuzzyIsaSupport (Some sa)
        (select_set_vector (fz_marked_sa sa) (fis_select_marked_sa D))
  end.

Section isa_serialization.
Context `{Codec int_vector, Codec select_support, Codec inv_perm_support}.

(** [_isa_sampling] inherits [serialize] from [int_vector]; its [load]
    ignores the companion. *)
Definition isa_serialize (D : int_vector) : list byte := serialize D.
Definition isa_load (sa_sample : option int_vector) (inp : list byte) :
    option (int_vector * list byte) :=
  load inp.

Definition text_order_isa_serialize (D : text_order_isa_sampling_support) :
    list byte :=
  serialize (tis_inv_perm D) ++ serialize (tis_select_marked D).

Definition text_order_isa_load (sa_sample : option text_order_sampling)
    (inp : list byte) : option (text_order_isa_sampling_support * list byte) :=
  '(m_inv_perm, inp) ← load inp;
  '(m_select_marked, inp) ← load inp;
  Some (text_order_isa_set_vector sa_sample
          (TextOrderIsaSupport m_select_marked m_inv_perm), inp).

Definition fuzzy_isa_serialize (D : fuzzy_isa_sampling_support) : list byte :=
  serialize (fis_select_marked_sa D).

(** [load] is a member function: [this] supplies the companion pointer
    that [set_vector] then replaces. *)
Definition fuzzy_isa_load (this : fuzzy_isa_sampling_support)
    (sa_sample : option fuzzy_sa_sampling) (inp : list byte) :
    option (fuzzy_isa_sampling_support * list byte) :=
  '(m_select_marked_sa, inp) ← load inp;
  Some (fuzzy_isa_set_vector sa_sample
          (FuzzyIsaSupport (fis_sa_p this) m_select_marked_sa), inp).
End isa_serialization.

(** The byte format of [ByteFormat] for the inverse-permutation support,
    which writes no data of its own there either. *)
Definition codec_inv_perm : Codec inv_perm_support :=
  Build_Codec _ (λ _, []) (λ inp, Some (InvPermSupport None, inp)).

(** ** Inputs *)

(** [SA] is a suffix array of a text of length [n]: a permutation of
    [[0, n)]. *)
Definition is_perm (l : list nat) : Prop := l ≡ₚ seq 0 (length l).

(** [ISA] is the inverse of [SA]. *)
Definition is_inverse (SA ISA : list nat) : Prop :=
  length ISA = length SA ∧
  Forall (λ i, ISA !!! (SA !!! i) = i) (seq 0 (length SA)).

Global Instance is_perm_dec l : Decision (is_perm l).
Proof. unfold is_perm. apply _. Defined.

Global Instance is_inverse_dec SA ISA : Decision (is_inverse SA ISA).
Proof. unfold is_inverse. apply _. Defined.

(** [ceil(n / d)], as the constructors compute it. *)
Definition ceil_div (n d : nat) : nat := (n + d - 1) / d.

(** ** The running example of the header comment *)

(** [T = ABCDEFABCDEF$], with its suffix array, inverse suffix array and
    BWT, and [sa_sample_chars = {B, E}] (characters by their ASCII codes). *)
Definition SA_ex : list nat := [12; 6; 0; 7; 1; 8; 2; 9; 3; 10; 4; 11; 5].
Definition ISA_ex : list nat := [2; 4; 6; 8; 10; 12; 1; 3; 5; 7; 9; 11; 0].
Definition BWT_ex : list nat := [70; 70; 36; 65; 65; 66; 66; 67; 67; 68; 68; 69; 69].
Definition sample_char_ex : list nat := [66; 69].

(** ** Vocabulary of the proofs *)

(** The mark vector of a decidable set of indices. *)
Definition marks (P : nat → Prop) `{∀ i, Decision (P i)} (n : nat) : bit_vector :=
  (λ i, bool_decide (P i)) <$> seq 0 n.

(** State of the loop of [_sa_order_sampling] before iteration [i]. *)
Definition sa_order_inv (d : nat) (sa : list nat) (i : nat)
    (st : nat * nat * int_vector) : Prop :=
  let n := length sa in
  st.1.1 = (if decide (i = 0) then d else (i - 1) mod d + 1) ∧
  st.1.2 = ceil_div i d ∧
  iv_width st.2 = hi n + 1 ∧
  length (iv_data st.2) = ceil_div n d ∧
  ∀ k, k < ceil_div i d → iv_data st.2 !! k = Some (sa !!! (k * d)).

(** State of the second loop of [_isa_sampling] before iteration [i]. *)
Definition isa_inv (d : nat) (sa : list nat) (i : nat) (v : int_vector) : Prop :=
  let n := length sa in
  iv_width v = hi n + 1 ∧
  iv_size v = ceil_div n d ∧
  ∀ i', i' < i → sa !!! i' mod d = 0 → iv_data v !! (sa !!! i' / d) = Some i'.

(** The SA indices that text-order sampling keeps, and what it stores
    for them. *)
Definition to_mark (d : nat) (sa : list nat) (i : nat) : Prop := 0 = sa !!! i mod d.
Definition to_sample (d : nat) (sa : list nat) (i : nat) : nat := sa !!! i / d.

Global Instance to_mark_dec d sa i : Decision (to_mark d sa i).
Proof. unfold to_mark. apply _. Defined.

(** State of the loop of [_text_order_sampling] before iteration [i]. *)
Definition text_order_inv (d : nat) (sa : list nat) (i : nat)
    (st : nat * bit_vector * int_vector) : Prop :=
  let n := length sa in
  st.1.2 = marks (to_mark d sa) i ++ replicate (n - i) false ∧
  st.1.1 = length (filter (to_mark d sa) (seq 0 i)) ∧
  iv_width st.2 = hi (n / d) + 1 ∧
  iv_size st.2 = ceil_div n d ∧
  take st.1.1 (iv_data st.2) = to_sample d sa <$> filter (to_mark d sa) (seq 0 i).

(** The SA indices that [_bwt_sampling] marks. *)
Definition bwt_mark {char_type : Type} `{Countable char_type}
    (to_char : nat → char_type) (d : nat) (sa bwt : list nat)
    (sample_char : option (list nat)) (i : nat) : Prop :=
  0 = sa !!! i mod d ∨ to_char (bwt !!! i) ∈ bwt_char_map to_char sample_char.

Global Instance bwt_mark_dec {char_type : Type} `{Countable char_type}
    (to_char : nat → char_type) d sa bwt sample_char i :
  Decision (bwt_mark to_char d sa bwt sample_char i).
Proof. unfold bwt_mark. apply _. Defined.

(** Text position [p] lies in block [b]: [[b * d, min((b + 1) * d, n))]. *)
Definition in_block (d n b p : nat) : Prop := b * d ≤ p < Nat.min ((b + 1) * d) n.

(** The position that the constructor of [_fuzzy_sa_sampling] marks for
    block [b]. *)
Definition fuzzy_chosen (d : nat) (isa : list nat) (b : nat) : nat :=
  (fuzzy_select d isa (b * d) (fuzzy_scan b d isa)).1.

(** No position of block [b] holds an ISA value that is at least the
    [min_prev_val] left by the blocks before it. *)
Definition block_empty (d : nat) (isa : list nat) (b : nat) : Prop :=
  Forall (λ p, isa !!! p < fs_min_prev_val (fuzzy_scan b d isa))
    (seq (b * d) (Nat.min ((b + 1) * d) (length isa) - b * d)).

Global Instance block_empty_dec d isa b : Decision (block_empty d isa b).
Proof. unfold block_empty. apply _. Defined.

(** The positions marked for the first [b] blocks, and the ISA values
    found there. *)
Definition fuzzy_positions (d : nat) (isa : list nat) (b : nat) : list nat :=
  fuzzy_chosen d isa <$> seq 0 b.
Definition fuzzy_values (d : nat) (isa : list nat) (b : nat) : list nat :=
  (λ p, isa !!! p) <$> fuzzy_positions d isa b.

(** The block whose sample [sample_leq(i)] and [sample_qeq(i)] of the fuzzy
    support return, [B] being the number of blocks. *)
Definition fuzzy_leq_block (d : nat) (isa : list nat) (B i : nat) : nat :=
  if decide (i < fuzzy_chosen d isa (i / d)) then
    if decide (0 < i / d) then i / d - 1 else B - 1
  else i / d.

Definition fuzzy_qeq_block (d : nat) (isa : list nat) (B i : nat) : nat :=
  if decide (fuzzy_chosen d isa (i / d) < i) then
    if decide (i / d < B - 1) then i / d + 1 else 0
  else i / d.

(** [r = (v, p)] is an ISA sample at or before [i], at a multiple of [d]. *)
Definition leq_law (d : nat) (sa : list nat) (i : nat) (r : nat * nat) : Prop :=
  r.2 ≤ i ∧ r.2 mod d = 0 ∧ r.1 < length sa ∧ sa !!! r.1 = r.2.

(** [r = (v, p)] is an ISA sample at or after [i], or the first sample when
    no multiple of [d] follows the block of [i] (wrap-around). *)
Definition qeq_law (d : nat) (sa : list nat) (i : nat) (r : nat * nat) : Prop :=
  (i ≤ r.2 ∨ (r.2 = 0 ∧ length sa ≤ (i / d + 1) * d)) ∧
  r.2 mod d = 0 ∧ r.1 < length sa ∧ sa !!! r.1 = r.2.

(** The fuzzy support: the sample of the block of [i] or of the block
    before it, or the sample of the last block when [i] lies in the first
    block before its sample (wrap-around); no multiple of [d] is promised. *)
Definition fuzzy_leq_law (d : nat) (sa : list nat) (X : fuzzy_sa_sampling)
    (i : nat) (r : nat * nat) : Prop :=
  (r.2 ≤ i ∨ (i / d = 0 ∧ r.2 = select1 (fz_marked_isa X) (fuzzy_size X))) ∧
  r.1 < length sa ∧ sa !!! r.1 = r.2.

(** Symmetric: the sample of the block of [i] or of the block after it, or
    the sample of the first block when [i] lies in the last block after its
    sample. *)
Definition fuzzy_qeq_law (d : nat) (sa : list nat) (X : fuzzy_sa_sampling)
    (i : nat) (r : nat * nat) : Prop :=
  (i ≤ r.2 ∨ (i / d = fuzzy_size X - 1 ∧ r.2 = select1 (fz_marked_isa X) 1)) ∧
  r.1 < length sa ∧ sa !!! r.1 = r.2.

(** What the round trip of one structure has to deliver: [load] reads back
    an object that [operator==] accepts and that answers [is_sampled] and
    [operator[]] as the original does. *)
Definition roundtrip_ok {A : Type} (ser : A → list byte)
    (ld : list byte → option (A * list byte)) (eqb : A → A → bool)
    (is_sampled : A → nat → bool) (get : A → nat → nat) (X : A) : Prop :=
  ∃ X', ld (ser X) = Some (X', []) ∧
        eqb X X' = true ∧
        ∀ i, is_sampled X' i = is_sampled X i ∧
             (is_sampled X i = true → get X' i = get X i).

(** * Properties *)

(** ** Arithmetic of strides *)

(** Brings in the division equation of [a] by [d] and the bound on the
    remainder, for [lia]. *)
Ltac div_mod_facts a d :=
  let Hdiv := fresh "Hdiv" in
  let Hmod := fresh "Hmod" in
  pose proof (Nat.div_mod a d ltac:(lia)) as Hdiv;
  pose proof (Nat.mod_upper_bound a d ltac:(lia)) as Hmod.

Lemma ceil_div_spec n d :
  1 ≤ d → ceil_div n d = n / d + (if decide (n mod d = 0) then 0 else 1).
Proof.
  intros Hd. unfold ceil_div.
  div_mod_facts n d.
  case_decide as Hz.
  - symmetry. apply (Nat.div_unique _ _ _ (d - 1)); lia.
  - symmetry. apply (Nat.div_unique _ _ _ (n mod d - 1)); lia.
Qed.

Lemma lt_ceil_div k n d : 1 ≤ d → k < ceil_div n d ↔ k * d < n.
Proof.
  intros Hd. rewrite ceil_div_spec by done.
  div_mod_facts n d.
  case_decide; nia.
Qed.

Lemma ceil_div_S i d :
  1 ≤ d →
  ceil_div (S i) d = if decide (i mod d = 0) then S (ceil_div i d) else ceil_div i d.
Proof.
  intros Hd.
  assert (∀ a b, (∀ k, k < a ↔ k < b) → a = b) as Hext.
  { intros a b Hk. destruct (Hk a), (Hk b). lia. }
  div_mod_facts i d.
  apply Hext. intros k. rewrite lt_ceil_div by done.
  assert (k ≤ i / d → k * d ≤ i / d * d) as Hle
    by (intros; by apply Nat.mul_le_mono_r).
  assert (i / d < k → (i / d + 1) * d ≤ k * d) as Hgt
    by (intros; apply Nat.mul_le_mono_r; lia).
  case_decide as Hz.
  - assert (k < S (ceil_div i d) ↔ k ≤ ceil_div i d) as -> by lia.
    rewrite ceil_div_spec, decide_True by done. lia.
  - rewrite ceil_div_spec, decide_False by done. lia.
Qed.

Lemma ceil_div_0 d : 1 ≤ d → ceil_div 0 d = 0.
Proof. intros. unfold ceil_div. apply Nat.div_small. lia. Qed.

Lemma ceil_div_pred n d : 1 ≤ d → 1 ≤ n → (n - 1) / d + 1 = ceil_div n d.
Proof.
  intros Hd Hn. unfold ceil_div.
  replace (n + d - 1) with (n - 1 + 1 * d) by lia.
  rewrite Nat.div_add by lia. done.
Qed.

Lemma div_mul_le i d : i / d * d ≤ i.
Proof.
  destruct d; [lia|]. pose proof (Nat.div_mod i (S d) ltac:(lia)). lia.
Qed.

Lemma mod_0_div_mul x d : x mod d = 0 → x / d * d = x.
Proof.
  destruct d; [simpl; lia|]. intros Hm.
  pose proof (Nat.div_mod x (S d) ltac:(lia)). lia.
Qed.

Lemma hi_fits x n : x ≤ n → x mod 2 ^ (hi n + 1) = x.
Proof.
  intros Hx. apply Nat.mod_small. unfold hi.
  destruct (decide (n = 0)) as [->|Hn].
  - simpl. lia.
  - pose proof (Nat.log2_spec n ltac:(lia)) as [_ Hlt].
    rewrite Nat.add_1_r. lia.
Qed.

(** ** Loops *)

Lemma for_loop_S {St} lo cnt (body : nat → St → St) s :
  for_loop lo (S cnt) body s = body (lo + cnt) (for_loop lo cnt body s).
Proof. unfold for_loop. by rewrite seq_S, foldl_snoc. Qed.

Lemma for_loop_ind {St} (P : nat → St → Prop) lo cnt (body : nat → St → St) s :
  P lo s →
  (∀ i s, lo ≤ i < lo + cnt → P i s → P (S i) (body i s)) →
  P (lo + cnt) (for_loop lo cnt body s).
Proof.
  intros H0 Hstep. induction cnt as [|cnt IH].
  - by rewrite Nat.add_0_r.
  - rewrite for_loop_S, Nat.add_succ_r. apply Hstep; [lia|].
    apply IH. intros i s' ? ?. apply Hstep; [lia|done].
Qed.

Lemma mod_pred i d :
  1 ≤ d → 0 < i →
  (i - 1) mod d = if decide (i mod d = 0) then d - 1 else i mod d - 1.
Proof.
  intros Hd Hi.
  div_mod_facts i d.
  case_decide as Hz; symmetry.
  - apply (Nat.mod_unique _ _ (i / d - 1)); [lia|].
    destruct (i / d) as [|q] eqn:Hq; [lia|].
    replace (S q - 1) with q by lia. lia.
  - apply (Nat.mod_unique _ _ (i / d)); lia.
Qed.

(** ** Integer vectors *)

Lemma iv_data_set k x v :
  iv_data (iv_set k x v) = <[k := x mod 2 ^ iv_width v]> (iv_data v).
Proof. done. Qed.

Lemma iv_width_set k x v : iv_width (iv_set k x v) = iv_width v.
Proof. done. Qed.

Lemma iv_size_set k x v : iv_size (iv_set k x v) = iv_size v.
Proof. unfold iv_size. by rewrite iv_data_set, length_insert. Qed.

Lemma lookup_total_bound (l : list nat) m i :
  Forall (λ x, x < m) l → i < length l → l !!! i < m.
Proof.
  intros Hl Hi.
  apply (Forall_lookup_1 (λ x, x < m) l i (l !!! i) Hl).
  by apply list_lookup_lookup_total_lt.
Qed.

(** ** [_sa_order_sampling]: the constructor *)

Lemma sa_order_loop d sa :
  1 ≤ d → Forall (λ x, x < length sa) sa →
  sa_order_inv d sa (length sa)
    (for_loop 0 (length sa) (sa_order_body d sa)
       (d, 0, iv_resize (ceil_div (length sa) d)
                (iv_set_width (hi (length sa) + 1) iv_empty))).
Proof.
  intros Hd Hsa.
  apply (for_loop_ind (sa_order_inv d sa) 0).
  - unfold sa_order_inv. rewrite ceil_div_0 by done. simpl.
    rewrite length_resize. split_and!; try done. lia.
  - intros i [[cnt_mod cnt_sum] v] [_ Hi] (Hmod & Hsum & Hw & Hlen & Hv).
    simpl in *. subst cnt_mod cnt_sum.
    assert (sa !!! i < length sa) as Hx.
    { by apply lookup_total_bound. }
    assert ((if decide (i = 0) then d else (i - 1) mod d + 1) = d ↔ i mod d = 0)
      as Htest.
    { case_decide as H0; [subst; rewrite Nat.Div0.mod_0_l; lia|].
      rewrite mod_pred by lia.
      pose proof (Nat.mod_upper_bound i d ltac:(lia)). case_decide; lia. }
    unfold sa_order_body, sa_order_inv.
    rewrite ceil_div_S by done. simpl.
    destruct (decide (d = _)) as [Heq|Hne]; simpl.
    + symmetry in Heq. apply Htest in Heq as Hz.
      rewrite (decide_True _ _ Hz), Nat.sub_0_r, Hz, ?iv_data_set, length_insert.
      repeat split; try done.
      intros k Hk. destruct (decide (k = ceil_div i d)) as [->|Hne].
      * rewrite list_lookup_insert_eq.
        2:{ rewrite Hlen. apply lt_ceil_div; [done|].
            rewrite ceil_div_spec, decide_True by done.
            rewrite Nat.add_0_r, mod_0_div_mul by done. lia. }
        rewrite Hw, hi_fits by lia. f_equal. f_equal.
        rewrite ceil_div_spec, decide_True by done.
        by rewrite Nat.add_0_r, mod_0_div_mul.
      * rewrite list_lookup_insert_ne by done. apply Hv. lia.
    + assert (i mod d ≠ 0) as Hz by (intros Hz; apply Htest in Hz; lia).
      rewrite (decide_False _ _ Hz), Nat.sub_0_r.
      repeat split; try done.
      case_decide as H0; [subst; by rewrite Nat.Div0.mod_0_l in Hz|].
      rewrite mod_pred, decide_False by (done || lia). lia.
Qed.

Lemma sa_order_samples d sa k :
  1 ≤ d → Forall (λ x, x < length sa) sa → k * d < length sa →
  iv_get (sa_order_sampling_build d sa) k = sa !!! (k * d).
Proof.
  intros Hd Hsa Hk. destruct (sa_order_loop d sa) as (_ & _ & _ & _ & Hv); [done..|].
  unfold iv_get, sa_order_sampling_build. fold (ceil_div (length sa) d).
  apply list_lookup_total_correct, Hv. by apply lt_ceil_div.
Qed.

Lemma sa_order_size d sa :
  1 ≤ d → Forall (λ x, x < length sa) sa →
  iv_size (sa_order_sampling_build d sa) = ceil_div (length sa) d.
Proof.
  intros Hd Hsa. by destruct (sa_order_loop d sa) as (_ & _ & _ & Hlen & _).
Qed.

(** ** Permutations of [[0, n)] *)

Lemma is_perm_NoDup sa : is_perm sa → NoDup sa.
Proof. unfold is_perm. intros ->. apply NoDup_seq. Qed.

Lemma is_perm_bound sa : is_perm sa → Forall (λ x, x < length sa) sa.
Proof.
  unfold is_perm. intros Hp. apply Forall_forall. intros x Hx.
  rewrite Hp in Hx. apply elem_of_seq in Hx. lia.
Qed.

Lemma is_perm_lookup_lt sa i : is_perm sa → i < length sa → sa !!! i < length sa.
Proof. intros Hp Hi. by apply lookup_total_bound; [apply is_perm_bound|]. Qed.

Lemma is_perm_index sa x :
  is_perm sa → x < length sa → ∃ i, i < length sa ∧ sa !!! i = x.
Proof.
  intros Hp Hx. assert (x ∈ sa) as Hin.
  { unfold is_perm in Hp. rewrite Hp. apply elem_of_seq. lia. }
  apply list_elem_of_lookup in Hin as [i Hi]. exists i. split.
  - by eapply lookup_lt_Some.
  - by apply list_lookup_total_correct.
Qed.

Lemma is_perm_inj sa i j :
  is_perm sa → i < length sa → j < length sa → sa !!! i = sa !!! j → i = j.
Proof.
  intros Hp Hi Hj Heq. eapply NoDup_lookup; [by apply is_perm_NoDup|..].
  - by apply list_lookup_lookup_total_lt.
  - rewrite Heq. by apply list_lookup_lookup_total_lt.
Qed.

(** ** [_isa_sampling]: the constructor *)

Lemma isa_zero_loop v :
  iv_width (for_loop 0 (iv_size v) isa_zero_body v) = iv_width v ∧
  iv_size (for_loop 0 (iv_size v) isa_zero_body v) = iv_size v.
Proof.
  apply (for_loop_ind (λ _ v', iv_width v' = iv_width v ∧ iv_size v' = iv_size v) 0);
    [done|].
  intros i v' _ [Hw Hs]. unfold isa_zero_body. by rewrite iv_width_set, iv_size_set.
Qed.

Lemma isa_loop d sa :
  1 ≤ d → is_perm sa → 1 ≤ length sa →
  isa_inv d sa (length sa) (isa_sampling_build d sa).
Proof.
  intros Hd Hp Hn. unfold isa_sampling_build.
  set (v0 := if decide (1 ≤ length sa) then _ else _).
  destruct (isa_zero_loop v0) as [Hw0 Hs0].
  set (v1 := for_loop 0 (iv_size v0) isa_zero_body v0) in *.
  apply (for_loop_ind (isa_inv d sa) 0).
  - unfold isa_inv. rewrite Hw0, Hs0. subst v0.
    rewrite decide_True by lia. unfold iv_size, iv_resize. simpl.
    rewrite length_resize, ceil_div_pred by lia. split_and!; [done..|lia].
  - intros i v [_ Hi] (Hw & Hs & Hv). unfold isa_body, isa_inv.
    pose proof (is_perm_lookup_lt sa i Hp Hi) as Hx.
    case_decide as Hz.
    + rewrite iv_width_set, iv_size_set, iv_data_set. split_and!; [done..|].
      intros i' Hi' Hz'. destruct (decide (i' = i)) as [->|Hne].
      * rewrite list_lookup_insert_eq.
        2:{ fold (iv_size v). rewrite Hs. apply lt_ceil_div; [done|].
            rewrite mod_0_div_mul by done. lia. }
        rewrite Hw, hi_fits by lia. done.
      * rewrite list_lookup_insert_ne; [apply Hv; [lia|done]|].
        intros Heq. apply Hne. symmetry.
        apply (is_perm_inj sa); [done|lia..|].
        rewrite <-(mod_0_div_mul _ d Hz), <-(mod_0_div_mul _ d Hz'). by rewrite Heq.
    + split_and!; [done..|]. intros i' Hi' Hz'.
      destruct (decide (i' = i)) as [->|Hne]; [done|]. apply Hv; [lia|done].
Qed.

Lemma isa_samples d sa k :
  1 ≤ d → is_perm sa → k * d < length sa →
  iv_get (isa_sampling_build d sa) k < length sa ∧
  sa !!! iv_get (isa_sampling_build d sa) k = k * d.
Proof.
  intros Hd Hp Hk. destruct (isa_loop d sa) as (_ & _ & Hv); [done|done|lia|].
  destruct (is_perm_index sa (k * d)) as (i & Hi & Hsa); [done..|].
  specialize (Hv i Hi). rewrite Hsa, Nat.Div0.mod_mul, Nat.div_mul in Hv by lia.
  unfold iv_get. rewrite (list_lookup_total_correct _ _ _ (Hv eq_refl)). done.
Qed.

Lemma isa_size d sa :
  1 ≤ d → is_perm sa → 1 ≤ length sa →
  iv_size (isa_sampling_build d sa) = ceil_div (length sa) d.
Proof. intros Hd Hp Hn. by destruct (isa_loop d sa) as (_ & Hs & _). Qed.

(** ** Bit vectors: rank and select *)

Section rank_select.
Implicit Types (bv : bit_vector) (b : bool).

Lemma popcount_nil : popcount [] = 0.
Proof. done. Qed.

Lemma popcount_cons b bv : popcount (b :: bv) = (if b then 1 else 0) + popcount bv.
Proof.
unfold popcount. destruct b.
- by rewrite filter_cons_True.
- by rewrite filter_cons_False.
Qed.

Lemma popcount_app bv1 bv2 : popcount (bv1 ++ bv2) = popcount bv1 + popcount bv2.
Proof. unfold popcount. by rewrite filter_app, length_app. Qed.

Lemma popcount_replicate_false n : popcount (replicate n false) = 0.
Proof. induction n as [|n IH]; [done|]. simpl. by rewrite popcount_cons. Qed.

Lemma rank1_0 bv : rank1 bv 0 = 0.
Proof. unfold rank1. by rewrite take_0. Qed.

Lemma rank1_cons b bv i :
rank1 (b :: bv) (S i) = (if b then 1 else 0) + rank1 bv i.
Proof. unfold rank1. simpl. by rewrite popcount_cons. Qed.

Lemma rank1_S bv i b :
bv !! i = Some b → rank1 bv (S i) = rank1 bv i + (if b then 1 else 0).
Proof.
intros Hb. unfold rank1. rewrite (take_S_r _ _ _ Hb), popcount_app.
by rewrite popcount_cons, popcount_nil, Nat.add_0_r.
Qed.

Lemma rank1_le_popcount bv i : rank1 bv i ≤ popcount bv.
Proof.
unfold rank1. rewrite <-(take_drop i bv) at 2. rewrite popcount_app. lia.
Qed.

Lemma rank1_all bv i : length bv ≤ i → rank1 bv i = popcount bv.
Proof. intros Hi. unfold rank1. by rewrite take_ge. Qed.

Lemma rank1_mono bv i j : i ≤ j → rank1 bv i ≤ rank1 bv j.
Proof.
intros Hij. unfold rank1.
replace (take i bv) with (take i (take j bv)) by (rewrite take_take; f_equal; lia).
apply rank1_le_popcount.
Qed.

Lemma rank1_lt_marked bv i j :
bv !! i = Some true → i < j → rank1 bv i < rank1 bv j.
Proof.
intros Hb Hij. pose proof (rank1_S _ _ _ Hb) as HS. simpl in HS.
pose proof (rank1_mono bv (S i) j ltac:(lia)). lia.
Qed.

Lemma rank1_lt_popcount bv i : bv !! i = Some true → rank1 bv i < popcount bv.
Proof.
intros Hb. pose proof (rank1_S _ _ _ Hb) as HS. simpl in HS.
pose proof (rank1_le_popcount bv (S i)). lia.
Qed.

Lemma rank1_inj_marked bv i j :
bv !! i = Some true → bv !! j = Some true → rank1 bv i = rank1 bv j → i = j.
Proof.
intros Hi Hj Heq. destruct (Nat.lt_trichotomy i j) as [Hlt|[?|Hlt]]; [|done|].
- pose proof (rank1_lt_marked _ _ _ Hi Hlt). lia.
- pose proof (rank1_lt_marked _ _ _ Hj Hlt). lia.
Qed.

(** [select1] undoes [rank1] at a marked position. *)
Lemma select1_rank1 bv i :
bv !! i = Some true → select1 bv (rank1 bv i + 1) = i.
Proof.
revert i. induction bv as [|b bv IH]; intros i Hb; [done|].
destruct i as [|i]; simpl in Hb.
- injection Hb as ->. by rewrite rank1_0.
- rewrite rank1_cons. destruct b; simpl.
  + rewrite Nat.add_1_r at 1. simpl. by rewrite IH.
  + by rewrite IH.
Qed.

(** The [k+1]-th one exists when there are more than [k] ones. *)
Lemma rank1_select1 bv k :
k < popcount bv →
bv !! select1 bv (k + 1) = Some true ∧ rank1 bv (select1 bv (k + 1)) = k.
Proof.
revert k. induction bv as [|b bv IH]; intros k Hk.
{ rewrite popcount_nil in Hk. lia. }
rewrite popcount_cons in Hk. destruct b; simpl.
- destruct k as [|k]; simpl; [by rewrite rank1_0|].
  rewrite Nat.add_1_r. rewrite <-(Nat.add_1_r k).
  destruct (IH k) as [H1 H2]; [lia|]. rewrite rank1_cons, H2.
  split; [done|simpl; lia].
- destruct (IH k) as [H1 H2]; [lia|]. rewrite rank1_cons, H2. done.
Qed.

(** The first occurrence of a value, as [wt_int::select(1, c)] and
  [inv_perm_support] find it. *)
Lemma select1_first (l : list nat) c j :
l !! j = Some c → (∀ i, i < j → l !! i ≠ Some c) →
select1 ((λ x, bool_decide (x = c)) <$> l) 1 = j.
Proof.
revert j. induction l as [|x l IH]; intros j Hj Hfirst; [done|].
destruct j as [|j]; simpl in *.
- injection Hj as ->. by rewrite bool_decide_eq_true_2.
- rewrite bool_decide_eq_false_2.
  + f_equal. apply IH; [done|]. intros i Hi. apply (Hfirst (S i)). lia.
  + intros ->. by apply (Hfirst 0); [lia|].
Qed.

Lemma select1_first_NoDup (l : list nat) c j :
NoDup l → l !! j = Some c → select1 ((λ x, bool_decide (x = c)) <$> l) 1 = j.
Proof.
intros Hnd Hj. apply select1_first; [done|]. intros i Hi Hc.
pose proof (NoDup_lookup _ _ _ _ Hnd Hc Hj). lia.
Qed.

End rank_select.

(** ** Mark vectors as characteristic functions *)

Section marks.
Context (P : nat → Prop) `{∀ i, Decision (P i)}.

Lemma length_marks n : length (marks P n) = n.
Proof. unfold marks. by rewrite length_fmap, length_seq. Qed.

Lemma lookup_marks n i : i < n → marks P n !! i = Some (bool_decide (P i)).
Proof. intros Hi. unfold marks. by rewrite list_lookup_fmap, lookup_seq_lt. Qed.

Lemma lookup_total_marks n i : i < n → marks P n !!! i = bool_decide (P i).
Proof. intros Hi. by apply list_lookup_total_correct, lookup_marks. Qed.

Lemma marks_S n : marks P (S n) = marks P n ++ [bool_decide (P n)].
Proof. unfold marks. by rewrite seq_S, fmap_app. Qed.

Lemma take_marks n i : i ≤ n → take i (marks P n) = marks P i.
Proof.
  intros Hi. unfold marks. rewrite <-fmap_take, take_seq. do 2 f_equal. lia.
Qed.

Lemma popcount_marks n : popcount (marks P n) = length (filter P (seq 0 n)).
Proof.
  induction n as [|n IH]; [done|].
  rewrite marks_S, popcount_app, IH, seq_S, filter_app, length_app. f_equal.
  rewrite popcount_cons, popcount_nil. simpl.
  case_bool_decide.
  - by rewrite filter_cons_True.
  - by rewrite filter_cons_False.
Qed.

Lemma rank1_marks n i :
  i ≤ n → rank1 (marks P n) i = length (filter P (seq 0 i)).
Proof. intros Hi. unfold rank1. by rewrite take_marks, popcount_marks. Qed.

Lemma rank1_marks_S n i :
  i < n →
  rank1 (marks P n) (S i) = rank1 (marks P n) i + (if decide (P i) then 1 else 0).
Proof.
  intros Hi. rewrite (rank1_S _ _ _ (lookup_marks n i Hi)).
  by destruct (decide (P i)); [rewrite bool_decide_eq_true_2|rewrite bool_decide_eq_false_2].
Qed.

(** A left-to-right marking pass has produced [marks P i] so far. *)
Lemma marks_pass_set n i :
  i < n → P i →
  <[i := true]> (marks P i ++ replicate (n - i) false)
  = marks P (S i) ++ replicate (n - S i) false.
Proof.
  intros Hi HP. rewrite marks_S, bool_decide_eq_true_2 by done.
  replace (n - i) with (S (n - S i)) by lia. simpl.
  rewrite insert_app_r_alt by (rewrite length_marks; lia).
  rewrite length_marks, Nat.sub_diag. simpl. by rewrite <-(assoc_L (++)).
Qed.

Lemma marks_pass_skip n i :
  i < n → ¬ P i →
  marks P i ++ replicate (n - i) false = marks P (S i) ++ replicate (n - S i) false.
Proof.
  intros Hi HP. rewrite marks_S, bool_decide_eq_false_2 by done.
  replace (n - i) with (S (n - S i)) by lia. simpl. by rewrite <-(assoc_L (++)).
Qed.

Lemma marks_pass_end n : marks P n ++ replicate (n - n) false = marks P n.
Proof. by rewrite Nat.sub_diag, app_nil_r. Qed.
End marks.

Lemma marks_ext P Q `{∀ i, Decision (P i), ∀ i, Decision (Q i)} n :
  (∀ i, i < n → P i ↔ Q i) → marks P n = marks Q n.
Proof.
  intros HPQ. unfold marks. apply list_eq. intros i. rewrite !list_lookup_fmap.
  destruct (seq 0 n !! i) as [j|] eqn:Hj; [|done]. simpl.
  apply lookup_seq in Hj as [-> Hi]. f_equal. apply bool_decide_ext, HPQ. lia.
Qed.

(** Number of multiples of [d] among the values of a permutation. *)
Lemma count_multiples_seq d n :
  1 ≤ d → length (filter (λ x, 0 = x mod d) (seq 0 n)) = ceil_div n d.
Proof.
  intros Hd. induction n as [|n IH]; [by rewrite ceil_div_0|].
  rewrite seq_S, filter_app, length_app, IH, ceil_div_S by done. simpl.
  case_decide as Hz.
  - rewrite filter_cons_True by done. simpl. lia.
  - rewrite filter_cons_False by (intros ?; apply Hz; done). simpl. lia.
Qed.

Lemma count_multiples_perm d sa :
  1 ≤ d → is_perm sa →
  length (filter (λ x, 0 = x mod d) sa) = ceil_div (length sa) d.
Proof.
  intros Hd Hp. unfold is_perm in Hp. rewrite Hp at 1. by apply count_multiples_seq.
Qed.

(** ** Filling a sample vector in index order *)

Lemma list_as_lookups (l : list nat) : l = (λ i, l !!! i) <$> seq 0 (length l).
Proof.
  apply list_eq. intros i. rewrite list_lookup_fmap.
  destruct (decide (i < length l)) as [Hi|Hi].
  - rewrite lookup_seq_lt by done. simpl. by apply list_lookup_lookup_total_lt.
  - rewrite lookup_seq_ge, lookup_ge_None_2 by lia. done.
Qed.

Lemma length_filter_fmap {A B} (f : A → B) (Q : B → Prop) `{∀ y, Decision (Q y)}
    (l : list A) :
  length (filter Q (f <$> l)) = length (filter (λ x, Q (f x)) l).
Proof.
  induction l as [|x l IH]; [done|]. rewrite fmap_cons.
  destruct (decide (Q (f x))) as [HQ|HQ].
  - rewrite !filter_cons_True by done. simpl. by rewrite IH.
  - by rewrite !filter_cons_False.
Qed.

Section fill.
Context (P : nat → Prop) `{∀ i, Decision (P i)} (f : nat → nat).

Lemma count_lt n i :
  i < n → P i → length (filter P (seq 0 i)) < length (filter P (seq 0 n)).
Proof.
  intros Hi HP. rewrite <-(rank1_marks P n i), <-popcount_marks by lia.
  apply rank1_lt_popcount. by rewrite lookup_marks, bool_decide_eq_true_2.
Qed.

Lemma count_S_true i :
  P i → length (filter P (seq 0 (S i))) = S (length (filter P (seq 0 i))).
Proof.
  intros HP. rewrite seq_S, filter_app, length_app. simpl.
  rewrite filter_cons_True by done. simpl. lia.
Qed.

Lemma count_S_false i :
  ¬ P i → length (filter P (seq 0 (S i))) = length (filter P (seq 0 i)).
Proof.
  intros HP. rewrite seq_S, filter_app, length_app. simpl.
  rewrite filter_cons_False by done. simpl. lia.
Qed.

Lemma fill_set (data : list nat) i x :
  length (filter P (seq 0 i)) < length data → P i → x = f i →
  take (length (filter P (seq 0 i))) data = f <$> filter P (seq 0 i) →
  take (S (length (filter P (seq 0 i))))
    (<[length (filter P (seq 0 i)) := x]> data)
  = f <$> filter P (seq 0 (S i)).
Proof.
  intros Hlt HP -> Hpre.
  rewrite seq_S, filter_app, fmap_app. simpl.
  rewrite filter_cons_True by done. simpl.
  erewrite take_S_r by (by apply list_lookup_insert_eq).
  by rewrite take_insert_ge, Hpre by lia.
Qed.

Lemma fill_skip (data : list nat) i :
  ¬ P i →
  take (length (filter P (seq 0 i))) data = f <$> filter P (seq 0 i) →
  take (length (filter P (seq 0 i))) data = f <$> filter P (seq 0 (S i)).
Proof.
  intros HP Hpre. rewrite seq_S, filter_app. simpl.
  by rewrite filter_cons_False, app_nil_r by done.
Qed.

Lemma lookup_filled n i :
  i < n → P i →
  (f <$> filter P (seq 0 n)) !! length (filter P (seq 0 i)) = Some (f i).
Proof.
  intros Hi HP. replace n with (i + S (n - S i)) by lia.
  rewrite seq_app, filter_app, fmap_app. simpl.
  rewrite filter_cons_True by done. rewrite fmap_cons.
  apply list_lookup_middle. by rewrite length_fmap.
Qed.
End fill.

(** ** [_text_order_sampling]: the constructor *)

Section text_order.
Variables (d : nat) (sa : list nat).
Hypothesis Hd : 1 ≤ d.
Hypothesis Hp : is_perm sa.

Local Abbreviation n := (length sa).
Local Abbreviation P := (to_mark d sa).
Local Abbreviation f := (to_sample d sa).

Lemma text_order_count : length (filter P (seq 0 n)) = ceil_div n d.
Proof using Hd Hp.
  transitivity (length (filter (λ x, 0 = x mod d) ((λ i, sa !!! i) <$> seq 0 n))).
  - by rewrite length_filter_fmap.
  - rewrite <-list_as_lookups. by apply count_multiples_perm.
Qed.

Lemma text_order_loop :
  text_order_inv d sa n
    (for_loop 0 n (text_order_body d sa)
       (0, replicate n false,
        iv_resize (ceil_div n d) (iv_set_width (hi (n / d) + 1) iv_empty))).
Proof using Hd Hp.
  apply (for_loop_ind (text_order_inv d sa) 0).
  - unfold text_order_inv, iv_size, iv_resize. simpl.
    rewrite length_resize, Nat.sub_0_r. done.
  - intros i [[sa_cnt marked] v] [_ Hi] (Hm & Hc & Hw & Hs & Hv).
    simpl in Hm, Hc, Hw, Hs, Hv. subst sa_cnt marked.
    unfold text_order_body, text_order_inv.
    case_decide as Hz; cbn [fst snd].
    + rewrite iv_width_set, iv_size_set, iv_data_set.
      split_and!; [by apply marks_pass_set|by rewrite count_S_true|done..|].
      assert (length (filter P (seq 0 i)) < ceil_div n d) as Hlt.
      { rewrite <-text_order_count. by apply count_lt. }
      apply fill_set; [by rewrite <-Hs in Hlt|done| |done].
      rewrite Hw. apply hi_fits, Nat.Div0.div_le_mono.
      pose proof (is_perm_lookup_lt sa i Hp Hi). lia.
    + split_and!; [by apply marks_pass_skip|by rewrite count_S_false|done..|].
      by apply fill_skip.
Qed.

Lemma text_order_build_spec :
  to_marked (text_order_sampling_build d sa) = marks P n ∧
  to_rank_marked (text_order_sampling_build d sa) = rank_init (marks P n) ∧
  iv_data (to_samples (text_order_sampling_build d sa)) = f <$> filter P (seq 0 n).
Proof using Hd Hp.
  pose proof text_order_loop as Hloop.
  unfold text_order_sampling_build. fold (ceil_div n d).
  destruct (for_loop _ _ _ _) as [[sa_cnt marked] v].
  destruct Hloop as (Hm & Hc & Hw & Hs & Hv). simpl in *.
  rewrite marks_pass_end in Hm. subst marked. split_and!; [done..|].
  rewrite <-Hv, Hc, text_order_count, <-Hs. unfold iv_size. by rewrite firstn_all.
Qed.
End text_order.

Section text_order_queries.
Variables (d : nat) (sa : list nat).
Hypothesis Hd : 1 ≤ d.
Hypothesis Hp : is_perm sa.

Local Abbreviation n := (length sa).
Local Abbreviation X := (text_order_sampling_build d sa).

Lemma text_order_marked_lookup i :
  i < n → to_marked X !! i = Some (bool_decide (0 = sa !!! i mod d)).
Proof using Hd Hp.
  intros Hi. destruct (text_order_build_spec d sa Hd Hp) as (-> & _).
  by rewrite lookup_marks.
Qed.

Lemma text_order_sample_at i :
  i < n → 0 = sa !!! i mod d →
  iv_data (to_samples X) !! rank1 (to_marked X) i = Some (sa !!! i / d).
Proof using Hd Hp.
  intros Hi Hz. destruct (text_order_build_spec d sa Hd Hp) as (-> & _ & ->).
  rewrite rank1_marks by lia.
  by apply (lookup_filled (to_mark d sa) (to_sample d sa)).
Qed.

Lemma text_order_samples_NoDup : NoDup (iv_data (to_samples X)).
Proof using Hd Hp.
  destruct (text_order_build_spec d sa Hd Hp) as (_ & _ & ->).
  apply NoDup_fmap_2_strong; [|apply NoDup_filter, NoDup_seq].
  intros i j [Hi Hin]%list_elem_of_filter [Hj Hjn]%list_elem_of_filter Heq.
  apply elem_of_seq in Hin, Hjn. unfold to_mark, to_sample in *.
  apply (is_perm_inj sa); [done|lia..|].
  rewrite <-(mod_0_div_mul (sa !!! i) d), <-(mod_0_div_mul (sa !!! j) d) by done.
  by rewrite Heq.
Qed.

Lemma text_order_samples_size : iv_size (to_samples X) = ceil_div n d.
Proof using Hd Hp.
  unfold iv_size. destruct (text_order_build_spec d sa Hd Hp) as (_ & _ & ->).
  by rewrite length_fmap, text_order_count.
Qed.

(** The ISA sample of the [ci]-th text block, as all three queries of
    [_text_order_isa_sampling_support] compute it. *)
Lemma text_order_isa_at ci :
  ci * d < n →
  let v := select_query (tis_select_marked (text_order_isa_build X))
             (inv_perm_get (tis_inv_perm (text_order_isa_build X)) ci + 1) in
  v < n ∧ sa !!! v = ci * d.
Proof using Hd Hp.
  intros Hci. destruct (is_perm_index sa (ci * d) Hp Hci) as (j & Hj & Hsa).
  assert (0 = sa !!! j mod d) as Hz by (by rewrite Hsa, Nat.Div0.mod_mul).
  pose proof (text_order_sample_at j Hj Hz) as Hs.
  rewrite Hsa, Nat.div_mul in Hs by lia.
  unfold select_query, inv_perm_get, text_order_isa_build. simpl.
  rewrite (select1_first_NoDup _ _ _ text_order_samples_NoDup Hs).
  rewrite select1_rank1; [done|].
  by rewrite text_order_marked_lookup, bool_decide_eq_true_2.
Qed.
End text_order_queries.

(** ** [_bwt_sampling]: the constructor *)

Section bwt.
Context {char_type : Type} `{Countable char_type}.
Variable to_char : nat → char_type.
Variables (d : nat) (sa bwt : list nat) (sample_char : option (list nat)).

Local Abbreviation n := (length sa).
Local Abbreviation chars := (bwt_char_map to_char sample_char).
Local Abbreviation bwt_mark := (bwt_mark to_char d sa bwt sample_char).

Lemma bwt_mark_loop :
  for_loop 0 n (bwt_mark_body to_char d sa bwt chars) (0, replicate n false)
  = (length (filter bwt_mark (seq 0 n)), marks bwt_mark n).
Proof.
  rewrite <-(marks_pass_end bwt_mark n).
  apply (for_loop_ind (λ i st,
    st = (length (filter bwt_mark (seq 0 i)),
          marks bwt_mark i ++ replicate (n - i) false)) 0).
  - by rewrite Nat.sub_0_r.
  - intros i st [_ Hi] ->. unfold bwt_mark_body.
    destruct (decide (bwt_mark i)) as [HP|HP].
    + rewrite count_S_true, <-marks_pass_set by done.
      destruct HP as [Hz|Hc].
      * by rewrite decide_True.
      * case_decide; [done|]. by rewrite decide_True.
    + rewrite count_S_false, <-marks_pass_skip by done.
      rewrite !decide_False; [done|..].
      all: intros ?; apply HP; unfold bwt_mark; auto.
Qed.

Hypothesis Hsa : Forall (λ x, x < n) sa.

Lemma bwt_fill_loop :
  let cnt := length (filter bwt_mark (seq 0 n)) in
  let st := for_loop 0 n (bwt_fill_body sa (marks bwt_mark n))
              (0, iv_resize cnt (iv_set_width (hi n + 1) iv_empty)) in
  iv_width st.2 = hi n + 1 ∧
  iv_data st.2 = (λ i, sa !!! i) <$> filter bwt_mark (seq 0 n).
Proof using Hsa.
  intros cnt st.
  assert (st.1 = length (filter bwt_mark (seq 0 n)) ∧
          iv_width st.2 = hi n + 1 ∧ iv_size st.2 = cnt ∧
          take st.1 (iv_data st.2) = (λ i, sa !!! i) <$> filter bwt_mark (seq 0 n))
    as (Hc & Hw & Hs & Hv).
  { subst st.
    apply (for_loop_ind (λ i st,
      st.1 = length (filter bwt_mark (seq 0 i)) ∧
      iv_width st.2 = hi n + 1 ∧ iv_size st.2 = cnt ∧
      take st.1 (iv_data st.2) = (λ i, sa !!! i) <$> filter bwt_mark (seq 0 i)) 0).
    - unfold iv_size, iv_resize. simpl. by rewrite length_resize.
    - intros i [sa_cnt v] [_ Hi] (Hc & Hw & Hs & Hv). simpl in Hc, Hw, Hs, Hv.
      subst sa_cnt. unfold bwt_fill_body.
      rewrite lookup_total_marks by done.
      destruct (decide (bwt_mark i)) as [HP|HP].
      + rewrite bool_decide_eq_true_2 by done. cbn [fst snd].
        rewrite iv_width_set, iv_size_set, iv_data_set, count_S_true by done.
        split_and!; [done..|].
        apply (fill_set bwt_mark (λ i, sa !!! i)); [|done| |done].
        * fold (iv_size v). rewrite Hs. by apply count_lt.
        * rewrite Hw. apply hi_fits.
          pose proof (lookup_total_bound sa n i Hsa Hi). lia.
      + rewrite bool_decide_eq_false_2 by done. cbn [fst snd].
        rewrite count_S_false by done. split_and!; [done..|].
        by apply (fill_skip bwt_mark (λ i, sa !!! i)). }
  split; [done|].
  rewrite <-Hv, Hc. fold cnt. rewrite <-Hs. unfold iv_size. by rewrite firstn_all.
Qed.

Lemma bwt_build_spec :
  let X := bwt_sampling_build to_char d sa bwt sample_char in
  bw_marked X = marks bwt_mark n ∧
  bw_rank_marked X = rank_init (marks bwt_mark n) ∧
  iv_data (bw_samples X) = (λ i, sa !!! i) <$> filter bwt_mark (seq 0 n).
Proof using Hsa.
  unfold bwt_sampling_build. rewrite bwt_mark_loop.
  pose proof bwt_fill_loop as [_ Hv]. simpl in Hv.
  destruct (for_loop 0 n (bwt_fill_body _ _) _) as [c v]. done.
Qed.
End bwt.

Lemma elem_of_bwt_char_map {char_type : Type} `{Countable char_type}
    (to_char : nat → char_type) (sc : list nat) (c : char_type) :
  c ∈ bwt_char_map to_char (Some sc) ↔ ∃ x, x ∈ sc ∧ c = to_char x.
Proof.
  unfold bwt_char_map.
  assert (∀ k, k ≤ length sc →
    c ∈ for_loop 0 k (λ i (m : gset char_type), {[to_char (sc !!! i)]} ∪ m) ∅
    ↔ ∃ i, i < k ∧ c = to_char (sc !!! i)) as Hk.
  { induction k as [|k IH]; intros Hle.
    - unfold for_loop. simpl. split; [set_solver|]. intros (i & ? & _). lia.
    - rewrite for_loop_S, elem_of_union, elem_of_singleton, IH by lia. simpl.
      split.
      + intros [->|(i & Hi & ->)]; [exists k|exists i]; split; (lia || done).
      + intros (i & Hi & ->). destruct (decide (i = k)) as [->|]; [by left|].
        right. exists i. split; [lia|done]. }
  rewrite Hk by done. split.
  - intros (i & Hi & ->). exists (sc !!! i). split; [|done].
    apply list_elem_of_lookup. exists i. by apply list_lookup_lookup_total_lt.
  - intros (x & [i Hi]%list_elem_of_lookup & ->). exists i. split.
    + by eapply lookup_lt_Some.
    + by rewrite (list_lookup_total_correct _ _ _ Hi).
Qed.

(** ** Strided loops run block by block *)

Lemma for_loop_front {St} lo cnt (body : nat → St → St) s :
  for_loop lo (S cnt) body s = for_loop (S lo) cnt body (body lo s).
Proof. done. Qed.

Lemma stride_loop_for {St} fuel b n d (body : nat → St → St) s :
  1 ≤ d →
  stride_loop fuel (b * d) n d body s
  = for_loop b (fuel `min` (ceil_div n d - b)) (λ b, body (b * d)) s.
Proof.
  intros Hd. revert b s. induction fuel as [|fuel IH]; intros b s; [done|].
  cbn [stride_loop]. case_decide as Hb.
  - apply lt_ceil_div in Hb; [|done].
    replace (b * d + d) with (S b * d) by lia. rewrite IH.
    replace (ceil_div n d - b) with (S (ceil_div n d - S b)) by lia.
    by rewrite <-Nat.succ_min_distr, for_loop_front.
  - assert (¬ b < ceil_div n d) as Hb' by (by rewrite lt_ceil_div).
    replace (ceil_div n d - b) with 0 by lia. by rewrite Nat.min_0_r.
Qed.

Lemma ceil_div_le n d : 1 ≤ d → ceil_div n d ≤ n.
Proof.
  intros Hd. destruct (decide (ceil_div n d = 0)) as [|Hne]; [lia|].
  assert (ceil_div n d - 1 < ceil_div n d) as Hlt by lia.
  apply lt_ceil_div in Hlt; [|done]. nia.
Qed.

(** ** [_fuzzy_sa_sampling]: the block loop *)

Section fuzzy_loop.
Variables (d : nat) (isa : list nat).
Hypothesis Hd : 1 ≤ d.

Local Abbreviation n := (length isa).
Local Abbreviation B := (ceil_div n d).

Lemma fuzzy_scan_for fuel :
  fuzzy_scan fuel d isa
  = for_loop 0 (fuel `min` B) (λ b, fuzzy_body d isa (b * d)) (fuzzy_init d n).
Proof using Hd.
  unfold fuzzy_scan. change 0 with (0 * d) at 1.
  rewrite (stride_loop_for fuel 0) by done. by rewrite Nat.sub_0_r.
Qed.

Lemma fuzzy_scan_S b :
  b < B → fuzzy_scan (S b) d isa = fuzzy_body d isa (b * d) (fuzzy_scan b d isa).
Proof using Hd.
  intros Hb. rewrite !fuzzy_scan_for, !Nat.min_l by lia. by rewrite for_loop_S.
Qed.

(** Any fuel of at least [B] runs the loop to its end; [n] is enough. *)
Lemma fuzzy_scan_enough fuel :
  B ≤ fuel → fuzzy_scan fuel d isa = fuzzy_scan n d isa.
Proof using Hd.
  intros Hf. pose proof (ceil_div_le n d Hd).
  rewrite !fuzzy_scan_for, !Nat.min_r by lia. done.
Qed.

Lemma block_empty_iff b :
  block_empty d isa b ↔
  ∀ p, in_block d n b p → isa !!! p < fs_min_prev_val (fuzzy_scan b d isa).
Proof.
  clear Hd. unfold block_empty, in_block. rewrite Forall_forall. split.
  - intros Hall p Hp. apply Hall, elem_of_seq. lia.
  - intros Hall p Hp%elem_of_seq. apply Hall. lia.
Qed.

(** What the inner loop leaves in [pos_min] and [pos_cnd]. *)
Lemma fuzzy_candidates_spec mp i :
  i < n →
  let e := Nat.min (i + d) n in
  let pos_min := (fuzzy_candidates d isa mp i).1 in
  let pos_cnd := (fuzzy_candidates d isa mp i).2 in
  (i ≤ pos_min < e ∧ ∀ q, i ≤ q < e → isa !!! pos_min ≤ isa !!! q) ∧
  ((pos_cnd = n ∧ ∀ q, i ≤ q < e → isa !!! q < mp) ∨
   (i ≤ pos_cnd < e ∧ mp ≤ isa !!! pos_cnd ∧
    ∀ q, i ≤ q < e → mp ≤ isa !!! q → isa !!! pos_cnd ≤ isa !!! q)).
Proof using Hd.
  intros Hi e. unfold fuzzy_candidates.
  replace e with (i + 1 + (e - (i + 1))) by lia.
  
  apply (for_loop_ind (λ j st,
    (i ≤ st.1 < j ∧ ∀ q, i ≤ q < j → isa !!! st.1 ≤ isa !!! q) ∧
    ((st.2 = n ∧ ∀ q, i ≤ q < j → isa !!! q < mp) ∨
     (i ≤ st.2 < j ∧ mp ≤ isa !!! st.2 ∧
      ∀ q, i ≤ q < j → mp ≤ isa !!! q → isa !!! st.2 ≤ isa !!! q)))).
  - simpl. split.
    + split; [lia|]. intros q Hq. by replace q with i by lia.
    + case_decide.
      * right. split_and!; [lia..|done|]. intros q Hq _. by replace q with i by lia.
      * left. split; [done|]. intros q Hq. replace q with i by lia. lia.
  - intros j [pos_min pos_cnd] Hj [[Hmin1 Hmin2] Hcnd]. simpl in *.
    assert (∀ q, i ≤ q < S j → q = j ∨ i ≤ q < j) as Hcase by lia.
    unfold fuzzy_inner_body. split.
    + case_decide; simpl.
      * split; [lia|]. intros q [->|Hq]%Hcase; [done|].
        specialize (Hmin2 q Hq). lia.
      * split; [lia|]. intros q [->|Hq]%Hcase; [lia|]. by apply Hmin2.
    + destruct (decide (mp ≤ isa !!! j)) as [Hge|Hlt]; simpl.
      * right. destruct Hcnd as [[-> Hnone]|(Hr & Hge' & Hbest)].
        -- rewrite decide_True by done. split_and!; [lia..|done|].
           intros q [->|Hq]%Hcase Hq'; [done|]. specialize (Hnone q Hq). lia.
        -- rewrite decide_False by lia. case_decide.
           ++ split_and!; [lia..|done|].
              intros q [->|Hq]%Hcase Hq'; [done|]. specialize (Hbest q Hq Hq'). lia.
           ++ split_and!; [lia..|done|].
              intros q [->|Hq]%Hcase Hq'; [lia|]. by apply Hbest.
      * destruct Hcnd as [[-> Hnone]|(Hr & Hge' & Hbest)].
        -- left. split; [done|]. intros q [->|Hq]%Hcase; [lia|]. by apply Hnone.
        -- right. split_and!; [lia..|done|].
           intros q [->|Hq]%Hcase Hq'; [lia|]. by apply Hbest.
Qed.

(** The selection made for block [b], started from any state. *)
Lemma fuzzy_select_spec b st :
  b < B →
  let p := (fuzzy_select d isa (b * d) st).1 in
  let runs := (fuzzy_select d isa (b * d) st).2 in
  let empty := ∀ q, in_block d n b q → isa !!! q < fs_min_prev_val st in
  in_block d n b p ∧
  ((empty ∧ runs = S (fs_runs st)) ∨
   (¬ empty ∧ runs = fs_runs st ∧ fs_min_prev_val st ≤ isa !!! p)).
Proof using Hd.
  intros Hb p runs empty. apply lt_ceil_div in Hb; [|done].
  pose proof (fuzzy_candidates_spec (fs_min_prev_val st) (b * d) Hb)
    as [[Hmin1 Hmin2] Hcnd].
  subst p runs. unfold fuzzy_select.
  destruct (fuzzy_candidates d isa (fs_min_prev_val st) (b * d))
    as [pos_min pos_cnd]. simpl in *.
  assert (b * d + d = (b + 1) * d) as Hbd by lia. rewrite Hbd in *.
  destruct Hcnd as [[-> Hnone]|(Hr & Hge & Hbest)].
  - rewrite decide_True by done. simpl. split; [done|]. left. split; [|done].
    intros q Hq. by apply Hnone.
  - rewrite decide_False by lia. simpl. split; [done|]. right.
    split_and!; [|done..]. intros Hall. specialize (Hall pos_cnd Hr). lia.
Qed.

Lemma fuzzy_chosen_in_block b : b < B → in_block d n b (fuzzy_chosen d isa b).
Proof using Hd. intros Hb. by apply fuzzy_select_spec. Qed.

Lemma fuzzy_scan_min_prev b :
  b < B →
  fs_min_prev_val (fuzzy_scan (S b) d isa) = isa !!! fuzzy_chosen d isa b.
Proof using Hd.
  intros Hb. rewrite fuzzy_scan_S by done. unfold fuzzy_body, fuzzy_chosen.
  by destruct (fuzzy_select _ _ _ _).
Qed.

Lemma fuzzy_scan_runs b :
  b < B →
  fs_runs (fuzzy_scan (S b) d isa)
  = (fuzzy_select d isa (b * d) (fuzzy_scan b d isa)).2.
Proof using Hd.
  intros Hb. rewrite fuzzy_scan_S by done. unfold fuzzy_body.
  by destruct (fuzzy_select _ _ _ _).
Qed.

(** The run counter: one, plus one per block with no candidate. *)
Lemma fuzzy_runs_count b :
  b ≤ B →
  fs_runs (fuzzy_scan b d isa) = 1 + length (filter (block_empty d isa) (seq 0 b)).
Proof using Hd.
  induction b as [|b IH]; intros Hb; [done|].
  rewrite fuzzy_scan_runs by lia.
  destruct (fuzzy_select_spec b (fuzzy_scan b d isa) ltac:(lia))
    as [_ [[Hempty ->]|(Hne & -> & _)]].
  - rewrite count_S_true by (by apply block_empty_iff). rewrite IH by lia. done.
  - rewrite count_S_false by (by rewrite block_empty_iff). apply IH. lia.
Qed.

Lemma fuzzy_min_prev_mono b :
  b < B → ¬ block_empty d isa b →
  fs_min_prev_val (fuzzy_scan b d isa) ≤ fs_min_prev_val (fuzzy_scan (S b) d isa).
Proof using Hd.
  intros Hb Hne. rewrite fuzzy_scan_min_prev by done.
  destruct (fuzzy_select_spec b (fuzzy_scan b d isa) Hb)
    as [_ [[Hempty _]|(_ & _ & Hle)]]; [|done].
  by apply block_empty_iff in Hempty.
Qed.
End fuzzy_loop.

(** ** Mark vectors of a list of positions *)

Lemma marks_nil n : marks (λ i, i ∈ @nil nat) n = replicate n false.
Proof.
  apply list_eq. intros i. destruct (decide (i < n)) as [Hi|Hi].
  - rewrite lookup_marks, lookup_replicate_2 by done.
    by rewrite bool_decide_eq_false_2 by (apply not_elem_of_nil).
  - rewrite !lookup_ge_None_2; [done|rewrite length_replicate; lia|].
    rewrite length_marks. lia.
Qed.

Lemma marks_insert (L : list nat) n x :
  <[x := true]> (marks (λ i, i ∈ L) n) = marks (λ i, i ∈ L ++ [x]) n.
Proof.
  apply list_eq. intros i. destruct (decide (i < n)) as [Hi|Hi].
  - rewrite (lookup_marks (λ i, i ∈ L ++ [x])) by done.
    destruct (decide (i = x)) as [->|Hne].
    + rewrite list_lookup_insert_eq by (by rewrite length_marks).
      rewrite bool_decide_eq_true_2; [done|].
      apply elem_of_app. right. apply list_elem_of_singleton. done.
    + rewrite list_lookup_insert_ne, lookup_marks by done.
      f_equal. apply bool_decide_ext.
      rewrite elem_of_app, list_elem_of_singleton. split; [by left|].
      by intros [?|?].
  - rewrite !lookup_ge_None_2; [done|rewrite length_marks; lia|].
    rewrite length_insert, length_marks. lia.
Qed.

Lemma popcount_marks_elems (L : list nat) n :
  NoDup L → Forall (λ x, x < n) L → popcount (marks (λ i, i ∈ L) n) = length L.
Proof.
  intros Hnd Hlt. rewrite popcount_marks. apply Permutation_length.
  apply NoDup_Permutation; [apply NoDup_filter, NoDup_seq|done|].
  intros x. rewrite list_elem_of_filter, elem_of_seq. split; [by intros [? _]|].
  intros Hx. split; [done|]. rewrite Forall_forall in Hlt. specialize (Hlt x Hx). lia.
Qed.

Lemma lookup_marks_elem (L : list nat) n i :
  marks (λ i, i ∈ L) n !! i = Some true ↔ i < n ∧ i ∈ L.
Proof.
  split.
  - intros Hi. assert (i < n) as Hlt.
    { apply lookup_lt_Some in Hi. by rewrite length_marks in Hi. }
    rewrite lookup_marks in Hi by done. injection Hi as Hi.
    by apply bool_decide_eq_true_1 in Hi.
  - intros [Hlt Hi]. by rewrite lookup_marks, bool_decide_eq_true_2.
Qed.

Lemma insert_snoc_replicate (L : list nat) b m x :
  length L = b → b < m →
  <[b := x]> (L ++ replicate (m - b) 0) = (L ++ [x]) ++ replicate (m - S b) 0.
Proof.
  intros Hlen Hb. replace (m - b) with (S (m - S b)) by lia.
  rewrite insert_app_r_alt, Hlen, Nat.sub_diag by lia. simpl.
  by rewrite <-(assoc_L (++)).
Qed.

(** A list without duplicates of [m] numbers below [m] lists [[0, m)]. *)
Lemma NoDup_bounded_perm (l : list nat) :
  NoDup l → Forall (λ x, x < length l) l → is_perm l.
Proof.
  intros Hnd Hlt. unfold is_perm. apply submseteq_length_Permutation.
  - apply NoDup_submseteq; [done|]. intros x Hx. apply elem_of_seq.
    rewrite Forall_forall in Hlt. specialize (Hlt x Hx). lia.
  - by rewrite length_seq.
Qed.

(** ** [_fuzzy_sa_sampling]: marks and raw inverse permutation *)

Section fuzzy_build.
Variables (d : nat) (isa : list nat).
Hypothesis Hd : 1 ≤ d.
Hypothesis Hisa : Forall (λ x, x < length isa) isa.

Local Abbreviation n := (length isa).
Local Abbreviation B := (ceil_div n d).
Local Abbreviation ps := (fuzzy_positions d isa).
Local Abbreviation qs := (fuzzy_values d isa).

Lemma fuzzy_positions_S b : ps (S b) = ps b ++ [fuzzy_chosen d isa b].
Proof. unfold fuzzy_positions. by rewrite seq_S, fmap_app. Qed.

Lemma fuzzy_values_S b : qs (S b) = qs b ++ [isa !!! fuzzy_chosen d isa b].
Proof. unfold fuzzy_values. by rewrite fuzzy_positions_S, fmap_app. Qed.

Lemma length_fuzzy_positions b : length (ps b) = b.
Proof. unfold fuzzy_positions. by rewrite length_fmap, length_seq. Qed.

Lemma length_fuzzy_values b : length (qs b) = b.
Proof. unfold fuzzy_values. by rewrite length_fmap, length_fuzzy_positions. Qed.

Lemma fuzzy_scan_inv b :
  b ≤ B →
  let st := fuzzy_scan b d isa in
  fs_marked_isa st = marks (λ i, i ∈ ps b) n ∧
  fs_marked_sa st = marks (λ i, i ∈ qs b) n ∧
  iv_width (fs_inv_perm st) = hi n + 1 ∧
  iv_data (fs_inv_perm st) = qs b ++ replicate (B - b) 0 ∧
  fs_cnt st = b.
Proof using Hd Hisa.
  induction b as [|b IH]; intros Hb.
  - simpl. rewrite !marks_nil, Nat.sub_0_r. done.
  - destruct IH as (Hmi & Hms & Hw & Hv & Hc); [lia|]. cbn zeta.
    assert (fuzzy_chosen d isa b < n) as Hp.
    { pose proof (fuzzy_chosen_in_block d isa Hd b ltac:(lia)) as Hin.
      unfold in_block in Hin. lia. }
    rewrite fuzzy_scan_S by (done || lia). unfold fuzzy_body.
    rewrite fuzzy_positions_S, fuzzy_values_S.
    unfold fuzzy_chosen in *.
    destruct (fuzzy_select d isa (b * d) (fuzzy_scan b d isa)) as [p r].
    cbn [fst] in *. cbn [fs_marked_isa fs_marked_sa fs_inv_perm fs_cnt].
    rewrite Hmi, Hms, Hc, iv_width_set, iv_data_set, Hw, Hv.
    rewrite !marks_insert. split_and!; [done..| |done].
    rewrite hi_fits by (pose proof (lookup_total_bound isa n p Hisa Hp); lia).
    apply insert_snoc_replicate; [apply length_fuzzy_values|lia].
Qed.

Lemma elem_of_fuzzy_positions b p :
  p ∈ ps b ↔ ∃ k, k < b ∧ p = fuzzy_chosen d isa k.
Proof.
  clear Hd Hisa. unfold fuzzy_positions. rewrite list_elem_of_fmap. split.
  - intros (k & -> & Hk%elem_of_seq). exists k. split; [lia|done].
  - intros (k & Hk & ->). exists k. split; [done|]. apply elem_of_seq. lia.
Qed.

Lemma fuzzy_chosen_lt b b' :
  b < b' → b' < B → fuzzy_chosen d isa b < fuzzy_chosen d isa b'.
Proof using Hd.
  intros Hlt Hb'.
  pose proof (fuzzy_chosen_in_block d isa Hd b ltac:(lia)) as [_ H1].
  pose proof (fuzzy_chosen_in_block d isa Hd b' Hb') as [H2 _].
  assert ((b + 1) * d ≤ b' * d) by (apply Nat.mul_le_mono_r; lia). lia.
Qed.

Lemma fuzzy_chosen_inj b b' :
  b < B → b' < B → fuzzy_chosen d isa b = fuzzy_chosen d isa b' → b = b'.
Proof using Hd.
  intros Hb Hb' Heq. destruct (Nat.lt_trichotomy b b') as [Hlt|[?|Hlt]]; [|done|].
  - pose proof (fuzzy_chosen_lt b b' Hlt Hb'). lia.
  - pose proof (fuzzy_chosen_lt b' b Hlt Hb). lia.
Qed.

Lemma fuzzy_chosen_bound b : b < B → fuzzy_chosen d isa b < n.
Proof using Hd.
  intros Hb. pose proof (fuzzy_chosen_in_block d isa Hd b Hb) as [_ H1]. lia.
Qed.

Lemma fuzzy_positions_NoDup b : b ≤ B → NoDup (ps b).
Proof using Hd.
  intros Hb. apply NoDup_fmap_2_strong; [|apply NoDup_seq].
  intros k k' Hk%elem_of_seq Hk'%elem_of_seq. apply fuzzy_chosen_inj; lia.
Qed.

Lemma fuzzy_positions_bound b : b ≤ B → Forall (λ p, p < n) (ps b).
Proof using Hd.
  intros Hb. apply Forall_forall. intros p (k & Hk & ->)%elem_of_fuzzy_positions.
  apply fuzzy_chosen_bound. lia.
Qed.

Lemma fuzzy_values_bound b : b ≤ B → Forall (λ v, v < n) (qs b).
Proof using Hd Hisa.
  intros Hb. unfold fuzzy_values. apply Forall_fmap.
  eapply Forall_impl; [by apply fuzzy_positions_bound|].
  intros p Hp. simpl. by apply lookup_total_bound.
Qed.

Lemma lookup_fuzzy_values b k :
  k < b → qs b !! k = Some (isa !!! fuzzy_chosen d isa k).
Proof.
  intros Hk. unfold fuzzy_values, fuzzy_positions.
  by rewrite !list_lookup_fmap, lookup_seq_lt.
Qed.

(** The pass that replaces every raw value by its rank among the marked
    SA indices. *)
Lemma fuzzy_rank_loop (M : bit_vector) (v : int_vector) :
  length M ≤ n → iv_width v = hi n + 1 →
  iv_data (for_loop 0 (iv_size v) (fuzzy_rank_body M) v)
  = rank1 M <$> iv_data v.
Proof.
  clear Hd Hisa. intros HM Hw.
  assert (∀ k, k ≤ iv_size v →
    iv_width (for_loop 0 k (fuzzy_rank_body M) v) = hi n + 1 ∧
    iv_data (for_loop 0 k (fuzzy_rank_body M) v)
    = (rank1 M <$> take k (iv_data v)) ++ drop k (iv_data v)) as Hk.
  { induction k as [|k IH]; intros Hle; [by rewrite take_0, drop_0|].
    destruct IH as [IHw IHv]; [lia|]. rewrite for_loop_S, Nat.add_0_l.
    unfold fuzzy_rank_body at 1 3. rewrite iv_width_set, iv_data_set.
    split; [done|].
    destruct (lookup_lt_is_Some_2 (iv_data v) k) as [x Hx]; [unfold iv_size in Hle; lia|].
    unfold iv_get. rewrite IHv, IHw.
    rewrite lookup_total_app_r by (rewrite length_fmap, length_take; unfold iv_size in Hle; lia).
    rewrite length_fmap, length_take, Nat.min_l, Nat.sub_diag
      by (unfold iv_size in Hle; lia).
    rewrite (drop_S _ _ _ Hx). simpl. unfold rank_query. simpl.
    rewrite hi_fits.
    2:{ etrans; [apply rank1_le_popcount|].
        unfold popcount. etrans; [apply length_filter|done]. }
    rewrite insert_app_r_alt by (rewrite length_fmap, length_take; unfold iv_size in Hle; lia).
    rewrite length_fmap, length_take, Nat.min_l, Nat.sub_diag
      by (unfold iv_size in Hle; lia).
    simpl. rewrite (take_S_r _ _ _ Hx), fmap_app. simpl.
    by rewrite <-(assoc_L (++)). }
  destruct (Hk (iv_size v)) as [_ ->]; [done|].
  unfold iv_size. by rewrite firstn_all, drop_all, app_nil_r.
Qed.

(** The members of the finished structure. *)
Lemma fuzzy_build_spec :
  let X := fuzzy_sa_sampling_build d isa in
  fz_marked_isa X = marks (λ i, i ∈ ps B) n ∧
  fz_select_marked_isa X = select_init (marks (λ i, i ∈ ps B) n) ∧
  fz_marked_sa X = marks (λ i, i ∈ qs B) n ∧
  fz_rank_marked_sa X = rank_init (marks (λ i, i ∈ qs B) n) ∧
  fz_inv_perm X = rank1 (marks (λ i, i ∈ qs B) n) <$> qs B.
Proof using Hd Hisa.
  unfold fuzzy_sa_sampling_build.
  rewrite <-(fuzzy_scan_enough d isa Hd B) by done.
  destruct (fuzzy_scan_inv B) as (Hmi & Hms & Hw & Hv & Hc); [done|]. simpl.
  rewrite Hmi, Hms. split_and!; [done..|].
  rewrite fuzzy_rank_loop by (by rewrite ?length_marks).
  by rewrite Hv, Nat.sub_diag, app_nil_r.
Qed.
End fuzzy_build.

(** ** Inverse permutations *)

Lemma is_inverse_cancel sa isa p :
  is_perm sa → is_inverse sa isa → p < length sa →
  isa !!! p < length sa ∧ sa !!! (isa !!! p) = p.
Proof.
  intros Hp [Hlen Hinv] Hlt. rewrite Forall_forall in Hinv.
  destruct (is_perm_index sa p Hp Hlt) as (i & Hi & <-).
  rewrite Hinv; [done|]. apply elem_of_seq. lia.
Qed.

Lemma is_inverse_perm sa isa : is_perm sa → is_inverse sa isa → is_perm isa.
Proof.
  intros Hp Hinv. pose proof Hinv as [Hlen _]. apply NoDup_bounded_perm.
  - apply NoDup_alt. intros p p' x Hx Hx'.
    pose proof (lookup_lt_Some _ _ _ Hx). pose proof (lookup_lt_Some _ _ _ Hx').
    apply list_lookup_total_correct in Hx, Hx'.
    destruct (is_inverse_cancel sa isa p Hp Hinv) as [_ <-]; [lia|].
    destruct (is_inverse_cancel sa isa p' Hp Hinv) as [_ <-]; [lia|].
    by rewrite Hx, Hx'.
  - apply Forall_lookup. intros p x Hx.
    pose proof (lookup_lt_Some _ _ _ Hx). apply list_lookup_total_correct in Hx.
    subst x. rewrite Hlen. apply (is_inverse_cancel sa isa p Hp Hinv). lia.
Qed.

(** ** [_fuzzy_sa_sampling]: the finished structure *)

Section fuzzy_queries.
Variables (d : nat) (isa : list nat).
Hypothesis Hd : 1 ≤ d.
Hypothesis Hp : is_perm isa.

Local Abbreviation n := (length isa).
Local Abbreviation B := (ceil_div n d).
Local Abbreviation ps := (fuzzy_positions d isa B).
Local Abbreviation qs := (fuzzy_values d isa B).
Local Abbreviation X := (fuzzy_sa_sampling_build d isa).

Lemma fuzzy_values_NoDup : NoDup qs.
Proof using Hd Hp.
  apply NoDup_fmap_2_strong; [|by apply fuzzy_positions_NoDup].
  intros p p' Hin Hin' Heq.
  pose proof (fuzzy_positions_bound d isa Hd B ltac:(done)) as Hb.
  rewrite Forall_forall in Hb. apply (is_perm_inj isa); auto.
Qed.

Lemma fuzzy_marked_sa_lookup b :
  b < B → fz_marked_sa X !! (isa !!! fuzzy_chosen d isa b) = Some true.
Proof using Hd Hp.
  intros Hb.
  destruct (fuzzy_build_spec d isa Hd (is_perm_bound _ Hp)) as (_ & _ & -> & _).
  apply lookup_marks_elem. split.
  - apply is_perm_lookup_lt; [done|]. by apply fuzzy_chosen_bound.
  - apply list_elem_of_lookup. exists b. by apply lookup_fuzzy_values.
Qed.

Lemma fuzzy_popcount_sa : popcount (fz_marked_sa X) = B.
Proof using Hd Hp.
  destruct (fuzzy_build_spec d isa Hd (is_perm_bound _ Hp)) as (_ & _ & -> & _).
  rewrite popcount_marks_elems, length_fuzzy_values;
    [done|apply fuzzy_values_NoDup|].
  apply fuzzy_values_bound; [done|by apply is_perm_bound|done].
Qed.

Lemma fuzzy_popcount_isa : popcount (fz_marked_isa X) = B.
Proof using Hd Hp.
  destruct (fuzzy_build_spec d isa Hd (is_perm_bound _ Hp)) as (-> & _).
  rewrite popcount_marks_elems, length_fuzzy_positions; [done|..].
  - by apply fuzzy_positions_NoDup.
  - by apply fuzzy_positions_bound.
Qed.

Lemma fuzzy_inv_lookup b :
  b < B →
  fz_inv_perm X !! b = Some (rank1 (fz_marked_sa X) (isa !!! fuzzy_chosen d isa b)).
Proof using Hd Hp.
  intros Hb.
  destruct (fuzzy_build_spec d isa Hd (is_perm_bound _ Hp)) as (_ & _ & -> & _ & ->).
  by rewrite list_lookup_fmap, lookup_fuzzy_values.
Qed.

Lemma fuzzy_inv_size : length (fz_inv_perm X) = B.
Proof using Hd Hp.
  destruct (fuzzy_build_spec d isa Hd (is_perm_bound _ Hp)) as (_ & _ & _ & _ & ->).
  by rewrite length_fmap, length_fuzzy_values.
Qed.

Lemma fuzzy_inv_NoDup : NoDup (fz_inv_perm X).
Proof using Hd Hp.
  apply NoDup_alt. intros b b' r Hb Hb'.
  assert (b < B) as Hlt by (rewrite <-fuzzy_inv_size; by eapply lookup_lt_Some).
  assert (b' < B) as Hlt' by (rewrite <-fuzzy_inv_size; by eapply lookup_lt_Some).
  rewrite fuzzy_inv_lookup in Hb, Hb' by done.
  injection Hb as Hb. injection Hb' as Hb'. subst r.
  apply rank1_inj_marked in Hb'; [|by apply fuzzy_marked_sa_lookup..].
  apply (is_perm_inj isa) in Hb'; [|done|by apply fuzzy_chosen_bound..].
  by apply (fuzzy_chosen_inj d isa Hd).
Qed.

Lemma fuzzy_inv_is_perm : is_perm (fz_inv_perm X).
Proof using Hd Hp.
  apply NoDup_bounded_perm; [apply fuzzy_inv_NoDup|].
  apply Forall_lookup. intros b r Hb.
  assert (b < B) as Hlt by (rewrite <-fuzzy_inv_size; by eapply lookup_lt_Some).
  rewrite fuzzy_inv_lookup in Hb by done. injection Hb as <-.
  rewrite fuzzy_inv_size, <-fuzzy_popcount_sa.
  by apply rank1_lt_popcount, fuzzy_marked_sa_lookup.
Qed.

(** The [b+1]-th mark of [marked_isa] is the position chosen in block [b]. *)
Lemma fuzzy_select_isa b :
  b < B → select1 (fz_marked_isa X) (b + 1) = fuzzy_chosen d isa b.
Proof using Hd Hp.
  intros Hb.
  destruct (fuzzy_build_spec d isa Hd (is_perm_bound _ Hp)) as (-> & _).
  pose proof (fuzzy_chosen_bound d isa Hd b Hb) as Hlt.
  assert (rank1 (marks (λ i, i ∈ ps) n) (fuzzy_chosen d isa b) = b) as Hrank.
  { rewrite rank1_marks by lia.
    transitivity (length (fuzzy_positions d isa b));
      [|apply length_fuzzy_positions].
    apply Permutation_length.
    apply NoDup_Permutation;
      [apply NoDup_filter, NoDup_seq|apply fuzzy_positions_NoDup; [done|lia]|].
    intros x. rewrite list_elem_of_filter, elem_of_seq, !elem_of_fuzzy_positions.
    split.
    - intros [(k & Hk & ->) Hx]. exists k. split; [|done].
      destruct (decide (k < b)) as [|Hge]; [done|].
      destruct (decide (k = b)) as [->|]; [lia|].
      pose proof (fuzzy_chosen_lt d isa Hd b k ltac:(lia) Hk). lia.
    - intros (k & Hk & ->). split; [exists k; split; [lia|done]|].
      pose proof (fuzzy_chosen_lt d isa Hd k b Hk Hb). lia. }
  rewrite <-Hrank at 1. apply select1_rank1, lookup_marks_elem. split; [done|].
  apply elem_of_fuzzy_positions. by exists b.
Qed.

(** The rank stored for block [b] leads back to the ISA value chosen
    there. *)
Lemma fuzzy_select_sa b :
  b < B →
  select1 (fz_marked_sa X) (fuzzy_inv X b + 1) = isa !!! fuzzy_chosen d isa b.
Proof using Hd Hp.
  intros Hb. unfold fuzzy_inv, wt_access.
  rewrite (list_lookup_total_correct _ _ _ (fuzzy_inv_lookup b Hb)).
  by apply select1_rank1, fuzzy_marked_sa_lookup.
Qed.

Lemma fuzzy_is_sampled_chosen i :
  i < n → fuzzy_is_sampled X i = true →
  ∃ b, b < B ∧ i = isa !!! fuzzy_chosen d isa b.
Proof using Hd Hp.
  intros Hi Hs. unfold fuzzy_is_sampled in Hs.
  assert (fz_marked_sa X !! i = Some true) as Hm.
  { rewrite <-Hs. apply list_lookup_lookup_total_lt.
    destruct (fuzzy_build_spec d isa Hd (is_perm_bound _ Hp)) as (_ & _ & -> & _).
    by rewrite length_marks. }
  destruct (fuzzy_build_spec d isa Hd (is_perm_bound _ Hp)) as (_ & _ & Hsa & _).
  rewrite Hsa in Hm. apply lookup_marks_elem in Hm as [_ Hin].
  apply list_elem_of_lookup in Hin as [b Hb].
  assert (b < B) as Hlt.
  { apply lookup_lt_Some in Hb. by rewrite length_fuzzy_values in Hb. }
  rewrite lookup_fuzzy_values in Hb by done. injection Hb as <-. by exists b.
Qed.

(** [operator[]] at a sampled SA index: the text position whose ISA value
    it is. *)
Lemma fuzzy_get_chosen b :
  b < B → fuzzy_get X (isa !!! fuzzy_chosen d isa b) = fuzzy_chosen d isa b.
Proof using Hd Hp.
  intros Hb. unfold fuzzy_get, wt_select.
  destruct (fuzzy_build_spec d isa Hd (is_perm_bound _ Hp))
    as (_ & Hsel & _ & Hrank & _).
  pose proof (fuzzy_select_isa b Hb) as Hsi.
  pose proof (fuzzy_inv_lookup b Hb) as Hil.
  pose proof fuzzy_inv_NoDup as Hnd.
  destruct (fuzzy_build_spec d isa Hd (is_perm_bound _ Hp))
    as (Hmi & _ & Hms & _ & _).
  rewrite Hsel, Hrank. unfold rank_query, select_query, rank_init, select_init.
  cbn [rs_v ss_v default from_option id].
  rewrite <-Hms, <-Hmi. by rewrite (select1_first_NoDup _ _ _ Hnd Hil).
Qed.
End fuzzy_queries.

(** ** Queries of the SA sampling classes at sampled indices *)

Lemma div_lt_ceil_div i n d : 1 ≤ d → i < n → i / d < ceil_div n d.
Proof.
  intros Hd Hi. apply lt_ceil_div; [done|]. pose proof (div_mul_le i d). lia.
Qed.

Lemma sa_order_get_sampled d sa i :
  1 ≤ d → Forall (λ x, x < length sa) sa → i < length sa →
  sa_order_is_sampled d i = true →
  sa_order_get d (sa_order_sampling_build d sa) i = sa !!! i.
Proof.
  intros Hd Hsa Hi Hs. apply bool_decide_eq_true_1 in Hs.
  unfold sa_order_get. rewrite sa_order_samples; [|done..|].
  - by rewrite mod_0_div_mul.
  - pose proof (div_mul_le i d). lia.
Qed.

Lemma text_order_get_sampled d sa i :
  1 ≤ d → is_perm sa → i < length sa →
  text_order_is_sampled (text_order_sampling_build d sa) i = true →
  text_order_get d (text_order_sampling_build d sa) i = sa !!! i.
Proof.
  intros Hd Hp Hi Hs. unfold text_order_is_sampled in Hs.
  rewrite (list_lookup_total_correct _ _ _ (text_order_marked_lookup d sa Hd Hp i Hi))
    in Hs.
  apply bool_decide_eq_true_1 in Hs.
  unfold text_order_get, iv_get.
  destruct (text_order_build_spec d sa Hd Hp) as (Hm & Hr & _).
  rewrite Hr. unfold rank_query, rank_init. cbn [rs_v default from_option id].
  rewrite <-Hm.
  rewrite (list_lookup_total_correct _ _ _ (text_order_sample_at d sa Hd Hp i Hi Hs)).
  by apply mod_0_div_mul.
Qed.

(** [_bwt_sampling] stores [SA[i]] itself, and its [operator[]] multiplies
    what it reads by [sample_dens]. *)
Lemma bwt_get_sampled {char_type : Type} `{Countable char_type}
    (to_char : nat → char_type) d sa bwt sample_char i :
  Forall (λ x, x < length sa) sa → i < length sa →
  bwt_is_sampled (bwt_sampling_build to_char d sa bwt sample_char) i = true →
  bwt_get d (bwt_sampling_build to_char d sa bwt sample_char) i = sa !!! i * d.
Proof.
  intros Hsa Hi Hs. unfold bwt_is_sampled in Hs. unfold bwt_get, iv_get.
  destruct (bwt_build_spec to_char d sa bwt sample_char Hsa) as (Hm & -> & ->).
  rewrite Hm, lookup_total_marks in Hs by done. apply bool_decide_eq_true_1 in Hs.
  unfold rank_query, rank_init. cbn [rs_v default from_option id].
  rewrite rank1_marks by lia.
  by rewrite (list_lookup_total_correct _ _ _
    (lookup_filled _ (λ i, sa !!! i) (length sa) i Hi Hs)).
Qed.

Lemma fuzzy_get_sampled d sa isa i :
  1 ≤ d → is_perm sa → is_inverse sa isa → i < length sa →
  fuzzy_is_sampled (fuzzy_sa_sampling_build d isa) i = true →
  fuzzy_get (fuzzy_sa_sampling_build d isa) i = sa !!! i.
Proof.
  intros Hd Hp Hinv Hi Hs. pose proof (is_inverse_perm sa isa Hp Hinv) as Hpi.
  pose proof Hinv as [Hlen _].
  destruct (fuzzy_is_sampled_chosen d isa Hd Hpi i) as (b & Hb & ->); [lia|done|].
  rewrite fuzzy_get_chosen by done.
  symmetry. apply (is_inverse_cancel sa isa); [done..|].
  rewrite <-Hlen. by apply fuzzy_chosen_bound.
Qed.

(** ** [_fuzzy_isa_sampling_support] *)

Section fuzzy_isa.
Variables (d : nat) (sa isa : list nat).
Hypothesis Hd : 1 ≤ d.
Hypothesis Hp : is_perm sa.
Hypothesis Hinv : is_inverse sa isa.

Local Abbreviation n := (length sa).
Local Abbreviation B := (ceil_div n d).
Local Abbreviation X := (fuzzy_sa_sampling_build d isa).
Local Abbreviation D := (fuzzy_isa_build (fuzzy_sa_sampling_build d isa)).

Lemma fuzzy_isa_sample_at ci :
  ci < B →
  select_query (fis_select_marked_sa D) (fuzzy_inv X ci + 1)
    = isa !!! fuzzy_chosen d isa ci ∧
  select_query (fz_select_marked_isa X) (ci + 1) = fuzzy_chosen d isa ci ∧
  fuzzy_chosen d isa ci < n ∧
  isa !!! fuzzy_chosen d isa ci < n ∧
  sa !!! (isa !!! fuzzy_chosen d isa ci) = fuzzy_chosen d isa ci.
Proof using Hd Hp Hinv.
  intros Hci. pose proof (is_inverse_perm sa isa Hp Hinv) as Hpi.
  pose proof Hinv as [Hlen _]. rewrite <-Hlen in Hci.
  pose proof (fuzzy_chosen_bound d isa Hd ci Hci) as Hlt. rewrite Hlen in Hlt.
  unfold select_query, fuzzy_isa_build. cbn [fis_select_marked_sa ss_v select_init].
  change (fz_select_marked_isa X) with (select_init (fz_marked_isa X)).
  cbn [ss_v select_init default from_option id].
  rewrite fuzzy_select_sa, fuzzy_select_isa by done.
  split_and!; [done..| |]; by apply (is_inverse_cancel sa isa).
Qed.

Lemma fuzzy_isa_sample_leq_eq i :
  i < n →
  fuzzy_isa_sample_leq d D i
  = (isa !!! fuzzy_chosen d isa (fuzzy_leq_block d isa B i),
     fuzzy_chosen d isa (fuzzy_leq_block d isa B i)).
Proof using Hd Hp Hinv.
  intros Hi. pose proof (div_lt_ceil_div i n d Hd Hi) as Hci.
  assert (fuzzy_size X = B) as Hsize.
  { unfold fuzzy_size, wt_size. pose proof Hinv as [<- _].
    apply fuzzy_inv_size; [done|]. by apply (is_inverse_perm sa isa). }
  unfold fuzzy_isa_sample_leq, fuzzy_leq_block.
  change (default fuzzy_empty (fis_sa_p D)) with X.
  destruct (fuzzy_isa_sample_at (i / d) Hci) as (_ & -> & _).
  rewrite Hsize.
  case_decide; [|by destruct (fuzzy_isa_sample_at (i / d) Hci) as (-> & _)].
  set (ci := if decide (0 < i / d) then _ else _).
  assert (ci < B) as Hci' by (subst ci; case_decide; lia).
  by destruct (fuzzy_isa_sample_at ci Hci') as (-> & -> & _).
Qed.

Lemma fuzzy_isa_sample_qeq_eq i :
  i < n →
  fuzzy_isa_sample_qeq d D i
  = (isa !!! fuzzy_chosen d isa (fuzzy_qeq_block d isa B i),
     fuzzy_chosen d isa (fuzzy_qeq_block d isa B i)).
Proof using Hd Hp Hinv.
  intros Hi. pose proof (div_lt_ceil_div i n d Hd Hi) as Hci.
  assert (fuzzy_size X = B) as Hsize.
  { unfold fuzzy_size, wt_size. pose proof Hinv as [<- _].
    apply fuzzy_inv_size; [done|]. by apply (is_inverse_perm sa isa). }
  unfold fuzzy_isa_sample_qeq, fuzzy_qeq_block.
  change (default fuzzy_empty (fis_sa_p D)) with X.
  destruct (fuzzy_isa_sample_at (i / d) Hci) as (_ & -> & _).
  rewrite Hsize.
  case_decide; [|by destruct (fuzzy_isa_sample_at (i / d) Hci) as (-> & _)].
  set (ci := if decide (i / d < B - 1) then _ else _).
  assert (ci < B) as Hci' by (subst ci; case_decide; lia).
  by destruct (fuzzy_isa_sample_at ci Hci') as (-> & -> & _).
Qed.
End fuzzy_isa.

(** ** [sample_leq] and [sample_qeq] of the three ISA supports *)

Section neighbours.
Variables (d : nat) (sa isa : list nat) (i : nat).
Hypothesis Hd : 1 ≤ d.
Hypothesis Hp : is_perm sa.
Hypothesis Hi : i < length sa.

Local Abbreviation n := (length sa).
Local Abbreviation B := (ceil_div n d).

Lemma next_block_wraps : (i / d + 1) mod B * d < n ∧
  (i < (i / d + 1) mod B * d ∨ ((i / d + 1) mod B = 0 ∧ n ≤ (i / d + 1) * d)).
Proof using Hd Hi.
  pose proof (div_lt_ceil_div i n d Hd Hi) as Hci.
  div_mod_facts i d.
  destruct (decide (i / d + 1 < B)) as [Hlt|Hge].
  - rewrite Nat.mod_small by done. split; [by apply lt_ceil_div|]. left. lia.
  - replace (i / d + 1) with B by lia. rewrite Nat.Div0.mod_same. split; [lia|].
    right. split; [done|].
    destruct (decide (n ≤ B * d)) as [|Hn]; [done|].
    assert (B < B); [|lia]. apply lt_ceil_div; [done|lia].
Qed.

Lemma isa_sample_leq_law : leq_law d sa i (isa_sample_leq d (isa_sampling_build d sa) i).
Proof using Hd Hp Hi.
  unfold leq_law, isa_sample_leq. simpl.
  pose proof (div_mul_le i d) as Hle.
  destruct (isa_samples d sa (i / d) Hd Hp) as [Hv Hsa]; [lia|].
  split_and!; [done|apply Nat.Div0.mod_mul|done..].
Qed.

Lemma isa_sample_qeq_law : qeq_law d sa i (isa_sample_qeq d (isa_sampling_build d sa) i).
Proof using Hd Hp Hi.
  unfold qeq_law, isa_sample_qeq. simpl.
  rewrite isa_size by (done || lia).
  destruct next_block_wraps as [Hlt Hwrap].
  destruct (isa_samples d sa _ Hd Hp Hlt) as [Hv Hsa].
  split_and!; [|apply Nat.Div0.mod_mul|done..].
  destruct Hwrap as [?|[-> ?]]; [left; lia|by right].
Qed.

Lemma text_order_isa_sample_leq_law :
  leq_law d sa i
    (text_order_isa_sample_leq d (text_order_isa_build (text_order_sampling_build d sa)) i).
Proof using Hd Hp Hi.
  unfold leq_law, text_order_isa_sample_leq. simpl.
  pose proof (div_mul_le i d) as Hle.
  destruct (text_order_isa_at d sa Hd Hp (i / d)) as [Hv Hsa]; [lia|].
  split_and!; [done|apply Nat.Div0.mod_mul|done..].
Qed.

Lemma text_order_isa_sample_qeq_law :
  qeq_law d sa i
    (text_order_isa_sample_qeq d (text_order_isa_build (text_order_sampling_build d sa)) i).
Proof using Hd Hp Hi.
  unfold qeq_law, text_order_isa_sample_qeq.
  change (inv_perm_size _) with (iv_size (to_samples (text_order_sampling_build d sa))).
  rewrite text_order_samples_size by done. simpl.
  destruct next_block_wraps as [Hlt Hwrap].
  destruct (text_order_isa_at d sa Hd Hp _ Hlt) as [Hv Hsa].
  split_and!; [|apply Nat.Div0.mod_mul|done..].
  destruct Hwrap as [?|[-> ?]]; [left; lia|by right].
Qed.

Hypothesis Hinv : is_inverse sa isa.

Lemma fuzzy_isa_sample_leq_law :
  fuzzy_leq_law d sa (fuzzy_sa_sampling_build d isa) i
    (fuzzy_isa_sample_leq d (fuzzy_isa_build (fuzzy_sa_sampling_build d isa)) i).
Proof using Hd Hp Hi Hinv.
  pose proof (is_inverse_perm sa isa Hp Hinv) as Hpi. pose proof Hinv as [Hlen _].
  pose proof (div_lt_ceil_div i n d Hd Hi) as Hci.
  rewrite (fuzzy_isa_sample_leq_eq d sa isa) by done.
  unfold fuzzy_leq_law, fuzzy_size, wt_size. rewrite fuzzy_inv_size, Hlen by done.
  cbn [fst snd].
  assert (fuzzy_leq_block d isa B i < B) as Hblk.
  { unfold fuzzy_leq_block. repeat case_decide; lia. }
  destruct (fuzzy_isa_sample_at d sa isa Hd Hp Hinv _ Hblk) as (_ & _ & _ & Hv & Hsa).
  split_and!; [|done..].
  unfold fuzzy_leq_block in *. repeat case_decide.
  - left. pose proof (fuzzy_chosen_in_block d isa Hd (i / d - 1)) as [_ Hb].
    { rewrite Hlen. lia. }
    pose proof (div_mul_le i d).
    replace (i / d - 1 + 1) with (i / d) in Hb by lia. lia.
  - right. split; [lia|].
    replace B with (B - 1 + 1) at 2 by lia.
    rewrite <-Hlen, fuzzy_select_isa; [done..|]. rewrite Hlen. lia.
  - left. lia.
Qed.

Lemma fuzzy_isa_sample_qeq_law :
  fuzzy_qeq_law d sa (fuzzy_sa_sampling_build d isa) i
    (fuzzy_isa_sample_qeq d (fuzzy_isa_build (fuzzy_sa_sampling_build d isa)) i).
Proof using Hd Hp Hi Hinv.
  pose proof (is_inverse_perm sa isa Hp Hinv) as Hpi. pose proof Hinv as [Hlen _].
  pose proof (div_lt_ceil_div i n d Hd Hi) as Hci.
  rewrite (fuzzy_isa_sample_qeq_eq d sa isa) by done.
  unfold fuzzy_qeq_law, fuzzy_size, wt_size. rewrite fuzzy_inv_size, Hlen by done.
  cbn [fst snd].
  assert (fuzzy_qeq_block d isa B i < B) as Hblk.
  { unfold fuzzy_qeq_block. repeat case_decide; lia. }
  destruct (fuzzy_isa_sample_at d sa isa Hd Hp Hinv _ Hblk) as (_ & _ & _ & Hv & Hsa).
  split_and!; [|done..].
  unfold fuzzy_qeq_block in *. repeat case_decide.
  - left. pose proof (fuzzy_chosen_in_block d isa Hd (i / d + 1)) as [Hb _].
    { rewrite Hlen. lia. }
    div_mod_facts i d. lia.
  - right. split; [lia|].
    change 1 with (0 + 1).
    rewrite fuzzy_select_isa; [done..|]. rewrite Hlen. lia.
  - left. lia.
Qed.
End neighbours.

(** Closes a decidable statement about concrete data by evaluation. *)
Ltac by_compute := apply (bool_decide_unpack _); by vm_compute.

Lemma SA_ex_perm : is_perm SA_ex.
Proof. by_compute. Qed.

Lemma ISA_ex_perm : is_perm ISA_ex.
Proof. by_compute. Qed.

Lemma ISA_ex_inverse : is_inverse SA_ex ISA_ex.
Proof. by_compute. Qed.

Lemma filter_ext_in {A} (P Q : A → Prop) `{∀ x, Decision (P x), ∀ x, Decision (Q x)}
    (l : list A) :
  (∀ x, x ∈ l → P x ↔ Q x) → filter P l = filter Q l.
Proof.
  induction l as [|x l IH]; intros HPQ; [done|].
  assert (filter P l = filter Q l) as Hl.
  { apply IH. intros y Hy. apply HPQ. by right. }
  destruct (decide (P x)) as [HP|HP].
  - rewrite !filter_cons_True, Hl; [done|by apply HPQ; [left|]|done].
  - rewrite !filter_cons_False, Hl; [done| |done].
    intros HQ. apply HP, HPQ; [left|done].
Qed.

(** The header example, evaluated: the marks are the starred rows of the
    two tables in the header comment. *)
Example sa_order_ex :
  iv_data (sa_order_sampling_build 2 SA_ex) = [12; 0; 1; 2; 3; 4; 5].
Proof. reflexivity. Qed.

Example text_order_ex :
  let X := text_order_sampling_build 2 SA_ex in
  to_marked X = [true; true; true; false; false; true; true; false; false; true;
                 true; false; false] ∧
  iv_data (to_samples X) = [6; 3; 0; 4; 1; 5; 2] ∧
  text_order_get 2 X 9 = 10.
Proof. by vm_compute. Qed.

Example bwt_ex :
  let X := bwt_sampling_build (λ x, x) 4 SA_ex BWT_ex (Some sample_char_ex) in
  bw_marked X = [true; false; true; false; false; true; true; false; false; false;
                 true; true; true] ∧
  iv_data (bw_samples X) = [12; 0; 8; 2; 4; 11; 5].
Proof. by vm_compute. Qed.

Example fuzzy_ex :
  let X := fuzzy_sa_sampling_build 4 ISA_ex in
  fuzzy_positions 4 ISA_ex 4 = [0; 7; 8; 12] ∧
  fuzzy_values 4 ISA_ex 4 = [2; 3; 5; 0] ∧
  fz_inv_perm X = [1; 2; 3; 0] ∧
  fuzzy_get X <$> [0; 2; 3; 5] = [12; 0; 7; 8] ∧
  fs_runs (fuzzy_scan 13 4 ISA_ex) = 2.
Proof. by vm_compute. Qed.

Example isa_ex :
  let D := isa_sampling_build 3 SA_ex in
  iv_data D = [2; 8; 1; 7; 0] ∧
  isa_sample_leq 3 D 7 = (1, 6) ∧ isa_sample_qeq 3 D 12 = (2, 0).
Proof. by vm_compute. Qed.

(** * The properties stated by the specification *)

(** C10.  [_sa_order_sampling::operator[]] reads [samples[i / d]] for every
    index [i < n], sampled or not: the read is inside the vector and yields
    [SA[d * (i / d)]], the sample of the block that contains [i]. *)
Theorem sa_order_get_block (d : nat) (sa : list nat) (i : nat) :
  1 ≤ d → Forall (λ x, x < length sa) sa → i < length sa →
  i / d < iv_size (sa_order_sampling_build d sa) ∧
  sa_order_get d (sa_order_sampling_build d sa) i = sa !!! (d * (i / d)).
Proof.
  intros Hd Hsa Hi. split.
  - rewrite sa_order_size by done. by apply div_lt_ceil_div.
  - unfold sa_order_get. rewrite sa_order_samples; [|done..|].
    + f_equal. lia.
    + pose proof (div_mul_le i d). lia.
Qed.

Lemma sa_order_get_block_witness :
  5 / 2 < iv_size (sa_order_sampling_build 2 SA_ex) ∧
  sa_order_get 2 (sa_order_sampling_build 2 SA_ex) 5 = SA_ex !!! (2 * (5 / 2)).
Proof.
  apply (sa_order_get_block 2 SA_ex 5).
  - lia.
  - by_compute.
  - simpl. lia.
Defined.

(** C4.  After [_text_order_sampling] is built from a permutation [SA] of
    [[0, n)] with stride [d >= 1]: [marked] has length [n] and
    [ceil(n / d)] ones, [marked[i]] is set exactly when [SA[i] mod d = 0],
    and [samples[rank1(marked, i)] = SA[i] / d] at every marked [i]. *)
Theorem text_order_build_invariant (d : nat) (sa : list nat) :
  1 ≤ d → is_perm sa →
  let X := text_order_sampling_build d sa in
  length (to_marked X) = length sa ∧
  popcount (to_marked X) = ceil_div (length sa) d ∧
  (∀ i, i < length sa → to_marked X !!! i = true ↔ sa !!! i mod d = 0) ∧
  (∀ i, i < length sa → to_marked X !!! i = true →
     iv_get (to_samples X) (rank1 (to_marked X) i) = sa !!! i / d).
Proof.
  intros Hd Hp X.
  assert (∀ i, i < length sa → to_marked X !!! i = true ↔ sa !!! i mod d = 0) as Hm.
  { intros i Hi. subst X.
    rewrite (list_lookup_total_correct _ _ _ (text_order_marked_lookup d sa Hd Hp i Hi)).
    rewrite bool_decide_eq_true. split; done. }
  split_and!; [..|done|].
  - subst X. destruct (text_order_build_spec d sa Hd Hp) as (-> & _).
    apply length_marks.
  - subst X. destruct (text_order_build_spec d sa Hd Hp) as (-> & _).
    rewrite popcount_marks. by apply text_order_count.
  - intros i Hi Hs. apply Hm in Hs; [|done]. unfold iv_get.
    apply list_lookup_total_correct. by apply text_order_sample_at.
Qed.

Lemma text_order_build_invariant_witness :
  let X := text_order_sampling_build 2 SA_ex in
  length (to_marked X) = length SA_ex ∧
  popcount (to_marked X) = ceil_div (length SA_ex) 2 ∧
  (∀ i, i < length SA_ex → to_marked X !!! i = true ↔ SA_ex !!! i mod 2 = 0) ∧
  (∀ i, i < length SA_ex → to_marked X !!! i = true →
     iv_get (to_samples X) (rank1 (to_marked X) i) = SA_ex !!! i / 2).
Proof.
  apply (text_order_build_invariant 2 SA_ex).
  - lia.
  - by_compute.
Defined.

(** C8.  After [_bwt_sampling] is built from a permutation [SA] of [[0, n)],
    a BWT and the optional sample characters (the set [S] is empty when the
    cache file is absent, and holds the characters of the file otherwise):
    [marked[i]] is set exactly when [SA[i] mod d = 0] or [BWT[i]] is in [S],
    and [samples] lists [SA[i]] over the marked [i] in increasing order. *)
Theorem bwt_build_marks_samples {char_type : Type} `{Countable char_type}
    (to_char : nat → char_type) (d : nat) (sa bwt : list nat)
    (sample_char : option (list nat)) :
  1 ≤ d → is_perm sa →
  let X := bwt_sampling_build to_char d sa bwt sample_char in
  let chars := bwt_char_map to_char sample_char in
  (∀ c, c ∈ chars ↔ ∃ sc x, sample_char = Some sc ∧ x ∈ sc ∧ c = to_char x) ∧
  (∀ i, i < length sa →
     bw_marked X !!! i = true ↔ sa !!! i mod d = 0 ∨ to_char (bwt !!! i) ∈ chars) ∧
  iv_data (bw_samples X)
  = (λ i, sa !!! i) <$> filter (λ i, bw_marked X !!! i = true) (seq 0 (length sa)).
Proof.
  intros Hd Hp X chars. pose proof (is_perm_bound sa Hp) as Hsa.
  destruct (bwt_build_spec to_char d sa bwt sample_char Hsa) as (Hm & _ & Hv).
  fold X in Hm, Hv.
  assert (∀ i, i < length sa →
    bw_marked X !!! i = true ↔ bwt_mark to_char d sa bwt sample_char i) as Hmark.
  { intros i Hi. by rewrite Hm, lookup_total_marks, bool_decide_eq_true. }
  split_and!.
  - intros c. subst chars. destruct sample_char as [sc|].
    + rewrite elem_of_bwt_char_map. split.
      * intros (x & Hx & ->). by exists sc, x.
      * intros (sc' & x & [= <-] & Hx & ->). by exists x.
    + simpl. split; [by intros ?%not_elem_of_empty|]. by intros (? & ? & ? & _).
  - intros i Hi. rewrite Hmark by done. unfold bwt_mark. split.
    + intros [Hz|Hc]; [by left|by right].
    + intros [Hz|Hc]; [by left|by right].
  - rewrite Hv. f_equal. apply filter_ext_in.
    intros i Hi%elem_of_seq. symmetry. apply Hmark. lia.
Qed.

Lemma bwt_build_marks_samples_witness :
  let X := bwt_sampling_build (λ x, x) 4 SA_ex BWT_ex (Some sample_char_ex) in
  let chars := bwt_char_map (λ x, x) (Some sample_char_ex) in
  (∀ c, c ∈ chars ↔ ∃ sc x, Some sample_char_ex = Some sc ∧ x ∈ sc ∧ c = x) ∧
  (∀ i, i < length SA_ex →
     bw_marked X !!! i = true ↔ SA_ex !!! i mod 4 = 0 ∨ BWT_ex !!! i ∈ chars) ∧
  iv_data (bw_samples X)
  = (λ i, SA_ex !!! i) <$> filter (λ i, bw_marked X !!! i = true) (seq 0 (length SA_ex)).
Proof.
  apply (bwt_build_marks_samples (λ x, x) 4 SA_ex BWT_ex (Some sample_char_ex)).
  - lia.
  - by_compute.
Defined.

Lemma in_block_unique d n b b' p : in_block d n b p → in_block d n b' p → b = b'.
Proof.
  unfold in_block. intros [H1 H2] [H3 H4].
  destruct (Nat.lt_trichotomy b b') as [Hlt|[?|Hlt]]; [|done|].
  - assert ((b + 1) * d ≤ b' * d) by (apply Nat.mul_le_mono_r; lia). lia.
  - assert ((b' + 1) * d ≤ b * d) by (apply Nat.mul_le_mono_r; lia). lia.
Qed.

(** C3.  After [_fuzzy_sa_sampling] is built from a permutation [ISA] of
    [[0, n)] with stride [d >= 1], and with [B = ceil(n / d)]: [marked_sa] and
    [marked_isa] hold [B] ones each, and the rank-compressed [inv_perm] kept
    in the wavelet tree is a permutation of [[0, B)]. *)
Theorem fuzzy_build_counts (d : nat) (isa : list nat) :
  1 ≤ d → is_perm isa →
  let X := fuzzy_sa_sampling_build d isa in
  let B := ceil_div (length isa) d in
  popcount (fz_marked_sa X) = B ∧
  popcount (fz_marked_isa X) = B ∧
  fz_inv_perm X ≡ₚ seq 0 B.
Proof.
  intros Hd Hp X B. split_and!.
  - by apply fuzzy_popcount_sa.
  - by apply fuzzy_popcount_isa.
  - pose proof (fuzzy_inv_is_perm d isa Hd Hp) as Hperm. unfold is_perm in Hperm.
    by rewrite fuzzy_inv_size in Hperm.
Qed.

Lemma fuzzy_build_counts_witness :
  let X := fuzzy_sa_sampling_build 4 ISA_ex in
  let B := ceil_div (length ISA_ex) 4 in
  popcount (fz_marked_sa X) = B ∧
  popcount (fz_marked_isa X) = B ∧
  fz_inv_perm X ≡ₚ seq 0 B.
Proof.
  apply (fuzzy_build_counts 4 ISA_ex).
  - lia.
  - by_compute.
Defined.

(** C9.  In a [_fuzzy_sa_sampling] built from a permutation [ISA] of
    [[0, n)] with stride [d >= 1], every block
    [[b * d, min((b + 1) * d, n))], [b < B], holds exactly one set position
    of [marked_isa]: the position the constructor chose for the block, which
    is what [select1(marked_isa, b + 1)] returns; these positions increase
    strictly with [b]. *)
Theorem fuzzy_one_mark_per_block (d : nat) (isa : list nat) (b : nat) :
  1 ≤ d → is_perm isa → b < ceil_div (length isa) d →
  let X := fuzzy_sa_sampling_build d isa in
  let p := select1 (fz_marked_isa X) (b + 1) in
  p = fuzzy_chosen d isa b ∧
  in_block d (length isa) b p ∧
  fz_marked_isa X !!! p = true ∧
  (∀ q, in_block d (length isa) b q → fz_marked_isa X !!! q = true → q = p) ∧
  (∀ b', b < b' < ceil_div (length isa) d → p < select1 (fz_marked_isa X) (b' + 1)).
Proof.
  intros Hd Hp Hb X p.
  assert (p = fuzzy_chosen d isa b) as Hpb by (by apply fuzzy_select_isa).
  pose proof (fuzzy_chosen_in_block d isa Hd b Hb) as Hin.
  destruct (fuzzy_build_spec d isa Hd (is_perm_bound _ Hp)) as (Hmi & _).
  fold X in Hmi.
  assert (∀ q, q < length isa →
    fz_marked_isa X !!! q = true ↔ ∃ k, k < ceil_div (length isa) d ∧
                                      q = fuzzy_chosen d isa k) as Hmark.
  { intros q Hq.
    rewrite Hmi, lookup_total_marks, bool_decide_eq_true by done.
    apply elem_of_fuzzy_positions. }
  rewrite Hpb. split_and!; [done..| | |].
  - apply Hmark; [by apply fuzzy_chosen_bound|]. by exists b.
  - intros q Hq Hs. apply Hmark in Hs as (k & Hk & ->); [|unfold in_block in Hq; lia].
    f_equal. eapply in_block_unique; [|done]. by apply fuzzy_chosen_in_block.
  - intros b' [Hlt Hb']. subst X. rewrite fuzzy_select_isa by done.
    by apply fuzzy_chosen_lt.
Qed.

Lemma fuzzy_one_mark_per_block_witness :
  let X := fuzzy_sa_sampling_build 4 ISA_ex in
  let p := select1 (fz_marked_isa X) (1 + 1) in
  p = fuzzy_chosen 4 ISA_ex 1 ∧
  in_block 4 (length ISA_ex) 1 p ∧
  fz_marked_isa X !!! p = true ∧
  (∀ q, in_block 4 (length ISA_ex) 1 q → fz_marked_isa X !!! q = true → q = p) ∧
  (∀ b', 1 < b' < ceil_div (length ISA_ex) 4 → p < select1 (fz_marked_isa X) (b' + 1)).
Proof.
  apply (fuzzy_one_mark_per_block 4 ISA_ex 1).
  - lia.
  - by_compute.
  - vm_compute. lia.
Defined.

(** C5, as the code has it.  Over the blocks of the [_fuzzy_sa_sampling]
    constructor, [min_prev_val] does not decrease across a block that has a
    candidate [>= min_prev_val], and the run counter, which starts at 1,
    ends at one plus the number of blocks without such a candidate. *)
Theorem fuzzy_runs_monotone (d : nat) (isa : list nat) :
  1 ≤ d →
  let B := ceil_div (length isa) d in
  (∀ b, b < B → ¬ block_empty d isa b →
     fs_min_prev_val (fuzzy_scan b d isa) ≤ fs_min_prev_val (fuzzy_scan (S b) d isa)) ∧
  fs_runs (fuzzy_scan (length isa) d isa)
  = 1 + length (filter (block_empty d isa) (seq 0 B)).
Proof.
  intros Hd B. split.
  - intros b Hb Hne. by apply fuzzy_min_prev_mono.
  - rewrite <-(fuzzy_scan_enough d isa Hd B) by done. by apply fuzzy_runs_count.
Qed.

Lemma fuzzy_runs_monotone_witness :
  let B := ceil_div (length ISA_ex) 4 in
  (∀ b, b < B → ¬ block_empty 4 ISA_ex b →
     fs_min_prev_val (fuzzy_scan b 4 ISA_ex)
     ≤ fs_min_prev_val (fuzzy_scan (S b) 4 ISA_ex)) ∧
  fs_runs (fuzzy_scan (length ISA_ex) 4 ISA_ex)
  = 1 + length (filter (block_empty 4 ISA_ex) (seq 0 B)).
Proof. apply (fuzzy_runs_monotone 4 ISA_ex). lia. Defined.

(** C5 as stated fails: on the example of the header with [d = 4] the run
    counter ends at 2 although a single block has no candidate. *)
Lemma fuzzy_runs_counterexample :
  ¬ (∀ (d : nat) (isa : list nat),
       1 ≤ d → is_perm isa →
       let B := ceil_div (length isa) d in
       (∀ b, b < B → ¬ block_empty d isa b →
          fs_min_prev_val (fuzzy_scan b d isa)
          ≤ fs_min_prev_val (fuzzy_scan (S b) d isa)) ∧
       fs_runs (fuzzy_scan (length isa) d isa)
       = length (filter (block_empty d isa) (seq 0 B))).
Proof.
  intros Hclaim.
  destruct (Hclaim 4 ISA_ex ltac:(lia) ISA_ex_perm) as [_ Hruns].
  vm_compute in Hruns. discriminate.
Qed.

(** C1 at a failing input.  On the example of the header ([d = 4],
    [sa_sample_chars = {B, E}]) the SA index 0 is sampled by
    [_bwt_sampling] and [SA[0] = 12], but [operator[]] returns [48]: the
    sample read is multiplied by [sample_dens]. *)
Theorem bwt_get_example :
  let X := bwt_sampling_build (λ x, x) 4 SA_ex BWT_ex (Some sample_char_ex) in
  bwt_is_sampled X 0 = true ∧ SA_ex !!! 0 = 12 ∧ bwt_get 4 X 0 = 48.
Proof. by vm_compute. Qed.

(** C6.  For the three ISA supports built with one stride [d >= 1] from a
    permutation [SA] of [[0, n)] and for every [i < n]: [sample_leq(i)]
    returns [(v, p)] with [SA[v] = p], [p <= i] and [p] a multiple of [d]
    (for the fuzzy support [p] is a chosen position, not a multiple, and may
    be the wrap-around sample of the last block); [sample_qeq(i)] returns
    [(v, p)] with [SA[v] = p] and [p >= i], or the wrap-around sample. *)
Theorem isa_neighbour_samples (d : nat) (sa isa : list nat) (i : nat) :
  1 ≤ d → is_perm sa → is_inverse sa isa → i < length sa →
  let D1 := isa_sampling_build d sa in
  let D2 := text_order_isa_build (text_order_sampling_build d sa) in
  let C4 := fuzzy_sa_sampling_build d isa in
  let D3 := fuzzy_isa_build C4 in
  (leq_law d sa i (isa_sample_leq d D1 i) ∧
   leq_law d sa i (text_order_isa_sample_leq d D2 i) ∧
   fuzzy_leq_law d sa C4 i (fuzzy_isa_sample_leq d D3 i)) ∧
  (qeq_law d sa i (isa_sample_qeq d D1 i) ∧
   qeq_law d sa i (text_order_isa_sample_qeq d D2 i) ∧
   fuzzy_qeq_law d sa C4 i (fuzzy_isa_sample_qeq d D3 i)).
Proof.
  intros Hd Hp Hinv Hi. cbn zeta. split_and!.
  - by apply isa_sample_leq_law.
  - by apply text_order_isa_sample_leq_law.
  - by apply fuzzy_isa_sample_leq_law.
  - by apply isa_sample_qeq_law.
  - by apply text_order_isa_sample_qeq_law.
  - by apply fuzzy_isa_sample_qeq_law.
Qed.

Lemma isa_neighbour_samples_witness :
  let D1 := isa_sampling_build 3 SA_ex in
  let D2 := text_order_isa_build (text_order_sampling_build 3 SA_ex) in
  let C4 := fuzzy_sa_sampling_build 3 ISA_ex in
  let D3 := fuzzy_isa_build C4 in
  (leq_law 3 SA_ex 7 (isa_sample_leq 3 D1 7) ∧
   leq_law 3 SA_ex 7 (text_order_isa_sample_leq 3 D2 7) ∧
   fuzzy_leq_law 3 SA_ex C4 7 (fuzzy_isa_sample_leq 3 D3 7)) ∧
  (qeq_law 3 SA_ex 7 (isa_sample_qeq 3 D1 7) ∧
   qeq_law 3 SA_ex 7 (text_order_isa_sample_qeq 3 D2 7) ∧
   fuzzy_qeq_law 3 SA_ex C4 7 (fuzzy_isa_sample_qeq 3 D3 7)).
Proof.
  apply (isa_neighbour_samples 3 SA_ex ISA_ex 7).
  - lia.
  - by_compute.
  - by_compute.
  - simpl. lia.
Defined.

(** C2, as the code has it.  With one stride [d >= 1] and [SA] a
    permutation of [[0, n)]: for the plain ISA sampling and for the
    text-order ISA support, [SA[D[k * d]] = k * d] whenever [k * d < n].  The
    fuzzy pair samples one chosen position per block instead of the
    multiples of [d]: for a block [b] ([b * d < n]) the ISA sample the
    support reconstructs, [v = select1(marked_sa, C4.inv(b) + 1)], has
    [SA[v] = select1(marked_isa, b + 1)], a position of block [b]. *)
Theorem matched_pair_identity (d : nat) (sa isa : list nat) :
  1 ≤ d → is_perm sa → is_inverse sa isa →
  let n := length sa in
  let D1 := isa_sampling_build d sa in
  let D2 := text_order_isa_build (text_order_sampling_build d sa) in
  let C4 := fuzzy_sa_sampling_build d isa in
  let D3 := fuzzy_isa_build C4 in
  (∀ k, k * d < n → sa !!! isa_get d D1 (k * d) = k * d) ∧
  (∀ k, k * d < n → sa !!! text_order_isa_get d D2 (k * d) = k * d) ∧
  (∀ b, b * d < n →
     let p := select1 (fz_marked_isa C4) (b + 1) in
     in_block d n b p ∧
     sa !!! select_query (fis_select_marked_sa D3) (fuzzy_inv C4 b + 1) = p).
Proof.
  intros Hd Hp Hinv. cbn zeta. split_and!.
  - intros k Hk. unfold isa_get. rewrite Nat.div_mul by lia.
    by apply isa_samples.
  - intros k Hk. unfold text_order_isa_get. rewrite Nat.div_mul by lia.
    by apply (text_order_isa_at d sa Hd Hp k).
  - intros b Hb. pose proof (is_inverse_perm sa isa Hp Hinv) as Hpi.
    pose proof Hinv as [Hlen _].
    assert (b < ceil_div (length isa) d) as Hblk by (rewrite Hlen; by apply lt_ceil_div).
    unfold select_query, fuzzy_isa_build. cbn [fis_select_marked_sa ss_v select_init].
    cbn [default from_option id].
    rewrite fuzzy_select_isa, fuzzy_select_sa by done. split.
    + rewrite <-Hlen. by apply fuzzy_chosen_in_block.
    + apply (is_inverse_cancel sa isa); [done..|]. rewrite <-Hlen.
      by apply fuzzy_chosen_bound.
Qed.

Lemma matched_pair_identity_witness :
  let n := length SA_ex in
  let D1 := isa_sampling_build 4 SA_ex in
  let D2 := text_order_isa_build (text_order_sampling_build 4 SA_ex) in
  let C4 := fuzzy_sa_sampling_build 4 ISA_ex in
  let D3 := fuzzy_isa_build C4 in
  (∀ k, k * 4 < n → SA_ex !!! isa_get 4 D1 (k * 4) = k * 4) ∧
  (∀ k, k * 4 < n → SA_ex !!! text_order_isa_get 4 D2 (k * 4) = k * 4) ∧
  (∀ b, b * 4 < n →
     let p := select1 (fz_marked_isa C4) (b + 1) in
     in_block 4 n b p ∧
     SA_ex !!! select_query (fis_select_marked_sa D3) (fuzzy_inv C4 b + 1) = p).
Proof.
  apply (matched_pair_identity 4 SA_ex ISA_ex).
  - lia.
  - by_compute.
  - by_compute.
Defined.

(** The fuzzy pair on the text [a$], whose suffix array is [[1; 0]], with
    [d = 2].  The one block [[0, 2)] gets its sample at text position 1,
    the position of the least ISA value: position 0 is not marked.  The
    rank kept for the block and the SA index it stands for are both 0
    here, so the read [D[0]] is the ISA value of the block's sample, and
    [sample_leq(0)] and [sample_qeq(0)] return that sample, at position 1. *)
Example fuzzy_pair_ex :
  let C4 := fuzzy_sa_sampling_build 2 [1; 0] in
  let D3 := fuzzy_isa_build C4 in
  fz_marked_isa C4 = [false; true] ∧
  fz_marked_sa C4 = [true; false] ∧
  fuzzy_isa_get D3 0 = 0 ∧
  select_query (fis_select_marked_sa D3) (fuzzy_isa_get D3 0 + 1) = 0 ∧
  fuzzy_isa_sample_leq 2 D3 0 = (0, 1) ∧
  fuzzy_isa_sample_qeq 2 D3 0 = (0, 1).
Proof. by vm_compute. Qed.

(** C2 as stated fails for the fuzzy pair, whose samples do not sit at the
    multiples of [d]: for the suffix array [[1; 0]] with [d = 2] and
    [k = 0] the only sample is the ISA value 0 of text position 1, so
    [D[0] = 0] and [SA[0] = 1], not [0]. *)
Lemma matched_pair_counterexample :
  ¬ (∀ (d : nat) (sa isa : list nat) (k : nat),
       1 ≤ d → is_perm sa → is_inverse sa isa → k * d < length sa →
       sa !!! isa_get d (isa_sampling_build d sa) (k * d) = k * d ∧
       sa !!! text_order_isa_get d
                (text_order_isa_build (text_order_sampling_build d sa)) (k * d)
         = k * d ∧
       sa !!! fuzzy_isa_get (fuzzy_isa_build (fuzzy_sa_sampling_build d isa)) (k * d)
         = k * d).
Proof.
  intros Hclaim.
  destruct (Hclaim 2 [1; 0] [1; 0] 0) as (_ & _ & Hfuzzy).
  - lia.
  - by_compute.
  - by_compute.
  - simpl. lia.
  - vm_compute in Hfuzzy. discriminate.
Qed.

(** ** Serialization round trip *)

Module ByteFormatFacts.
Import ByteFormat.

Lemma get_put_nat n rest : get_nat (put_nat n ++ rest) = Some (n, rest).
Proof.
  unfold put_nat. induction n as [|n IH]; [done|]. simpl in *. by rewrite IH.
Qed.

Lemma get_put_bool b rest : get_bool (put_bool b ++ rest) = Some (b, rest).
Proof. by destruct b. Qed.

Lemma get_put_items {A} (put : A → list byte) get (xs : list A) rest :
  (∀ x rest, get (put x ++ rest) = Some (x, rest)) →
  get_items get (length xs) (concat (put <$> xs) ++ rest) = Some (xs, rest).
Proof.
  intros Hget. induction xs as [|x xs IH]; [done|]. simpl.
  rewrite <-(assoc_L (++)), Hget. simpl.
  change (list_fmap A (list byte) put xs) with (put <$> xs). by rewrite IH.
Qed.

Lemma get_put_list {A} (put : A → list byte) get (xs : list A) rest :
  (∀ x rest, get (put x ++ rest) = Some (x, rest)) →
  get_list get (put_list put xs ++ rest) = Some (xs, rest).
Proof.
  intros Hget. unfold get_list, put_list.
  rewrite <-(assoc_L (++)), get_put_nat. simpl. by apply get_put_items.
Qed.

Lemma codec_iv_ok : @CodecOk int_vector codec_iv.
Proof.
  intros [w data] rest. simpl. unfold get_iv, put_iv. simpl.
  rewrite <-(assoc_L (++)), get_put_nat. simpl.
  by rewrite (get_put_list put_nat get_nat data rest get_put_nat).
Qed.

Lemma codec_bv_ok : @CodecOk bit_vector codec_bv.
Proof. intros bv rest. apply get_put_list, get_put_bool. Qed.

Lemma codec_wt_ok : @CodecOk (list nat) codec_wt.
Proof. intros wt rest. apply get_put_list, get_put_nat. Qed.

Lemma codec_rank_ok : @SupportCodecOk rank_support codec_rank (RankSupport None).
Proof. by intros rs rest. Qed.

Lemma codec_select_ok :
  @SupportCodecOk select_support codec_select (SelectSupport None).
Proof. by intros ss rest. Qed.
End ByteFormatFacts.

Section roundtrip.
Context `{Cv : Codec int_vector, Cb : Codec bit_vector, Cw : Codec (list nat)}.
Context `{Cr : Codec rank_support, Cs : Codec select_support}.
Context `{!CodecOk int_vector, !CodecOk bit_vector, !CodecOk (list nat)}.
Context `{!SupportCodecOk rank_support (RankSupport None)}.
Context `{!SupportCodecOk select_support (SelectSupport None)}.

Lemma text_order_load_serialize X rest :
  to_rank_marked X = rank_init (to_marked X) →
  text_order_load (text_order_serialize X ++ rest) = Some (X, rest).
Proof using All.
  destruct X as [v m r]. simpl. intros ->.
  unfold text_order_load, text_order_serialize. simpl.
  rewrite <-!(assoc_L (++)), load_serialize. simpl.
  rewrite load_serialize. simpl.
  by rewrite load_serialize_support.
Qed.

Lemma bwt_load_serialize X rest :
  bw_rank_marked X = rank_init (bw_marked X) →
  bwt_load (bwt_serialize X ++ rest) = Some (X, rest).
Proof using All.
  destruct X as [v m r]. simpl. intros ->.
  unfold bwt_load, bwt_serialize. simpl.
  rewrite <-!(assoc_L (++)), load_serialize. simpl.
  rewrite load_serialize. simpl.
  by rewrite load_serialize_support.
Qed.

Lemma fuzzy_load_serialize X rest :
  fz_rank_marked_sa X = rank_init (fz_marked_sa X) →
  fz_select_marked_isa X = select_init (fz_marked_isa X) →
  fuzzy_load (fuzzy_serialize X ++ rest) = Some (X, rest).
Proof using All.
  destruct X as [ms rs mi si w]. simpl. intros -> ->.
  unfold fuzzy_load, fuzzy_serialize. simpl.
  rewrite <-!(assoc_L (++)), load_serialize. simpl.
  rewrite load_serialize_support. simpl.
  rewrite load_serialize. simpl.
  rewrite load_serialize_support. simpl.
  by rewrite load_serialize.
Qed.

(** C7.  For each of the four SA sampling classes and every structure
    [X] its constructor builds, [load] applied to the bytes written by
    [serialize] yields an [X'] with [X == X'], with the same
    [is_sampled], and with the same [operator[]] wherever [is_sampled]
    holds, provided each member is read back as it was written and the
    supports come back unbound. *)
Theorem serialize_load_roundtrip {char_type : Type} `{Countable char_type}
    (to_char : nat → char_type) (d : nat) (sa isa bwt : list nat)
    (sample_char : option (list nat)) :
  roundtrip_ok sa_order_serialize sa_order_load sa_order_eqb
    (λ _, sa_order_is_sampled d) (sa_order_get d)
    (sa_order_sampling_build d sa) ∧
  roundtrip_ok text_order_serialize text_order_load text_order_eqb
    text_order_is_sampled (text_order_get d)
    (text_order_sampling_build d sa) ∧
  roundtrip_ok bwt_serialize bwt_load bwt_eqb
    bwt_is_sampled (bwt_get d)
    (bwt_sampling_build to_char d sa bwt sample_char) ∧
  roundtrip_ok fuzzy_serialize fuzzy_load fuzzy_eqb
    fuzzy_is_sampled fuzzy_get
    (fuzzy_sa_sampling_build d isa).
Proof using All.
  unfold roundtrip_ok. split_and!.
  - exists (sa_order_sampling_build d sa). split_and!; [|by apply bool_decide_eq_true_2|done].
    unfold sa_order_load, sa_order_serialize.
    rewrite <-(app_nil_r (serialize _)). apply load_serialize.
  - exists (text_order_sampling_build d sa).
    split_and!; [|by apply bool_decide_eq_true_2|done].
    rewrite <-(app_nil_r (text_order_serialize _)).
    apply text_order_load_serialize. unfold text_order_sampling_build.
    by destruct (for_loop _ _ _ _) as [[? ?] ?].
  - exists (bwt_sampling_build to_char d sa bwt sample_char).
    split_and!; [|by apply bool_decide_eq_true_2|done].
    rewrite <-(app_nil_r (bwt_serialize _)).
    apply bwt_load_serialize. unfold bwt_sampling_build.
    destruct (for_loop _ _ (bwt_mark_body _ _ _ _ _) _) as [? ?].
    by destruct (for_loop _ _ _ _) as [? ?].
  - exists (fuzzy_sa_sampling_build d isa). split_and!; [| |done].
    + rewrite <-(app_nil_r (fuzzy_serialize _)). by apply fuzzy_load_serialize.
    + unfold fuzzy_eqb. by rewrite !bool_decide_eq_true_2.
Qed.
End roundtrip.

Lemma serialize_load_roundtrip_witness :
  roundtrip_ok (@sa_order_serialize ByteFormat.codec_iv)
    (@sa_order_load ByteFormat.codec_iv) sa_order_eqb
    (λ _, sa_order_is_sampled 4) (sa_order_get 4)
    (sa_order_sampling_build 4 SA_ex) ∧
  roundtrip_ok
    (@text_order_serialize ByteFormat.codec_iv ByteFormat.codec_bv ByteFormat.codec_rank)
    (@text_order_load ByteFormat.codec_iv ByteFormat.codec_bv ByteFormat.codec_rank)
    text_order_eqb text_order_is_sampled (text_order_get 4)
    (text_order_sampling_build 4 SA_ex) ∧
  roundtrip_ok
    (@bwt_serialize ByteFormat.codec_iv ByteFormat.codec_bv ByteFormat.codec_rank)
    (@bwt_load ByteFormat.codec_iv ByteFormat.codec_bv ByteFormat.codec_rank)
    bwt_eqb bwt_is_sampled (bwt_get 4)
    (bwt_sampling_build (λ x, x) 4 SA_ex BWT_ex (Some sample_char_ex)) ∧
  roundtrip_ok
    (@fuzzy_serialize ByteFormat.codec_bv ByteFormat.codec_wt ByteFormat.codec_rank
       ByteFormat.codec_select)
    (@fuzzy_load ByteFormat.codec_bv ByteFormat.codec_wt ByteFormat.codec_rank
       ByteFormat.codec_select)
    fuzzy_eqb fuzzy_is_sampled fuzzy_get
    (fuzzy_sa_sampling_build 4 ISA_ex).
Proof.
  apply (@serialize_load_roundtrip ByteFormat.codec_iv ByteFormat.codec_bv
           ByteFormat.codec_wt ByteFormat.codec_rank ByteFormat.codec_select
           ByteFormatFacts.codec_iv_ok ByteFormatFacts.codec_bv_ok
           ByteFormatFacts.codec_wt_ok ByteFormatFacts.codec_rank_ok
           ByteFormatFacts.codec_select_ok).
Defined.

(** * Further properties of the SA sampling classes *)

Lemma length_filter_mono {A} (P Q : A → Prop) `{∀ x, Decision (P x), ∀ x, Decision (Q x)}
    (l : list A) :
  (∀ x, x ∈ l → P x → Q x) → length (filter P l) ≤ length (filter Q l).
Proof.
  induction l as [|x l IH]; intros HPQ; [done|].
  assert (length (filter P l) ≤ length (filter Q l)) as Hl.
  { apply IH. intros y Hy. apply HPQ. by right. }
  destruct (decide (P x)) as [HP|HP].
  - rewrite !filter_cons_True; [simpl; lia| |done]. apply HPQ; [left|done].
  - rewrite (filter_cons_False P) by done.
    destruct (decide (Q x)).
    + rewrite filter_cons_True by done. simpl. lia.
    + by rewrite filter_cons_False.
Qed.

(** X1.  The constructor of [_sa_order_sampling] leaves [ceil(n / d)]
    samples of width [hi(n) + 1], and the [k]-th one is [SA[k * d]], an
    index inside the suffix array. *)
Theorem sa_order_build_samples (d : nat) (sa : list nat) :
  1 ≤ d → Forall (λ x, x < length sa) sa →
  let X := sa_order_sampling_build d sa in
  iv_size X = ceil_div (length sa) d ∧
  iv_width X = hi (length sa) + 1 ∧
  ∀ k, k < iv_size X → k * d < length sa ∧ iv_get X k = sa !!! (k * d).
Proof.
  intros Hd Hsa X.
  destruct (sa_order_loop d sa Hd Hsa) as (_ & _ & Hw & Hlen & _).
  assert (iv_size X = ceil_div (length sa) d) as Hsize by (by apply sa_order_size).
  split_and!; [done..|].
  intros k Hk. rewrite Hsize in Hk. apply lt_ceil_div in Hk; [|done].
  split; [done|]. by apply sa_order_samples.
Qed.

Lemma sa_order_build_samples_witness :
  let X := sa_order_sampling_build 2 SA_ex in
  iv_size X = ceil_div (length SA_ex) 2 ∧
  iv_width X = hi (length SA_ex) + 1 ∧
  ∀ k, k < iv_size X → k * 2 < length SA_ex ∧ iv_get X k = SA_ex !!! (k * 2).
Proof.
  apply (sa_order_build_samples 2 SA_ex).
  - lia.
  - by_compute.
Defined.

(** X2.  At a sampled index, [operator[]] of [_sa_order_sampling], of
    [_text_order_sampling] and of [_fuzzy_sa_sampling] returns [SA[i]]. *)
Theorem sampled_get_correct (d : nat) (sa isa : list nat) (i : nat) :
  1 ≤ d → is_perm sa → is_inverse sa isa → i < length sa →
  (sa_order_is_sampled d i = true →
   sa_order_get d (sa_order_sampling_build d sa) i = sa !!! i) ∧
  (text_order_is_sampled (text_order_sampling_build d sa) i = true →
   text_order_get d (text_order_sampling_build d sa) i = sa !!! i) ∧
  (fuzzy_is_sampled (fuzzy_sa_sampling_build d isa) i = true →
   fuzzy_get (fuzzy_sa_sampling_build d isa) i = sa !!! i).
Proof.
  intros Hd Hp Hinv Hi. split_and!.
  - apply sa_order_get_sampled; [done| |done]. by apply is_perm_bound.
  - by apply text_order_get_sampled.
  - by apply fuzzy_get_sampled.
Qed.

Lemma sampled_get_correct_witness :
  (sa_order_is_sampled 4 0 = true →
   sa_order_get 4 (sa_order_sampling_build 4 SA_ex) 0 = SA_ex !!! 0) ∧
  (text_order_is_sampled (text_order_sampling_build 4 SA_ex) 0 = true →
   text_order_get 4 (text_order_sampling_build 4 SA_ex) 0 = SA_ex !!! 0) ∧
  (fuzzy_is_sampled (fuzzy_sa_sampling_build 4 ISA_ex) 0 = true →
   fuzzy_get (fuzzy_sa_sampling_build 4 ISA_ex) 0 = SA_ex !!! 0).
Proof.
  apply (sampled_get_correct 4 SA_ex ISA_ex 0).
  - lia.
  - by_compute.
  - by_compute.
  - simpl. lia.
Defined.

(** X3.  In a [_bwt_sampling] the sample kept for a marked index [i],
    [samples[rank1(marked, i)]], is [SA[i]] itself, and [operator[]]
    returns that sample times [sample_dens]. *)
Theorem bwt_get_scaled {char_type : Type} `{Countable char_type}
    (to_char : nat → char_type) (d : nat) (sa bwt : list nat)
    (sample_char : option (list nat)) (i : nat) :
  Forall (λ x, x < length sa) sa → i < length sa →
  let X := bwt_sampling_build to_char d sa bwt sample_char in
  bwt_is_sampled X i = true →
  iv_get (bw_samples X) (rank1 (bw_marked X) i) = sa !!! i ∧
  bwt_get d X i = sa !!! i * d.
Proof.
  intros Hsa Hi X Hs. split; [|by apply bwt_get_sampled].
  subst X. unfold bwt_is_sampled in Hs. unfold iv_get.
  destruct (bwt_build_spec to_char d sa bwt sample_char Hsa) as (Hm & _ & ->).
  rewrite Hm, lookup_total_marks in Hs by done. apply bool_decide_eq_true_1 in Hs.
  rewrite Hm, rank1_marks by lia.
  by rewrite (list_lookup_total_correct _ _ _
    (lookup_filled _ (λ i, sa !!! i) (length sa) i Hi Hs)).
Qed.

Lemma bwt_get_scaled_witness :
  let X := bwt_sampling_build (λ x, x) 4 SA_ex BWT_ex (Some sample_char_ex) in
  iv_get (bw_samples X) (rank1 (bw_marked X) 6) = SA_ex !!! 6 ∧
  bwt_get 4 X 6 = SA_ex !!! 6 * 4.
Proof.
  apply (bwt_get_scaled (λ x, x) 4 SA_ex BWT_ex (Some sample_char_ex) 6).
  - by_compute.
  - simpl. lia.
  - reflexivity.
Defined.

(** X4.  The condensed samples of [_text_order_sampling] are a permutation
    of [[0, B)], [B = ceil(n / d)], which is what the inverse-permutation
    support of the matching ISA class needs: it inverts [condensed_sa] on
    both sides. *)
Theorem text_order_condensed_perm (d : nat) (sa : list nat) :
  1 ≤ d → is_perm sa →
  let X := text_order_sampling_build d sa in
  let D := text_order_isa_build X in
  let B := ceil_div (length sa) d in
  iv_size (to_samples X) = B ∧
  iv_data (to_samples X) ≡ₚ seq 0 B ∧
  (∀ j, j < B → inv_perm_get (tis_inv_perm D) (text_order_condensed_sa X j) = j) ∧
  (∀ k, k < B → inv_perm_get (tis_inv_perm D) k < B ∧
                text_order_condensed_sa X (inv_perm_get (tis_inv_perm D) k) = k).
Proof.
  intros Hd Hp X D B.
  pose proof (text_order_samples_size d sa Hd Hp) as Hsize. fold X B in Hsize.
  pose proof (text_order_samples_NoDup d sa Hd Hp) as Hnd. fold X in Hnd.
  assert (is_perm (iv_data (to_samples X))) as Hperm.
  { apply NoDup_bounded_perm; [done|]. fold (iv_size (to_samples X)). rewrite Hsize.
    subst X. destruct (text_order_build_spec d sa Hd Hp) as (_ & _ & ->).
    apply Forall_fmap, Forall_forall.
    intros i [_ Hi%elem_of_seq]%list_elem_of_filter. unfold to_sample. simpl.
    apply div_lt_ceil_div; [done|]. apply is_perm_lookup_lt; [done|lia]. }
  assert (∀ j c, iv_data (to_samples X) !! j = Some c →
                 inv_perm_get (tis_inv_perm D) c = j) as Hinv.
  { intros j c Hj. unfold inv_perm_get. subst D. simpl.
    by apply select1_first_NoDup. }
  split_and!; [done| | |].
  - unfold is_perm in Hperm. fold (iv_size (to_samples X)) in Hperm.
    by rewrite Hsize in Hperm.
  - intros j Hj. apply Hinv. unfold text_order_condensed_sa, iv_get.
    apply list_lookup_lookup_total_lt. fold (iv_size (to_samples X)). lia.
  - intros k Hk.
    destruct (is_perm_index _ k Hperm) as (j & Hj & Hjk).
    { fold (iv_size (to_samples X)). lia. }
    fold (iv_size (to_samples X)) in Hj.
    assert (iv_data (to_samples X) !! j = Some k) as Hlk.
    { rewrite <-Hjk. apply list_lookup_lookup_total_lt.
      fold (iv_size (to_samples X)). lia. }
    rewrite (Hinv j k Hlk). split; [lia|].
    unfold text_order_condensed_sa, iv_get. by apply list_lookup_total_correct.
Qed.

Lemma text_order_condensed_perm_witness :
  let X := text_order_sampling_build 2 SA_ex in
  let D := text_order_isa_build X in
  let B := ceil_div (length SA_ex) 2 in
  iv_size (to_samples X) = B ∧
  iv_data (to_samples X) ≡ₚ seq 0 B ∧
  (∀ j, j < B → inv_perm_get (tis_inv_perm D) (text_order_condensed_sa X j) = j) ∧
  (∀ k, k < B → inv_perm_get (tis_inv_perm D) k < B ∧
                text_order_condensed_sa X (inv_perm_get (tis_inv_perm D) k) = k).
Proof.
  apply (text_order_condensed_perm 2 SA_ex).
  - lia.
  - by_compute.
Defined.

(** X5.  [_bwt_sampling] keeps one sample per mark; it marks every index
    that [_text_order_sampling] marks, so there are at least [ceil(n / d)]
    and at most [n] samples. *)
Theorem bwt_mark_count {char_type : Type} `{Countable char_type}
    (to_char : nat → char_type) (d : nat) (sa bwt : list nat)
    (sample_char : option (list nat)) :
  1 ≤ d → is_perm sa →
  let X := bwt_sampling_build to_char d sa bwt sample_char in
  iv_size (bw_samples X) = popcount (bw_marked X) ∧
  ceil_div (length sa) d ≤ popcount (bw_marked X) ≤ length sa ∧
  (∀ i, i < length sa →
     text_order_is_sampled (text_order_sampling_build d sa) i = true →
     bwt_is_sampled X i = true).
Proof.
  intros Hd Hp X. pose proof (is_perm_bound sa Hp) as Hsa.
  destruct (bwt_build_spec to_char d sa bwt sample_char Hsa) as (Hm & _ & Hv).
  fold X in Hm, Hv. unfold iv_size. rewrite Hm, Hv, popcount_marks, length_fmap.
  split_and!; [done| | |].
  - rewrite <-(text_order_count d sa Hd Hp). apply length_filter_mono.
    intros i _ Hi. by left.
  - etrans; [apply length_filter|]. by rewrite length_seq.
  - intros i Hi Hs. unfold text_order_is_sampled in Hs.
    rewrite (list_lookup_total_correct _ _ _ (text_order_marked_lookup d sa Hd Hp i Hi))
      in Hs.
    apply bool_decide_eq_true_1 in Hs. unfold bwt_is_sampled.
    rewrite Hm, lookup_total_marks by done. apply bool_decide_eq_true_2. by left.
Qed.

Lemma bwt_mark_count_witness :
  let X := bwt_sampling_build (λ x, x) 4 SA_ex BWT_ex (Some sample_char_ex) in
  iv_size (bw_samples X) = popcount (bw_marked X) ∧
  ceil_div (length SA_ex) 4 ≤ popcount (bw_marked X) ≤ length SA_ex ∧
  (∀ i, i < length SA_ex →
     text_order_is_sampled (text_order_sampling_build 4 SA_ex) i = true →
     bwt_is_sampled X i = true).
Proof.
  apply (bwt_mark_count (λ x, x) 4 SA_ex BWT_ex (Some sample_char_ex)).
  - lia.
  - by_compute.
Defined.

(** X6.  When no BWT character adds a mark (in particular when the
    sample-character file is absent), [_bwt_sampling] marks exactly the
    indices of [_text_order_sampling] and each of its samples is [d] times
    the condensed sample of the latter. *)
Theorem bwt_without_chars {char_type : Type} `{Countable char_type}
    (to_char : nat → char_type) (d : nat) (sa bwt : list nat)
    (sample_char : option (list nat)) :
  1 ≤ d → is_perm sa →
  (∀ i, i < length sa →
     to_char (bwt !!! i) ∈ bwt_char_map to_char sample_char → sa !!! i mod d = 0) →
  let Xb := bwt_sampling_build to_char d sa bwt sample_char in
  let Xt := text_order_sampling_build d sa in
  bw_marked Xb = to_marked Xt ∧
  iv_data (bw_samples Xb) = (λ x, x * d) <$> iv_data (to_samples Xt).
Proof.
  intros Hd Hp Hchars Xb Xt. pose proof (is_perm_bound sa Hp) as Hsa.
  destruct (bwt_build_spec to_char d sa bwt sample_char Hsa) as (Hm & _ & Hv).
  destruct (text_order_build_spec d sa Hd Hp) as (Hmt & _ & Hvt).
  fold Xb in Hm, Hv. fold Xt in Hmt, Hvt.
  assert (∀ i, i < length sa →
    bwt_mark to_char d sa bwt sample_char i ↔ to_mark d sa i) as Heq.
  { intros i Hi. unfold bwt_mark, to_mark. split; [|by left].
    intros [Hz|Hc]; [done|]. symmetry. by apply Hchars. }
  split.
  - rewrite Hm, Hmt. by apply marks_ext.
  - rewrite Hv, Hvt, <-list_fmap_compose.
    rewrite (filter_ext_in (bwt_mark to_char d sa bwt sample_char) (to_mark d sa)).
    2:{ intros i Hi%elem_of_seq. apply Heq. lia. }
    apply list_fmap_ext. intros k i [Hz _]%list_elem_of_lookup_2%list_elem_of_filter.
    unfold to_mark in Hz. simpl. unfold to_sample. symmetry. by apply mod_0_div_mul.
Qed.

Lemma bwt_without_chars_witness :
  let Xb := bwt_sampling_build (λ x, x) 4 SA_ex BWT_ex None in
  let Xt := text_order_sampling_build 4 SA_ex in
  bw_marked Xb = to_marked Xt ∧
  iv_data (bw_samples Xb) = (λ x, x * 4) <$> iv_data (to_samples Xt).
Proof.
  apply (bwt_without_chars (λ x, x) 4 SA_ex BWT_ex None).
  - lia.
  - by_compute.
  - intros i _ Hin. by apply not_elem_of_empty in Hin.
Defined.

(** * Further properties of [_fuzzy_sa_sampling] *)

Section fuzzy_choice.
Variables (d : nat) (isa : list nat).
Hypothesis Hd : 1 ≤ d.

Local Abbreviation n := (length isa).
Local Abbreviation B := (ceil_div n d).

(** The selection made for block [b] is a least element of what it
    selects from. *)
Lemma fuzzy_select_least b st :
  b < B →
  let p := (fuzzy_select d isa (b * d) st).1 in
  let mp := fs_min_prev_val st in
  let empty := ∀ q, in_block d n b q → isa !!! q < mp in
  (empty → ∀ q, in_block d n b q → isa !!! p ≤ isa !!! q) ∧
  (¬ empty → ∀ q, in_block d n b q → mp ≤ isa !!! q → isa !!! p ≤ isa !!! q).
Proof using Hd.
  intros Hb p mp empty. apply lt_ceil_div in Hb; [|done].
  pose proof (fuzzy_candidates_spec d isa Hd mp (b * d) Hb) as [[Hmin1 Hmin2] Hcnd].
  subst p. unfold fuzzy_select. fold mp.
  destruct (fuzzy_candidates d isa mp (b * d)) as [pos_min pos_cnd]. simpl in *.
  assert (b * d + d = (b + 1) * d) as Hbd by lia. rewrite Hbd in *.
  destruct Hcnd as [[-> Hnone]|(Hr & Hge & Hbest)].
  - rewrite decide_True by done. simpl. split; [by intros _|].
    intros Hne. destruct Hne. intros q Hq. by apply Hnone.
  - rewrite decide_False by lia. simpl. split; [|by intros _].
    intros Hall. specialize (Hall pos_cnd Hr). lia.
Qed.

Lemma fuzzy_scan_0 : fs_min_prev_val (fuzzy_scan 0 d isa) = 0.
Proof. done. Qed.

Lemma block_empty_descent b :
  b < B →
  block_empty d isa b ↔
  0 < b ∧ isa !!! fuzzy_chosen d isa b < isa !!! fuzzy_chosen d isa (b - 1).
Proof using Hd.
  intros Hb. pose proof (fuzzy_chosen_in_block d isa Hd b Hb) as Hin.
  destruct (fuzzy_select_spec d isa Hd b (fuzzy_scan b d isa) Hb)
    as [_ [[Hempty _]|(Hne & _ & Hle)]].
  - apply block_empty_iff in Hempty as Hblk. split; [intros _|done].
    specialize (Hempty _ Hin). destruct b as [|b].
    + rewrite fuzzy_scan_0 in Hempty. lia.
    + rewrite fuzzy_scan_min_prev in Hempty by (done || lia).
      replace (S b - 1) with b by lia. split; [lia|done].
  - rewrite <-block_empty_iff in Hne. split; [done|]. intros [Hpos Hlt].
    destruct b as [|b]; [lia|]. replace (S b - 1) with b in Hlt by lia.
    rewrite fuzzy_scan_min_prev in Hle by (done || lia).
    fold (fuzzy_chosen d isa (S b)) in Hle. lia.
Qed.
End fuzzy_choice.

(** X7.  For each block the constructor of [_fuzzy_sa_sampling] marks a
    position of that block whose ISA value becomes [min_prev_val]: the one
    with the least ISA value among those of the block that are at least
    the previous [min_prev_val], or, when the block has none, the one with
    the least ISA value of the block. *)
Theorem fuzzy_choice_rule (d : nat) (isa : list nat) (b : nat) :
  1 ≤ d → b < ceil_div (length isa) d →
  let p := fuzzy_chosen d isa b in
  let mp := fs_min_prev_val (fuzzy_scan b d isa) in
  in_block d (length isa) b p ∧
  fs_min_prev_val (fuzzy_scan (S b) d isa) = isa !!! p ∧
  (block_empty d isa b →
     ∀ q, in_block d (length isa) b q → isa !!! p ≤ isa !!! q) ∧
  (¬ block_empty d isa b →
     mp ≤ isa !!! p ∧
     ∀ q, in_block d (length isa) b q → mp ≤ isa !!! q → isa !!! p ≤ isa !!! q).
Proof.
  intros Hd Hb p mp.
  destruct (fuzzy_select_least d isa Hd b (fuzzy_scan b d isa) Hb) as [Hmin Hcnd].
  split_and!.
  - by apply fuzzy_chosen_in_block.
  - by apply fuzzy_scan_min_prev.
  - intros Hempty. apply Hmin. by apply block_empty_iff.
  - intros Hne. split.
    + destruct (fuzzy_select_spec d isa Hd b (fuzzy_scan b d isa) Hb)
        as [_ [[Hempty _]|(_ & _ & Hle)]]; [|done].
      by apply block_empty_iff in Hempty.
    + apply Hcnd. by rewrite <-block_empty_iff.
Qed.

Lemma fuzzy_choice_rule_witness :
  let p := fuzzy_chosen 4 ISA_ex 1 in
  let mp := fs_min_prev_val (fuzzy_scan 1 4 ISA_ex) in
  in_block 4 (length ISA_ex) 1 p ∧
  fs_min_prev_val (fuzzy_scan 2 4 ISA_ex) = ISA_ex !!! p ∧
  (block_empty 4 ISA_ex 1 →
     ∀ q, in_block 4 (length ISA_ex) 1 q → ISA_ex !!! p ≤ ISA_ex !!! q) ∧
  (¬ block_empty 4 ISA_ex 1 →
     mp ≤ ISA_ex !!! p ∧
     ∀ q, in_block 4 (length ISA_ex) 1 q → mp ≤ ISA_ex !!! q →
          ISA_ex !!! p ≤ ISA_ex !!! q).
Proof.
  apply (fuzzy_choice_rule 4 ISA_ex 1).
  - lia.
  - vm_compute. lia.
Defined.

(** X8.  A block has no candidate exactly when it is not the first one and
    the ISA value recorded for it is smaller than the one recorded for the
    block before; hence the run counter ends at one plus the number of
    descents in the sequence of recorded ISA values. *)
Theorem fuzzy_runs_descents (d : nat) (isa : list nat) :
  1 ≤ d →
  let B := ceil_div (length isa) d in
  let descent b :=
    0 < b ∧ isa !!! fuzzy_chosen d isa b < isa !!! fuzzy_chosen d isa (b - 1) in
  (∀ b, b < B → block_empty d isa b ↔ descent b) ∧
  fs_runs (fuzzy_scan (length isa) d isa) = 1 + length (filter descent (seq 0 B)).
Proof.
  intros Hd B descent. split.
  - intros b Hb. by apply block_empty_descent.
  - rewrite <-(fuzzy_scan_enough d isa Hd B) by done.
    rewrite fuzzy_runs_count by done. do 2 f_equal.
    apply filter_ext_in. intros b Hb%elem_of_seq. apply block_empty_descent; [done|].
    fold B. lia.
Qed.

Lemma fuzzy_runs_descents_witness :
  let B := ceil_div (length ISA_ex) 4 in
  let descent b :=
    0 < b ∧ ISA_ex !!! fuzzy_chosen 4 ISA_ex b < ISA_ex !!! fuzzy_chosen 4 ISA_ex (b - 1) in
  (∀ b, b < B → block_empty 4 ISA_ex b ↔ descent b) ∧
  fs_runs (fuzzy_scan (length ISA_ex) 4 ISA_ex) = 1 + length (filter descent (seq 0 B)).
Proof. apply (fuzzy_runs_descents 4 ISA_ex). lia. Defined.

(** X9.  An SA index [i] is sampled by [_fuzzy_sa_sampling] exactly when
    the text position [SA[i]] is marked in [marked_isa]: the two mark
    vectors describe the same samples, seen from the two sides. *)
Theorem fuzzy_sampled_iff_marked (d : nat) (sa isa : list nat) (i : nat) :
  1 ≤ d → is_perm sa → is_inverse sa isa → i < length sa →
  let X := fuzzy_sa_sampling_build d isa in
  fuzzy_is_sampled X i = true ↔ fz_marked_isa X !!! (sa !!! i) = true.
Proof.
  intros Hd Hp Hinv Hi X. pose proof (is_inverse_perm sa isa Hp Hinv) as Hpi.
  pose proof Hinv as [Hlen Hall]. rewrite Forall_forall in Hall.
  assert (isa !!! (sa !!! i) = i) as Hisa by (apply Hall, elem_of_seq; lia).
  pose proof (is_perm_lookup_lt sa i Hp Hi) as Hlt.
  destruct (fuzzy_build_spec d isa Hd (is_perm_bound _ Hpi)) as (Hmi & _).
  fold X in Hmi. split.
  - intros Hs.
    destruct (fuzzy_is_sampled_chosen d isa Hd Hpi i) as (b & Hb & Hib); [lia|done|].
    assert (sa !!! i = fuzzy_chosen d isa b) as ->.
    { rewrite Hib. apply (is_inverse_cancel sa isa); [done..|].
      rewrite <-Hlen. by apply fuzzy_chosen_bound. }
    rewrite Hmi, lookup_total_marks by (by apply fuzzy_chosen_bound).
    apply bool_decide_eq_true_2, elem_of_fuzzy_positions. by exists b.
  - intros Hm. rewrite Hmi, lookup_total_marks in Hm by lia.
    apply bool_decide_eq_true_1, elem_of_fuzzy_positions in Hm as (b & Hb & Hsb).
    unfold fuzzy_is_sampled. rewrite <-Hisa, Hsb.
    apply list_lookup_total_correct. by apply fuzzy_marked_sa_lookup.
Qed.

Lemma fuzzy_sampled_iff_marked_witness :
  let X := fuzzy_sa_sampling_build 4 ISA_ex in
  fuzzy_is_sampled X 3 = true ↔ fz_marked_isa X !!! (SA_ex !!! 3) = true.
Proof.
  apply (fuzzy_sampled_iff_marked 4 SA_ex ISA_ex 3).
  - lia.
  - by_compute.
  - by_compute.
  - simpl. lia.
Defined.

(** X10.  The block loop of the constructor of [_fuzzy_sa_sampling] makes
    [B = ceil(n / d)] iterations: it reaches the same state under any bound
    of at least [B] on the number of iterations, [cnt] ends at [B], and
    [size()] of the finished structure is [B]. *)
Theorem fuzzy_scan_blocks (d : nat) (isa : list nat) (fuel : nat) :
  1 ≤ d → Forall (λ x, x < length isa) isa → ceil_div (length isa) d ≤ fuel →
  fuzzy_scan fuel d isa = fuzzy_scan (length isa) d isa ∧
  fs_cnt (fuzzy_scan fuel d isa) = ceil_div (length isa) d ∧
  fuzzy_size (fuzzy_sa_sampling_build d isa) = ceil_div (length isa) d.
Proof.
  intros Hd Hisa Hfuel. split_and!.
  - by apply fuzzy_scan_enough.
  - rewrite (fuzzy_scan_enough d isa Hd fuel Hfuel).
    rewrite <-(fuzzy_scan_enough d isa Hd (ceil_div (length isa) d)) by done.
    by destruct (fuzzy_scan_inv d isa Hd Hisa (ceil_div (length isa) d))
      as (_ & _ & _ & _ & ?).
  - unfold fuzzy_size, wt_size.
    destruct (fuzzy_build_spec d isa Hd Hisa) as (_ & _ & _ & _ & ->).
    by rewrite length_fmap, length_fuzzy_values.
Qed.

Lemma fuzzy_scan_blocks_witness :
  fuzzy_scan 5 4 ISA_ex = fuzzy_scan (length ISA_ex) 4 ISA_ex ∧
  fs_cnt (fuzzy_scan 5 4 ISA_ex) = ceil_div (length ISA_ex) 4 ∧
  fuzzy_size (fuzzy_sa_sampling_build 4 ISA_ex) = ceil_div (length ISA_ex) 4.
Proof.
  apply (fuzzy_scan_blocks 4 ISA_ex 5).
  - lia.
  - by_compute.
  - vm_compute. lia.
Defined.

(** * Further properties of the ISA sampling classes *)

Lemma is_inverse_at sa isa v :
  is_inverse sa isa → v < length sa → isa !!! (sa !!! v) = v.
Proof.
  intros [_ Hall] Hv. rewrite Forall_forall in Hall. apply Hall, elem_of_seq. lia.
Qed.

Lemma in_block_div d n b p : 1 ≤ d → in_block d n b p → p / d = b.
Proof.
  intros Hd [H1 H2]. symmetry. apply (Nat.div_unique p d b (p - b * d)); lia.
Qed.

Lemma isa_build_empty d : isa_sampling_build d [] = iv_empty.
Proof. done. Qed.

(** X11.  The constructor of [_isa_sampling] leaves the default vector for
    an empty suffix array (the guard [n >= 1]); otherwise the vector has
    [(n - 1) / d + 1] entries of width [hi(n) + 1], and [operator[]]
    returns [ISA[d * (i / d)]] for every text position [i < n]. *)
Theorem isa_build_samples (d : nat) (sa isa : list nat) :
  1 ≤ d → is_perm sa → is_inverse sa isa →
  let D := isa_sampling_build d sa in
  (length sa = 0 → D = iv_empty) ∧
  (1 ≤ length sa →
     iv_size D = (length sa - 1) / d + 1 ∧ iv_width D = hi (length sa) + 1) ∧
  (∀ i, i < length sa → isa_get d D i = isa !!! (d * (i / d))).
Proof.
  intros Hd Hp Hinv D. split_and!.
  - intros Hn. destruct sa; [done|simpl in Hn; lia].
  - intros Hn. destruct (isa_loop d sa Hd Hp Hn) as (Hw & Hs & _). fold D in Hw, Hs.
    by rewrite ceil_div_pred.
  - intros i Hi. unfold isa_get. pose proof (div_mul_le i d) as Hle.
    destruct (isa_samples d sa (i / d) Hd Hp) as [Hv Hsa]; [lia|]. fold D in Hv, Hsa.
    rewrite (Nat.mul_comm d), <-Hsa. symmetry. by apply is_inverse_at.
Qed.

Lemma isa_build_samples_witness :
  let D := isa_sampling_build 3 SA_ex in
  (length SA_ex = 0 → D = iv_empty) ∧
  (1 ≤ length SA_ex →
     iv_size D = (length SA_ex - 1) / 3 + 1 ∧ iv_width D = hi (length SA_ex) + 1) ∧
  (∀ i, i < length SA_ex → isa_get 3 D i = ISA_ex !!! (3 * (i / 3))).
Proof.
  apply (isa_build_samples 3 SA_ex ISA_ex).
  - lia.
  - by_compute.
  - by_compute.
Defined.

(** X12.  [_text_order_isa_sampling_support::operator[]] returns
    [ISA[d * (i / d)]] for every [i < n]; it undoes [operator[]] of the
    companion [_text_order_sampling] at every sampled SA index, and the
    companion undoes it at every multiple of [d]. *)
Theorem text_order_pair_inverse (d : nat) (sa isa : list nat) :
  1 ≤ d → is_perm sa → is_inverse sa isa →
  let X := text_order_sampling_build d sa in
  let D := text_order_isa_build X in
  (∀ i, i < length sa → text_order_isa_get d D i = isa !!! (d * (i / d))) ∧
  (∀ i, i < length sa → text_order_is_sampled X i = true →
     text_order_isa_get d D (text_order_get d X i) = i) ∧
  (∀ k, k * d < length sa →
     text_order_is_sampled X (text_order_isa_get d D (k * d)) = true ∧
     text_order_get d X (text_order_isa_get d D (k * d)) = k * d).
Proof.
  intros Hd Hp Hinv X D.
  assert (∀ i, i < length sa → text_order_isa_get d D i = isa !!! (d * (i / d)))
    as Hget.
  { intros i Hi. pose proof (div_mul_le i d) as Hle.
    destruct (text_order_isa_at d sa Hd Hp (i / d)) as [Hv Hsa]; [lia|].
    unfold text_order_isa_get. fold X D in Hv, Hsa.
    rewrite (Nat.mul_comm d), <-Hsa. symmetry. by apply is_inverse_at. }
  split_and!; [done| |].
  - intros i Hi Hs. unfold X at 1. rewrite text_order_get_sampled by done.
    pose proof (is_perm_lookup_lt sa i Hp Hi) as Hlt. rewrite Hget by done.
    unfold text_order_is_sampled in Hs.
    rewrite (list_lookup_total_correct _ _ _ (text_order_marked_lookup d sa Hd Hp i Hi))
      in Hs.
    apply bool_decide_eq_true_1 in Hs.
    rewrite Nat.mul_comm, mod_0_div_mul by done. by apply is_inverse_at.
  - intros k Hk. unfold text_order_isa_get. rewrite Nat.div_mul by lia.
    destruct (text_order_isa_at d sa Hd Hp k Hk) as [Hv Hsa]. fold X D in Hv, Hsa.
    assert (text_order_is_sampled X
      (select_query (tis_select_marked D) (inv_perm_get (tis_inv_perm D) k + 1)) = true)
      as Hs.
    { unfold text_order_is_sampled.
      rewrite (list_lookup_total_correct _ _ _
                 (text_order_marked_lookup d sa Hd Hp _ Hv)).
      apply bool_decide_eq_true_2. by rewrite Hsa, Nat.Div0.mod_mul. }
    split; [done|]. subst X. by rewrite text_order_get_sampled.
Qed.

Lemma text_order_pair_inverse_witness :
  let X := text_order_sampling_build 3 SA_ex in
  let D := text_order_isa_build X in
  (∀ i, i < length SA_ex → text_order_isa_get 3 D i = ISA_ex !!! (3 * (i / 3))) ∧
  (∀ i, i < length SA_ex → text_order_is_sampled X i = true →
     text_order_isa_get 3 D (text_order_get 3 X i) = i) ∧
  (∀ k, k * 3 < length SA_ex →
     text_order_is_sampled X (text_order_isa_get 3 D (k * 3)) = true ∧
     text_order_get 3 X (text_order_isa_get 3 D (k * 3)) = k * 3).
Proof.
  apply (text_order_pair_inverse 3 SA_ex ISA_ex).
  - lia.
  - by_compute.
  - by_compute.
Defined.

(** X13.  [sample_leq(i)] of [_isa_sampling] and of
    [_text_order_isa_sampling_support] returns [(ISA[p], p)] for the
    rightmost multiple [p] of [d] that is at most [i], so [i - p < d]. *)
Theorem isa_sample_leq_rightmost (d : nat) (sa isa : list nat) (i : nat) :
  1 ≤ d → is_perm sa → is_inverse sa isa → i < length sa →
  let p := d * (i / d) in
  isa_sample_leq d (isa_sampling_build d sa) i = (isa !!! p, p) ∧
  text_order_isa_sample_leq d
    (text_order_isa_build (text_order_sampling_build d sa)) i = (isa !!! p, p) ∧
  p ≤ i < p + d.
Proof.
  intros Hd Hp Hinv Hi p. div_mod_facts i d.
  destruct (isa_sample_leq_law d sa i Hd Hp Hi) as (_ & _ & Hv1 & Hs1).
  destruct (text_order_isa_sample_leq_law d sa i Hd Hp Hi) as (_ & _ & Hv2 & Hs2).
  unfold isa_sample_leq, text_order_isa_sample_leq in *. cbn [fst snd] in *.
  replace (i / d * d) with p in * by (unfold p; lia).
  split_and!; [..|lia|lia].
  - f_equal. rewrite <-Hs1. symmetry. by apply is_inverse_at.
  - f_equal. rewrite <-Hs2. symmetry. by apply is_inverse_at.
Qed.

Lemma isa_sample_leq_rightmost_witness :
  let p := 3 * (7 / 3) in
  isa_sample_leq 3 (isa_sampling_build 3 SA_ex) 7 = (ISA_ex !!! p, p) ∧
  text_order_isa_sample_leq 3
    (text_order_isa_build (text_order_sampling_build 3 SA_ex)) 7 = (ISA_ex !!! p, p) ∧
  p ≤ 7 < p + 3.
Proof.
  apply (isa_sample_leq_rightmost 3 SA_ex ISA_ex 7).
  - lia.
  - by_compute.
  - by_compute.
  - simpl. lia.
Defined.

(** X14.  [sample_qeq(i)] of [_isa_sampling] and of
    [_text_order_isa_sampling_support] returns [(ISA[p], p)] where [p] is
    the first multiple of [d] strictly after [i] (so [i < p <= i + d], also
    when [i] is itself a multiple of [d]) if that multiple is below [n],
    and [p = 0] otherwise. *)
Theorem isa_sample_qeq_next (d : nat) (sa isa : list nat) (i : nat) :
  1 ≤ d → is_perm sa → is_inverse sa isa → i < length sa →
  let p := if decide (d * (i / d + 1) < length sa) then d * (i / d + 1) else 0 in
  isa_sample_qeq d (isa_sampling_build d sa) i = (isa !!! p, p) ∧
  text_order_isa_sample_qeq d
    (text_order_isa_build (text_order_sampling_build d sa)) i = (isa !!! p, p) ∧
  (d * (i / d + 1) < length sa → i < p ≤ i + d).
Proof.
  intros Hd Hp Hinv Hi p. div_mod_facts i d.
  destruct (isa_sample_qeq_law d sa i Hd Hp Hi) as (_ & _ & Hv1 & Hs1).
  destruct (text_order_isa_sample_qeq_law d sa i Hd Hp Hi) as (_ & _ & Hv2 & Hs2).
  unfold isa_sample_qeq, text_order_isa_sample_qeq in *.
  change (inv_perm_size _) with (iv_size (to_samples (text_order_sampling_build d sa)))
    in *.
  rewrite isa_size in * by (done || lia).
  rewrite text_order_samples_size in * by done. cbn [fst snd] in *.
  assert ((i / d + 1) mod ceil_div (length sa) d * d = p) as Hpeq.
  { pose proof (div_lt_ceil_div i (length sa) d Hd Hi) as Hci. subst p.
    case_decide as Hnext.
    - rewrite Nat.mod_small; [lia|]. apply lt_ceil_div; [done|lia].
    - replace (i / d + 1) with (ceil_div (length sa) d).
      + rewrite Nat.Div0.mod_same. lia.
      + destruct (decide (i / d + 1 < ceil_div (length sa) d)) as [Hlt|]; [|lia].
        apply lt_ceil_div in Hlt; [|done]. lia. }
  rewrite Hpeq in *. split_and!.
  - f_equal. rewrite <-Hs1. symmetry. by apply is_inverse_at.
  - f_equal. rewrite <-Hs2. symmetry. by apply is_inverse_at.
  - intros Hnext. subst p. rewrite decide_True by done. lia.
Qed.

Lemma isa_sample_qeq_next_witness :
  let p := if decide (3 * (6 / 3 + 1) < length SA_ex) then 3 * (6 / 3 + 1) else 0 in
  isa_sample_qeq 3 (isa_sampling_build 3 SA_ex) 6 = (ISA_ex !!! p, p) ∧
  text_order_isa_sample_qeq 3
    (text_order_isa_build (text_order_sampling_build 3 SA_ex)) 6 = (ISA_ex !!! p, p) ∧
  (3 * (6 / 3 + 1) < length SA_ex → 6 < p ≤ 6 + 3).
Proof.
  apply (isa_sample_qeq_next 3 SA_ex ISA_ex 6).
  - lia.
  - by_compute.
  - by_compute.
  - simpl. lia.
Defined.

(** ** The fuzzy support *)

Lemma fuzzy_marked_isa_iff d isa q :
  1 ≤ d → is_perm isa → q < length isa →
  fz_marked_isa (fuzzy_sa_sampling_build d isa) !!! q = true ↔
  ∃ k, k < ceil_div (length isa) d ∧ q = fuzzy_chosen d isa k.
Proof.
  intros Hd Hp Hq.
  destruct (fuzzy_build_spec d isa Hd (is_perm_bound _ Hp)) as (Hmi & _).
  rewrite Hmi, lookup_total_marks, bool_decide_eq_true by done.
  apply elem_of_fuzzy_positions.
Qed.

Lemma fuzzy_chosen_mono d isa b b' :
  1 ≤ d → b ≤ b' → b' < ceil_div (length isa) d →
  fuzzy_chosen d isa b ≤ fuzzy_chosen d isa b'.
Proof.
  intros Hd Hle Hb'. destruct (decide (b = b')) as [->|]; [done|].
  pose proof (fuzzy_chosen_lt d isa Hd b b'). lia.
Qed.

(** X15.  [sample_leq(i)] of [_fuzzy_isa_sampling_support] returns
    [(ISA[p], p)] for a marked text position [p]: the rightmost marked
    position that is at most [i], which is less than [2 d] away, or, when
    no position up to [i] is marked, the last marked position of the text
    (wrap-around). *)
Theorem fuzzy_sample_leq_rightmost (d : nat) (sa isa : list nat) (i : nat) :
  1 ≤ d → is_perm sa → is_inverse sa isa → i < length sa →
  let X := fuzzy_sa_sampling_build d isa in
  let r := fuzzy_isa_sample_leq d (fuzzy_isa_build X) i in
  r.1 = isa !!! r.2 ∧ r.2 < length sa ∧ fz_marked_isa X !!! r.2 = true ∧
  ((r.2 ≤ i ∧ i < r.2 + 2 * d ∧
    ∀ q, q ≤ i → fz_marked_isa X !!! q = true → q ≤ r.2) ∨
   ((∀ q, q ≤ i → fz_marked_isa X !!! q ≠ true) ∧
    ∀ q, q < length sa → fz_marked_isa X !!! q = true → q ≤ r.2)).
Proof.
  intros Hd Hp Hinv Hi X r.
  pose proof (is_inverse_perm sa isa Hp Hinv) as Hpi.
  pose proof Hinv as [Hlen _].
  pose proof (div_lt_ceil_div i _ d Hd Hi) as Hci. div_mod_facts i d.
  subst r X. rewrite (fuzzy_isa_sample_leq_eq d sa isa Hd Hp Hinv i Hi). cbn [fst snd].
  rewrite <-Hlen in *.
  set (c := fuzzy_leq_block d isa _ i).
  assert (c < ceil_div (length isa) d) as Hc.
  { subst c. unfold fuzzy_leq_block. repeat case_decide; lia. }
  pose proof (fuzzy_chosen_in_block d isa Hd c Hc) as [Hc1 Hc2].
  split_and!; [done|lia| |].
  { apply fuzzy_marked_isa_iff; [done|done|lia|]. by exists c. }
  pose proof (fuzzy_chosen_in_block d isa Hd (i / d) Hci) as [Hi1 Hi2].
  assert (∀ k k', k + 1 ≤ k' → k * d + d ≤ k' * d) as Hmul by (intros; nia).
  subst c. unfold fuzzy_leq_block in *. case_decide as Hlt; [case_decide as Hpos|].
  - left. assert ((i / d - 1 + 1) * d = (i / d - 1) * d + d) as Hprev by lia.
    replace (i / d - 1 + 1) with (i / d) in * by lia. split_and!; [lia|lia|].
    intros q Hq [k [Hk ->]]%fuzzy_marked_isa_iff; [|done|done|lia].
    apply fuzzy_chosen_mono; [done| |done].
    destruct (decide (k ≤ i / d - 1)) as [|Hgt]; [done|].
    pose proof (fuzzy_chosen_mono d isa (i / d) k Hd ltac:(lia) Hk). lia.
  - right. split.
    + intros q Hq [k [Hk ->]]%fuzzy_marked_isa_iff; [|done|done|lia].
      pose proof (fuzzy_chosen_mono d isa (i / d) k Hd ltac:(lia) Hk). lia.
    + intros q Hq [k [Hk ->]]%fuzzy_marked_isa_iff; [|done..].
      apply fuzzy_chosen_mono; [done|lia|done].
  - left. split_and!; [lia|lia|].
    intros q Hq [k [Hk ->]]%fuzzy_marked_isa_iff; [|done|done|lia].
    apply fuzzy_chosen_mono; [done| |done].
    destruct (decide (k ≤ i / d)) as [|Hgt]; [done|].
    pose proof (fuzzy_chosen_in_block d isa Hd k Hk) as [Hk1 _].
    pose proof (Hmul (i / d) k ltac:(lia)). lia.
Qed.

Lemma fuzzy_sample_leq_rightmost_witness :
  let X := fuzzy_sa_sampling_build 4 ISA_ex in
  let r := fuzzy_isa_sample_leq 4 (fuzzy_isa_build X) 5 in
  r.1 = ISA_ex !!! r.2 ∧ r.2 < length SA_ex ∧ fz_marked_isa X !!! r.2 = true ∧
  ((r.2 ≤ 5 ∧ 5 < r.2 + 2 * 4 ∧
    ∀ q, q ≤ 5 → fz_marked_isa X !!! q = true → q ≤ r.2) ∨
   ((∀ q, q ≤ 5 → fz_marked_isa X !!! q ≠ true) ∧
    ∀ q, q < length SA_ex → fz_marked_isa X !!! q = true → q ≤ r.2)).
Proof.
  apply (fuzzy_sample_leq_rightmost 4 SA_ex ISA_ex 5).
  - lia.
  - by_compute.
  - by_compute.
  - simpl. lia.
Defined.

(** X16.  [sample_qeq(i)] of [_fuzzy_isa_sampling_support] returns
    [(ISA[p], p)] for a marked text position [p]: the leftmost marked
    position that is at least [i], which is less than [2 d] away, or, when
    no position from [i] on is marked, the first marked position of the
    text (wrap-around). *)
Theorem fuzzy_sample_qeq_leftmost (d : nat) (sa isa : list nat) (i : nat) :
  1 ≤ d → is_perm sa → is_inverse sa isa → i < length sa →
  let X := fuzzy_sa_sampling_build d isa in
  let r := fuzzy_isa_sample_qeq d (fuzzy_isa_build X) i in
  r.1 = isa !!! r.2 ∧ r.2 < length sa ∧ fz_marked_isa X !!! r.2 = true ∧
  ((i ≤ r.2 ∧ r.2 < i + 2 * d ∧
    ∀ q, i ≤ q < length sa → fz_marked_isa X !!! q = true → r.2 ≤ q) ∨
   ((∀ q, i ≤ q < length sa → fz_marked_isa X !!! q ≠ true) ∧
    ∀ q, q < length sa → fz_marked_isa X !!! q = true → r.2 ≤ q)).
Proof.
  intros Hd Hp Hinv Hi X r.
  pose proof (is_inverse_perm sa isa Hp Hinv) as Hpi.
  pose proof Hinv as [Hlen _].
  pose proof (div_lt_ceil_div i _ d Hd Hi) as Hci. div_mod_facts i d.
  subst r X. rewrite (fuzzy_isa_sample_qeq_eq d sa isa Hd Hp Hinv i Hi). cbn [fst snd].
  rewrite <-Hlen in *.
  set (c := fuzzy_qeq_block d isa _ i).
  assert (c < ceil_div (length isa) d) as Hc.
  { subst c. unfold fuzzy_qeq_block. repeat case_decide; lia. }
  pose proof (fuzzy_chosen_in_block d isa Hd c Hc) as [Hc1 Hc2].
  split_and!; [done|lia| |].
  { apply fuzzy_marked_isa_iff; [done|done|lia|]. by exists c. }
  pose proof (fuzzy_chosen_in_block d isa Hd (i / d) Hci) as [Hi1 Hi2].
  assert (∀ k k', k + 1 ≤ k' → k * d + d ≤ k' * d) as Hmul by (intros; nia).
  subst c. unfold fuzzy_qeq_block in *. case_decide as Hlt; [case_decide as Hlast|].
  - left. pose proof (Hmul (i / d) (i / d + 1) ltac:(lia)).
    assert ((i / d + 1) * d = i / d * d + d) by lia.
    split_and!; [lia|lia|].
    intros q Hq [k [Hk ->]]%fuzzy_marked_isa_iff; [|done|done|lia].
    apply fuzzy_chosen_mono; [done| |done].
    destruct (decide (i / d + 1 ≤ k)) as [|Hgt]; [done|].
    pose proof (fuzzy_chosen_mono d isa k (i / d) Hd ltac:(lia) Hci). lia.
  - right. split.
    + intros q Hq [k [Hk ->]]%fuzzy_marked_isa_iff; [|done|done|lia].
      pose proof (fuzzy_chosen_mono d isa k (i / d) Hd ltac:(lia) Hci). lia.
    + intros q Hq [k [Hk ->]]%fuzzy_marked_isa_iff; [|done..].
      apply fuzzy_chosen_mono; [done|lia|done].
  - left. split_and!; [lia|lia|].
    intros q Hq [k [Hk ->]]%fuzzy_marked_isa_iff; [|done|done|lia].
    apply fuzzy_chosen_mono; [done| |done].
    destruct (decide (i / d ≤ k)) as [|Hgt]; [done|].
    pose proof (fuzzy_chosen_in_block d isa Hd k Hk) as [_ Hk2].
    pose proof (Hmul k (i / d) ltac:(lia)). lia.
Qed.

Lemma fuzzy_sample_qeq_leftmost_witness :
  let X := fuzzy_sa_sampling_build 4 ISA_ex in
  let r := fuzzy_isa_sample_qeq 4 (fuzzy_isa_build X) 5 in
  r.1 = ISA_ex !!! r.2 ∧ r.2 < length SA_ex ∧ fz_marked_isa X !!! r.2 = true ∧
  ((5 ≤ r.2 ∧ r.2 < 5 + 2 * 4 ∧
    ∀ q, 5 ≤ q < length SA_ex → fz_marked_isa X !!! q = true → r.2 ≤ q) ∨
   ((∀ q, 5 ≤ q < length SA_ex → fz_marked_isa X !!! q ≠ true) ∧
    ∀ q, q < length SA_ex → fz_marked_isa X !!! q = true → r.2 ≤ q)).
Proof.
  apply (fuzzy_sample_qeq_leftmost 4 SA_ex ISA_ex 5).
  - lia.
  - by_compute.
  - by_compute.
  - simpl. lia.
Defined.

(** X17.  At a sampled SA index [i] the two fuzzy structures agree: asked
    for the text position [_fuzzy_sa_sampling::operator[]] returns there,
    both [sample_leq] and [sample_qeq] of the support return the pair of
    [i] and that position. *)
Theorem fuzzy_pair_fixed (d : nat) (sa isa : list nat) (i : nat) :
  1 ≤ d → is_perm sa → is_inverse sa isa → i < length sa →
  let X := fuzzy_sa_sampling_build d isa in
  let D := fuzzy_isa_build X in
  fuzzy_is_sampled X i = true →
  fuzzy_isa_sample_leq d D (fuzzy_get X i) = (i, fuzzy_get X i) ∧
  fuzzy_isa_sample_qeq d D (fuzzy_get X i) = (i, fuzzy_get X i).
Proof.
  intros Hd Hp Hinv Hi X D Hs.
  pose proof (is_inverse_perm sa isa Hp Hinv) as Hpi.
  pose proof Hinv as [Hlen _]. rewrite <-Hlen in Hi.
  destruct (fuzzy_is_sampled_chosen d isa Hd Hpi i Hi Hs) as (b & Hb & ->).
  subst D X. rewrite !(fuzzy_get_chosen d isa Hd Hpi b Hb).
  pose proof (fuzzy_chosen_in_block d isa Hd b Hb) as Hin.
  pose proof (in_block_div _ _ _ _ Hd Hin) as Hdiv.
  assert (fuzzy_chosen d isa b < length sa) as Hlt.
  { rewrite <-Hlen. by apply fuzzy_chosen_bound. }
  rewrite (fuzzy_isa_sample_leq_eq d sa isa Hd Hp Hinv _ Hlt).
  rewrite (fuzzy_isa_sample_qeq_eq d sa isa Hd Hp Hinv _ Hlt).
  unfold fuzzy_leq_block, fuzzy_qeq_block. rewrite Hdiv.
  by rewrite !decide_False by lia.
Qed.

Lemma fuzzy_pair_fixed_witness :
  let X := fuzzy_sa_sampling_build 4 ISA_ex in
  let D := fuzzy_isa_build X in
  fuzzy_isa_sample_leq 4 D (fuzzy_get X 3) = (3, fuzzy_get X 3) ∧
  fuzzy_isa_sample_qeq 4 D (fuzzy_get X 3) = (3, fuzzy_get X 3).
Proof.
  apply (fuzzy_pair_fixed 4 SA_ex ISA_ex 3).
  - lia.
  - by_compute.
  - by_compute.
  - simpl. lia.
  - reflexivity.
Defined.

(** * Further properties: stored ranks and round trips *)

(** X18.  [_fuzzy_isa_sampling_support::operator[]] takes a block number
    [b], not a text position: it returns the rank of the block's sample
    among the marked SA indices.  Over the blocks these ranks are pairwise
    different and below the number of blocks, the select support turns the
    rank into the ISA value of the block's marked position, and the
    companion's [operator[]] leads from there back to that position. *)
Theorem fuzzy_isa_get_rank (d : nat) (sa isa : list nat) (b : nat) :
  1 ≤ d → is_perm sa → is_inverse sa isa → b < ceil_div (length sa) d →
  let X := fuzzy_sa_sampling_build d isa in
  let D := fuzzy_isa_build X in
  let v := select_query (fis_select_marked_sa D) (fuzzy_isa_get D b + 1) in
  fuzzy_isa_get D b = rank1 (fz_marked_sa X) (isa !!! fuzzy_chosen d isa b) ∧
  fuzzy_isa_get D b < ceil_div (length sa) d ∧
  (∀ b', b' < ceil_div (length sa) d → fuzzy_isa_get D b' = fuzzy_isa_get D b → b' = b) ∧
  v = isa !!! fuzzy_chosen d isa b ∧
  fuzzy_is_sampled X v = true ∧
  fuzzy_get X v = fuzzy_chosen d isa b.
Proof.
  intros Hd Hp Hinv Hb X D v.
  pose proof (is_inverse_perm sa isa Hp Hinv) as Hpi.
  pose proof Hinv as [Hlen _]. rewrite <-Hlen in *.
  pose proof (fuzzy_inv_lookup d isa Hd Hpi b Hb) as Hl.
  pose proof (fuzzy_inv_is_perm d isa Hd Hpi) as Hperm.
  pose proof (fuzzy_inv_size d isa Hd Hpi) as Hsize.
  fold X in Hl, Hperm, Hsize.
  assert (∀ k, k < ceil_div (length isa) d →
    fz_inv_perm X !! k = Some (fuzzy_isa_get D k)) as Hget.
  { intros k Hk. apply list_lookup_lookup_total_lt.
    change (default fuzzy_empty (fis_sa_p D)) with X. by rewrite Hsize. }
  assert (v = isa !!! fuzzy_chosen d isa b) as Hv by (by apply fuzzy_select_sa).
  split_and!.
  - pose proof (Hget b Hb) as Hg. rewrite Hl in Hg. by injection Hg.
  - rewrite <-Hsize. apply (is_perm_lookup_lt _ b Hperm). by rewrite Hsize.
  - intros b' Hb' Heq. pose proof (Hget b Hb) as Hg. pose proof (Hget b' Hb') as Hg'.
    rewrite Heq in Hg'. apply is_perm_NoDup in Hperm.
    eapply NoDup_alt in Hperm; [|exact Hg'|exact Hg]. done.
  - done.
  - rewrite Hv. unfold fuzzy_is_sampled.
    by apply list_lookup_total_correct, fuzzy_marked_sa_lookup.
  - rewrite Hv. by apply fuzzy_get_chosen.
Qed.

Lemma fuzzy_isa_get_rank_witness :
  let X := fuzzy_sa_sampling_build 4 ISA_ex in
  let D := fuzzy_isa_build X in
  let v := select_query (fis_select_marked_sa D) (fuzzy_isa_get D 1 + 1) in
  fuzzy_isa_get D 1 = rank1 (fz_marked_sa X) (ISA_ex !!! fuzzy_chosen 4 ISA_ex 1) ∧
  fuzzy_isa_get D 1 < ceil_div (length SA_ex) 4 ∧
  (∀ b', b' < ceil_div (length SA_ex) 4 →
         fuzzy_isa_get D b' = fuzzy_isa_get D 1 → b' = 1) ∧
  v = ISA_ex !!! fuzzy_chosen 4 ISA_ex 1 ∧
  fuzzy_is_sampled X v = true ∧
  fuzzy_get X v = fuzzy_chosen 4 ISA_ex 1.
Proof.
  apply (fuzzy_isa_get_rank 4 SA_ex ISA_ex 1).
  - lia.
  - by_compute.
  - by_compute.
  - vm_compute. lia.
Defined.

Lemma codec_inv_perm_ok :
  @SupportCodecOk inv_perm_support codec_inv_perm (InvPermSupport None).
Proof. by intros x rest. Qed.

Section isa_roundtrip.
Context `{Cv : Codec int_vector, Cb : Codec bit_vector, Cw : Codec (list nat)}.
Context `{Cr : Codec rank_support, Cs : Codec select_support}.
Context `{Ci : Codec inv_perm_support}.
Context `{!CodecOk int_vector, !CodecOk bit_vector, !CodecOk (list nat)}.
Context `{!SupportCodecOk rank_support (RankSupport None)}.
Context `{!SupportCodecOk select_support (SelectSupport None)}.
Context `{!SupportCodecOk inv_perm_support (InvPermSupport None)}.

(** X19.  Round trip of the three ISA classes.  [_isa_sampling] is
    read back as written, whatever companion pointer is passed.  A
    [_text_order_isa_sampling_support] or [_fuzzy_isa_sampling_support]
    built for a companion and loaded with the reloaded companion is
    the support that was written; loaded without a companion it stays
    unbound.  Each member is assumed to be read back as it was written,
    supports unbound. *)
Theorem isa_serialize_load_roundtrip (d : nat) (sa isa : list nat)
    (sa_sample : option int_vector) (this : fuzzy_isa_sampling_support)
    (rest : list byte) :
  let D1 := isa_sampling_build d sa in
  let X2 := text_order_sampling_build d sa in
  let D2 := text_order_isa_build X2 in
  let X4 := fuzzy_sa_sampling_build d isa in
  let D4 := fuzzy_isa_build X4 in
  isa_load sa_sample (isa_serialize D1 ++ rest) = Some (D1, rest) ∧
  ('(X', _) ← text_order_load (text_order_serialize X2);
     text_order_isa_load (Some X') (text_order_isa_serialize D2 ++ rest))
    = Some (D2, rest) ∧
  text_order_isa_load None (text_order_isa_serialize D2 ++ rest)
    = Some (TextOrderIsaSupport (SelectSupport None) (InvPermSupport None), rest) ∧
  ('(X', _) ← fuzzy_load (fuzzy_serialize X4);
     fuzzy_isa_load this (Some X') (fuzzy_isa_serialize D4 ++ rest))
    = Some (D4, rest) ∧
  fuzzy_isa_load this None (fuzzy_isa_serialize D4 ++ rest)
    = Some (FuzzyIsaSupport None (SelectSupport None), rest).
Proof using All.
  intros D1 X2 D2 X4 D4.
  assert (text_order_load (text_order_serialize X2) = Some (X2, [])) as HX2.
  { rewrite <-(app_nil_r (text_order_serialize _)).
    apply text_order_load_serialize. unfold X2, text_order_sampling_build.
    by destruct (for_loop _ _ _ _) as [[? ?] ?]. }
  assert (fuzzy_load (fuzzy_serialize X4) = Some (X4, [])) as HX4.
  { rewrite <-(app_nil_r (fuzzy_serialize _)). by apply fuzzy_load_serialize. }
  split_and!.
  - apply load_serialize.
  - rewrite HX2. cbn [mbind option_bind].
    unfold text_order_isa_load, text_order_isa_serialize.
    rewrite <-(assoc_L (++)), load_serialize_support. cbn [mbind option_bind].
    by rewrite load_serialize_support.
  - unfold text_order_isa_load, text_order_isa_serialize.
    rewrite <-(assoc_L (++)), load_serialize_support. cbn [mbind option_bind].
    by rewrite load_serialize_support.
  - rewrite HX4. cbn [mbind option_bind].
    unfold fuzzy_isa_load, fuzzy_isa_serialize.
    by rewrite load_serialize_support.
  - unfold fuzzy_isa_load, fuzzy_isa_serialize.
    by rewrite load_serialize_support.
Qed.
End isa_roundtrip.

Lemma isa_serialize_load_roundtrip_witness :
  let D1 := isa_sampling_build 4 SA_ex in
  let X2 := text_order_sampling_build 4 SA_ex in
  let D2 := text_order_isa_build X2 in
  let X4 := fuzzy_sa_sampling_build 4 ISA_ex in
  let D4 := fuzzy_isa_build X4 in
  @isa_load ByteFormat.codec_iv None (@isa_serialize ByteFormat.codec_iv D1 ++ [])
    = Some (D1, []) ∧
  ('(X', _) ← @text_order_load ByteFormat.codec_iv ByteFormat.codec_bv
                 ByteFormat.codec_rank
                 (@text_order_serialize ByteFormat.codec_iv ByteFormat.codec_bv
                    ByteFormat.codec_rank X2);
     @text_order_isa_load ByteFormat.codec_select codec_inv_perm (Some X')
       (@text_order_isa_serialize ByteFormat.codec_select codec_inv_perm D2 ++ []))
    = Some (D2, []) ∧
  @text_order_isa_load ByteFormat.codec_select codec_inv_perm None
    (@text_order_isa_serialize ByteFormat.codec_select codec_inv_perm D2 ++ [])
    = Some (TextOrderIsaSupport (SelectSupport None) (InvPermSupport None), []) ∧
  ('(X', _) ← @fuzzy_load ByteFormat.codec_bv ByteFormat.codec_wt ByteFormat.codec_rank
                 ByteFormat.codec_select
                 (@fuzzy_serialize ByteFormat.codec_bv ByteFormat.codec_wt
                    ByteFormat.codec_rank ByteFormat.codec_select X4);
     @fuzzy_isa_load ByteFormat.codec_select (fuzzy_isa_build fuzzy_empty) (Some X')
       (@fuzzy_isa_serialize ByteFormat.codec_select D4 ++ []))
    = Some (D4, []) ∧
  @fuzzy_isa_load ByteFormat.codec_select (fuzzy_isa_build fuzzy_empty) None
    (@fuzzy_isa_serialize ByteFormat.codec_select D4 ++ [])
    = Some (FuzzyIsaSupport None (SelectSupport None), []).
Proof.
  apply (@isa_serialize_load_roundtrip ByteFormat.codec_iv ByteFormat.codec_bv
           ByteFormat.codec_wt ByteFormat.codec_rank ByteFormat.codec_select
           codec_inv_perm
           ByteFormatFacts.codec_iv_ok ByteFormatFacts.codec_bv_ok
           ByteFormatFacts.codec_wt_ok ByteFormatFacts.codec_rank_ok
           ByteFormatFacts.codec_select_ok codec_inv_perm_ok
           4 SA_ex ISA_ex None (fuzzy_isa_build fuzzy_empty) []).
Defined.
